(** * ljpx/jwt: a shallow embedding of the token library and its properties

    The development follows the Go sources:
    - [Algorithm.go], [Header.go]: the algorithm tag and the header;
    - [Signer.go], [Verifier.go]: the two capability interfaces;
    - [Token.go]: the token, its claim and scope operations, [Sign],
      [Verify], [Serialize] and [Parse];
    - [ES256Signer.go], [ES256Verifier.go]: the ES256 pair.

    The Go standard library packages the sources call are modelled first
    ([encoding/base64], [unicode/utf8], [strings], [encoding/json],
    [math/big]); the cryptographic primitives ([crypto/sha256],
    [crypto/ecdsa], [crypto/rand]) are an interface, [Crypto].

    Representation of Go data:
    - [byte] is [ascii] (eight bits), its numeric value [N_of_ascii];
    - a Go [string] is a [string], a byte sequence with no encoding
      constraint;
    - a [[]byte] that may be [nil] is an [option (list byte)];
    - a [map[string]interface{}] is a [gmap string value];
    - a method with a pointer receiver returns the updated receiver. *)

From Stdlib Require Import ZArith NArith Ascii String List Lia.
From Stdlib Require Decimal DecimalFacts DecimalN DecimalZ.
From stdpp Require Import gmap strings list fin_maps sorting.

#[local] Set Warnings "-register-all,-abstract-large-number".

Abbreviation byte := ascii.

(* ================================================================== *)
(** * Errors, results and panics *)

(** The error values that flow through the package. The message text of
    the library errors and the byte offset carried by base64's
    [CorruptInputError] are not modelled. [SignerError] stands for any
    error value a [Signer] implementation returns. *)
Inductive error :=
  | ErrInvalidTokenStructure
  | ErrImmutable
  | CorruptInputError
  | SyntaxError
  | UnmarshalTypeError
  | UnsupportedTypeError
  | SignerError (code : nat).

(** The outcome of a call that returns [(T, error)]: a value, an error
    value, or a run-time panic. *)
Inductive result (A : Type) :=
  | Ok (a : A)
  | Err (e : error)
  | Panic.
Arguments Ok {A} a.
Arguments Err {A} e.
Arguments Panic {A}.

#[global] Instance result_ret : MRet result := fun A a => Ok a.
#[global] Instance result_bind : MBind result := fun A B k r =>
  match r with
  | Ok a => k a
  | Err e => Err e
  | Panic => Panic
  end.
#[global] Instance result_fmap : FMap result := fun A B f r =>
  match r with
  | Ok a => Ok (f a)
  | Err e => Err e
  | Panic => Panic
  end.

Definition of_option {A} (e : error) (o : option A) : result A :=
  match o with
  | Some a => Ok a
  | None => Err e
  end.

(** [data b] is the content of a slice, [nil] having none. *)
Definition data (b : option (list byte)) : list byte :=
  match b with
  | Some l => l
  | None => []
  end.

Definition code (c : byte) : N := N_of_ascii c.
Definition byte_of (n : N) : byte := ascii_of_N (n mod 256).
Definition in_range (lo hi : N) (c : byte) : bool :=
  (lo <=? code c)%N && (code c <=? hi)%N.
Definition chr (s : string) : byte :=
  match s with
  | String c _ => c
  | EmptyString => Ascii.zero
  end.
(** The double quote and the backslash, by code. *)
Definition dquote : byte := "034"%char.
Definition bslash : byte := "092"%char.

(* ================================================================== *)
(** * encoding/base64: RawURLEncoding *)

Module base64.

Definition encodeURL : list byte :=
  list_ascii_of_string "ABCDEFGHIJKLMNOPQRSTUVWXYZabcdefghijklmnopqrstuvwxyz0123456789-_".

(** [enc.encode[i]] *)
Definition encode (i : N) : byte := nth (N.to_nat i) encodeURL Ascii.zero.

Fixpoint index_of (c : byte) (l : list byte) : option N :=
  match l with
  | [] => None
  | x :: l' => if Ascii.eqb x c then Some 0%N else N.succ <$> index_of c l'
  end.

(** [enc.decodeMap[c]], [None] for the bytes outside the alphabet. *)
Definition decodeMap (c : byte) : option N := index_of c encodeURL.

(** [Encode]: three source bytes become four characters; a final block
    of one or two bytes becomes two or three characters, with no padding.
    [val] is [src[0]<<16 | src[1]<<8 | src[2]] and each character is
    [encode[val>>k & 0x3F]]. *)
Fixpoint Encode (src : list byte) : list byte :=
  match src with
  | a :: b :: c :: rest =>
      let val := (code a * 65536 + code b * 256 + code c)%N in
      encode (val / 262144 mod 64) :: encode (val / 4096 mod 64)
        :: encode (val / 64 mod 64) :: encode (val mod 64) :: Encode rest
  | [a; b] =>
      let val := (code a * 65536 + code b * 256)%N in
      [encode (val / 262144 mod 64); encode (val / 4096 mod 64);
       encode (val / 64 mod 64)]
  | [a] =>
      let val := (code a * 65536)%N in
      [encode (val / 262144 mod 64); encode (val / 4096 mod 64)]
  | [] => []
  end.

Definition EncodeToString (src : list byte) : string :=
  string_of_list_ascii (Encode src).

(** The decoder skips carriage returns and line feeds. *)
Definition is_newline (c : byte) : bool :=
  (code c =? 10)%N || (code c =? 13)%N.

Fixpoint sextets (s : list byte) : option (list N) :=
  match s with
  | [] => Some []
  | c :: s' =>
      if is_newline c then sextets s'
      else match decodeMap c with
           | Some v => cons v <$> sextets s'
           | None => None
           end
  end.

(** Four characters give three bytes; a final quantum of two or three
    characters gives one or two bytes (the unused low bits are not
    checked: the encoding is not strict); one left-over character is
    corrupt input. *)
Fixpoint quanta (l : list N) : option (list byte) :=
  match l with
  | a :: b :: c :: d :: rest =>
      let val := (a * 262144 + b * 4096 + c * 64 + d)%N in
      (fun t => byte_of (val / 65536) :: byte_of (val / 256) :: byte_of val :: t)
        <$> quanta rest
  | [a; b; c] =>
      let val := (a * 262144 + b * 4096 + c * 64)%N in
      Some [byte_of (val / 65536); byte_of (val / 256)]
  | [a; b] =>
      let val := (a * 262144 + b * 4096)%N in
      Some [byte_of (val / 65536)]
  | [_] => None
  | [] => Some []
  end.

(** [DecodeString] returns a slice that is never [nil], also when it is
    empty ([dbuf[:n]] of a buffer that [make] allocated). *)
Definition DecodeString (s : string) : result (list byte) :=
  of_option CorruptInputError (sextets (list_ascii_of_string s) ≫= quanta).

End base64.

(* ================================================================== *)
(** * unicode/utf8 *)

Module utf8.

Definition is_ascii (c : byte) : bool := (code c <? 128)%N.
Definition cont (c : byte) : bool := in_range 128 191 c.

(** The well-formed two, three and four byte sequences (the table of
    [utf8.DecodeRune]: no overlong forms, no surrogates, at most
    U+10FFFF). *)
Definition valid2 (b1 b2 : byte) : bool := in_range 194 223 b1 && cont b2.
Definition valid3 (b1 b2 b3 : byte) : bool :=
  ((code b1 =? 224)%N && in_range 160 191 b2
   || in_range 225 236 b1 && cont b2
   || (code b1 =? 237)%N && in_range 128 159 b2
   || in_range 238 239 b1 && cont b2) && cont b3.
Definition valid4 (b1 b2 b3 b4 : byte) : bool :=
  ((code b1 =? 240)%N && in_range 144 191 b2
   || in_range 241 243 b1 && cont b2
   || (code b1 =? 244)%N && in_range 128 143 b2) && cont b3 && cont b4.

(** What ranging over a string yields: the bytes of a well-formed rune,
    or one byte that starts none ([RuneError] of width 1). *)
Inductive chunk :=
  | Rune (bs : list byte)
  | BadByte (b : byte).

Fixpoint chunks (s : list byte) : list chunk :=
  match s with
  | [] => []
  | b1 :: t1 =>
      if is_ascii b1 then Rune [b1] :: chunks t1 else
      match t1 with
      | b2 :: t2 =>
          if valid2 b1 b2 then Rune [b1; b2] :: chunks t2 else
          match t2 with
          | b3 :: t3 =>
              if valid3 b1 b2 b3 then Rune [b1; b2; b3] :: chunks t3 else
              match t3 with
              | b4 :: t4 =>
                  if valid4 b1 b2 b3 b4 then Rune [b1; b2; b3; b4] :: chunks t4
                  else BadByte b1 :: chunks t1
              | [] => BadByte b1 :: chunks t1
              end
          | [] => BadByte b1 :: chunks t1
          end
      | [] => BadByte b1 :: chunks t1
      end
  end.

(** U+FFFD, the replacement character. *)
Definition replacement : list byte := [byte_of 239; byte_of 191; byte_of 189].

(** [EncodeRune]: surrogates and values above U+10FFFF are written as
    U+FFFD. *)
Definition EncodeRune (r : N) : list byte :=
  if (r <? 128)%N then [byte_of r]
  else if (r <? 2048)%N then [byte_of (192 + r / 64); byte_of (128 + r mod 64)]
  else if (55296 <=? r)%N && (r <=? 57343)%N then replacement
  else if (r <? 65536)%N then
    [byte_of (224 + r / 4096); byte_of (128 + r / 64 mod 64); byte_of (128 + r mod 64)]
  else if (r <=? 1114111)%N then
    [byte_of (240 + r / 262144); byte_of (128 + r / 4096 mod 64);
     byte_of (128 + r / 64 mod 64); byte_of (128 + r mod 64)]
  else replacement.

Definition chunk_valid (c : chunk) : bool :=
  match c with
  | Rune _ => true
  | BadByte _ => false
  end.

(** [utf8.ValidString] *)
Definition ValidString (s : string) : bool :=
  forallb chunk_valid (chunks (list_ascii_of_string s)).

End utf8.

(* ================================================================== *)
(** * strings: TrimSpace and Split *)

Module strings.

(** The encodings of the runes [unicode.IsSpace] accepts: the six ASCII
    ones, U+0085, U+00A0, U+1680, U+2000 to U+200A, U+2028, U+2029,
    U+202F, U+205F and U+3000. *)
Definition space1 (c : byte) : bool :=
  in_range 9 13 c || (code c =? 32)%N.
Definition space2 (b1 b2 : byte) : bool :=
  (code b1 =? 194)%N && ((code b2 =? 133)%N || (code b2 =? 160)%N).
Definition space3 (b1 b2 b3 : byte) : bool :=
  (code b1 =? 225)%N && (code b2 =? 154)%N && (code b3 =? 128)%N
  || (code b1 =? 226)%N && (code b2 =? 128)%N
       && (in_range 128 138 b3 || in_range 168 169 b3 || (code b3 =? 175)%N)
  || (code b1 =? 226)%N && (code b2 =? 129)%N && (code b3 =? 159)%N
  || (code b1 =? 227)%N && (code b2 =? 128)%N && (code b3 =? 128)%N.

(** Leading white space is dropped rune by rune. *)
Fixpoint trim_left (s : list byte) : list byte :=
  match s with
  | b1 :: t1 =>
      if space1 b1 then trim_left t1 else
      match t1 with
      | b2 :: t2 =>
          if space2 b1 b2 then trim_left t2 else
          match t2 with
          | b3 :: t3 => if space3 b1 b2 b3 then trim_left t3 else s
          | [] => s
          end
      | [] => s
      end
  | [] => []
  end.

(** Trailing white space, on the reversed string: the last rune is the
    one whose encoding the string ends with. *)
Fixpoint trim_left_rev (s : list byte) : list byte :=
  match s with
  | b1 :: t1 =>
      if space1 b1 then trim_left_rev t1 else
      match t1 with
      | b2 :: t2 =>
          if space2 b2 b1 then trim_left_rev t2 else
          match t2 with
          | b3 :: t3 => if space3 b3 b2 b1 then trim_left_rev t3 else s
          | [] => s
          end
      | [] => s
      end
  | [] => []
  end.

Definition TrimSpace (s : string) : string :=
  string_of_list_ascii
    (rev (trim_left_rev (rev (trim_left (list_ascii_of_string s))))).

(** [strings.Split(s, sep)] for a separator of one byte: the substrings
    between the separators, one more than there are separators. *)
Fixpoint Split (s : string) (sep : byte) : list string :=
  match s with
  | EmptyString => [EmptyString]
  | String c s' =>
      if Ascii.eqb c sep then EmptyString :: Split s' sep
      else match Split s' sep with
           | seg :: segs => String c seg :: segs
           | [] => [String c EmptyString]
           end
  end.

End strings.

(* ================================================================== *)
(** * Values of type [interface{}] *)

(** The dynamic types a claim value can have: [nil], [bool], [int],
    [float64] (as the decimal [m * 10^e]), [string], [[]string] (the
    type [AddScope] stores the scopes in), [[]interface{}],
    [map[string]interface{}], and [VChan] for a value of a type that
    [json.Marshal] does not support (a channel, a function, a complex
    number). Slices and maps held in a value are not [nil]. *)
Inductive value :=
  | VNil
  | VBool (b : bool)
  | VInt (n : Z)
  | VFloat (m e : Z)
  | VString (s : string)
  | VStrings (l : list string)
  | VSlice (l : list value)
  | VMap (m : gmap string value)
  | VChan.

(** The number of values in a value, itself included: the measure of
    the induction on values. *)
Fixpoint vsize (v : value) : nat :=
  match v with
  | VSlice l => S (foldr (fun x n => vsize x + n) 0 l)
  | VMap m => S (map_fold (fun _ x n => vsize x + n) 0 m)
  | _ => 1
  end.

(* ================================================================== *)
(** * encoding/json *)

Module json.

(** A JSON document. An object keeps its members in the order of the
    text, duplicates included. A number [Number m e] is [m * 10^e]: the
    model keeps the decimal a literal denotes and does not round it to
    the nearest float64. *)
Inductive doc :=
  | Null
  | Bool (b : bool)
  | Number (m e : Z)
  | Str (s : string)
  | Array (l : list doc)
  | Object (l : list (string * doc)).

(** ** Writing *)

Definition hex : list byte := list_ascii_of_string "0123456789abcdef".
Definition hex_digit (n : N) : byte := nth (N.to_nat n) hex Ascii.zero.

(** [\u00XY] *)
Definition escape_u00 (b : byte) : list byte :=
  [bslash; "u"; "0"; "0"; hex_digit (code b / 16); hex_digit (code b mod 16)]%char.

(** The escaping of [Marshal] (HTML escaping on): the quote and the
    backslash get a backslash; backspace, form feed, line feed, carriage
    return and tab their letter; the other bytes below 0x20 and the
    characters less-than, greater-than and ampersand the six character
    form. *)
Definition escape_ascii (b : byte) : list byte :=
  if (b =? dquote)%char || (b =? bslash)%char then [bslash; b]
  else if (code b =? 8)%N then [bslash; "b"%char]
  else if (code b =? 12)%N then [bslash; "f"%char]
  else if (code b =? 10)%N then [bslash; "n"%char]
  else if (code b =? 13)%N then [bslash; "r"%char]
  else if (code b =? 9)%N then [bslash; "t"%char]
  else if (code b <? 32)%N || (b =? "<")%char || (b =? ">")%char || (b =? "&")%char
       then escape_u00 b
  else [b].

(** U+2028 and U+2029 are E2 80 A8 and E2 80 A9. *)
Definition is_line_sep (bs : list byte) : option byte :=
  match bs with
  | [b1; b2; b3] =>
      if (code b1 =? 226)%N && (code b2 =? 128)%N then
        if (code b3 =? 168)%N then Some "8"%char
        else if (code b3 =? 169)%N then Some "9"%char
        else None
      else None
  | _ => None
  end.

Definition quote_chunk (c : utf8.chunk) : list byte :=
  match c with
  | utf8.Rune [b] => escape_ascii b
  | utf8.Rune bs =>
      match is_line_sep bs with
      | Some d => [bslash; "u"; "2"; "0"; "2"; d]%char
      | None => bs
      end
  | utf8.BadByte _ => [bslash; "u"; "f"; "f"; "f"; "d"]%char
  end.

(** The text between the quotes of a string literal. *)
Definition escape (s : list byte) : list byte :=
  concat (quote_chunk <$> utf8.chunks s).

Definition quote (s : string) : list byte :=
  dquote :: escape (list_ascii_of_string s) ++ [dquote].

Fixpoint uint_bytes (d : Decimal.uint) : list byte :=
  match d with
  | Decimal.Nil => []
  | Decimal.D0 d => "0"%char :: uint_bytes d
  | Decimal.D1 d => "1"%char :: uint_bytes d
  | Decimal.D2 d => "2"%char :: uint_bytes d
  | Decimal.D3 d => "3"%char :: uint_bytes d
  | Decimal.D4 d => "4"%char :: uint_bytes d
  | Decimal.D5 d => "5"%char :: uint_bytes d
  | Decimal.D6 d => "6"%char :: uint_bytes d
  | Decimal.D7 d => "7"%char :: uint_bytes d
  | Decimal.D8 d => "8"%char :: uint_bytes d
  | Decimal.D9 d => "9"%char :: uint_bytes d
  end.

Definition int_bytes (z : Z) : list byte :=
  match Z.to_int z with
  | Decimal.Pos d => uint_bytes d
  | Decimal.Neg d => "-"%char :: uint_bytes d
  end.

(** A number is written as its mantissa, followed by [e] and the
    exponent when that is not zero. Go writes the shortest decimal that
    reads back as the same float64, in another layout for fractions; the
    two literals denote the same number. *)
Definition number_bytes (m e : Z) : list byte :=
  int_bytes m ++ (if (e =? 0)%Z then [] else "e"%char :: int_bytes e).

Fixpoint join (sep : byte) (parts : list (list byte)) : list byte :=
  match parts with
  | [] => []
  | [p] => p
  | p :: ps => p ++ sep :: join sep ps
  end.

(** The compact text of a document, as [Marshal] writes it. *)
Fixpoint render (j : doc) : list byte :=
  match j with
  | Null => list_ascii_of_string "null"
  | Bool true => list_ascii_of_string "true"
  | Bool false => list_ascii_of_string "false"
  | Number m e => number_bytes m e
  | Str s => quote s
  | Array l => "["%char :: join ","%char (render <$> l) ++ ["]"%char]
  | Object l =>
      "{"%char
        :: join ","%char ((fun kv => quote kv.1 ++ ":"%char :: render kv.2) <$> l)
        ++ ["}"%char]
  end.

(** ** Reading *)

(** The scanner's white space: space, tab, carriage return, line feed. *)
Definition is_space (c : byte) : bool :=
  (c =? " ")%char || (code c =? 9)%N || (code c =? 13)%N || (code c =? 10)%N.

Fixpoint skip_ws (s : list byte) : list byte :=
  match s with
  | c :: t => if is_space c then skip_ws t else s
  | [] => []
  end.

Definition hex_val (c : byte) : option N :=
  if in_range 48 57 c then Some (code c - 48)%N
  else if in_range 97 102 c then Some (code c - 87)%N
  else if in_range 65 70 c then Some (code c - 55)%N
  else None.

(** [getu4]: the value of four hexadecimal digits. *)
Definition getu4 (h1 h2 h3 h4 : byte) : option N :=
  a ← hex_val h1; b ← hex_val h2; c ← hex_val h3; d ← hex_val h4;
  Some (a * 4096 + b * 256 + c * 16 + d)%N.

Definition simple_escape (e : byte) : option byte :=
  if (e =? dquote)%char || (e =? bslash)%char || (e =? "/")%char then Some e
  else if (e =? "b")%char then Some (byte_of 8)
  else if (e =? "f")%char then Some (byte_of 12)
  else if (e =? "n")%char then Some (byte_of 10)
  else if (e =? "r")%char then Some (byte_of 13)
  else if (e =? "t")%char then Some (byte_of 9)
  else None.

(** The scanner over a string literal, after its opening quote: the raw
    text up to the closing quote and what follows it. A byte below 0x20,
    an unknown escape or a [\u] without four hexadecimal digits is a
    syntax error. *)
Fixpoint scan_string (s : list byte) : option (list byte * list byte) :=
  match s with
  | [] => None
  | c :: t =>
      if (c =? dquote)%char then Some ([], t)
      else if (c =? bslash)%char then
        match t with
        | e :: t1 =>
            if (e =? "u")%char then
              match t1 with
              | h1 :: h2 :: h3 :: h4 :: t2 =>
                  match getu4 h1 h2 h3 h4 with
                  | Some _ =>
                      prod_map (app [c; e; h1; h2; h3; h4]) id <$> scan_string t2
                  | None => None
                  end
              | _ => None
              end
            else
              match simple_escape e with
              | Some _ => prod_map (app [c; e]) id <$> scan_string t1
              | None => None
              end
        | [] => None
        end
      else if (code c <? 32)%N then None
      else prod_map (cons c) id <$> scan_string t
  end.

(** [unquote], first step: the raw text as a sequence of literal byte
    runs and [\u] escapes. A byte that starts no rune becomes U+FFFD. *)
Inductive item :=
  | Lit (bs : list byte)
  | Esc (r : N).

Fixpoint items (l : list utf8.chunk) : option (list item) :=
  match l with
  | [] => Some []
  | utf8.Rune [c] :: t =>
      if (c =? bslash)%char then
        match t with
        | utf8.Rune [e] :: t1 =>
            if (e =? "u")%char then
              match t1 with
              | utf8.Rune [h1] :: utf8.Rune [h2] :: utf8.Rune [h3] :: utf8.Rune [h4] :: t2 =>
                  r ← getu4 h1 h2 h3 h4; cons (Esc r) <$> items t2
              | _ => None
              end
            else b ← simple_escape e; cons (Lit [b]) <$> items t1
        | _ => None
        end
      else if (c =? dquote)%char || (code c <? 32)%N then None
      else cons (Lit [c]) <$> items t
  | utf8.Rune bs :: t => cons (Lit bs) <$> items t
  | utf8.BadByte _ :: t => cons (Lit utf8.replacement) <$> items t
  end.

Definition is_surrogate (r : N) : bool := (55296 <=? r)%N && (r <? 57344)%N.
Definition is_high (r : N) : bool := (55296 <=? r)%N && (r <? 56320)%N.
Definition is_low (r : N) : bool := (56320 <=? r)%N && (r <? 57344)%N.

(** [unquote], second step: a high surrogate followed by a low one is
    one rune; any other surrogate is U+FFFD, and what follows it is read
    on its own. *)
Fixpoint assemble (l : list item) : list byte :=
  match l with
  | [] => []
  | Lit bs :: t => bs ++ assemble t
  | Esc r :: t =>
      if is_surrogate r then
        match t with
        | Esc r2 :: t' =>
            if is_high r && is_low r2
            then utf8.EncodeRune ((r - 55296) * 1024 + (r2 - 56320) + 65536)%N
                   ++ assemble t'
            else utf8.replacement ++ assemble t
        | _ => utf8.replacement ++ assemble t
        end
      else utf8.EncodeRune r ++ assemble t
  end.

Definition unquote (raw : list byte) : option (list byte) :=
  assemble <$> items (utf8.chunks raw).

(** A string literal, after its opening quote. *)
Definition parse_string (s : list byte) : option (string * list byte) :=
  '(raw, rest) ← scan_string s;
  str ← unquote raw;
  Some (string_of_list_ascii str, rest).

Definition digit (c : byte) : option (Decimal.uint -> Decimal.uint) :=
  match code c with
  | 48 => Some Decimal.D0
  | 49 => Some Decimal.D1
  | 50 => Some Decimal.D2
  | 51 => Some Decimal.D3
  | 52 => Some Decimal.D4
  | 53 => Some Decimal.D5
  | 54 => Some Decimal.D6
  | 55 => Some Decimal.D7
  | 56 => Some Decimal.D8
  | 57 => Some Decimal.D9
  | _ => None
  end%N.

(** The longest run of digits at the head. *)
Fixpoint scan_digits (s : list byte) : Decimal.uint * list byte :=
  match s with
  | c :: t =>
      match digit c with
      | Some d => prod_map d id (scan_digits t)
      | None => (Decimal.Nil, s)
      end
  | [] => (Decimal.Nil, [])
  end.

(** The integer part: one digit at least, and no leading zero. *)
Definition int_ok (d : Decimal.uint) : bool :=
  match d with
  | Decimal.Nil => false
  | Decimal.D0 Decimal.Nil => true
  | Decimal.D0 _ => false
  | _ => true
  end.

Definition nonnil (d : Decimal.uint) : bool :=
  match d with
  | Decimal.Nil => false
  | _ => true
  end.

Definition signed (neg : bool) (d : Decimal.uint) : Z :=
  Z.of_int (if neg then Decimal.Neg d else Decimal.Pos d).

Definition scan_sign (s : list byte) : bool * list byte :=
  match s with
  | c :: t => if (c =? "-")%char then (true, t) else (false, s)
  | [] => (false, s)
  end.

(** The fraction: a point and one digit at least, or nothing. *)
Definition scan_frac (s : list byte) : option (Decimal.uint * list byte) :=
  match s with
  | c :: t =>
      if (c =? ".")%char then
        let '(d, r) := scan_digits t in
        if nonnil d then Some (d, r) else None
      else Some (Decimal.Nil, s)
  | [] => Some (Decimal.Nil, s)
  end.

(** The exponent: [e] or [E], a sign or none, one digit at least; or
    nothing. *)
Definition scan_exp (s : list byte) : option (Z * list byte) :=
  match s with
  | c :: t =>
      if (c =? "e")%char || (c =? "E")%char then
        let '(neg, t1) :=
          match t with
          | g :: t' =>
              if (g =? "+")%char then (false, t')
              else if (g =? "-")%char then (true, t')
              else (false, t)
          | [] => (false, t)
          end in
        let '(d, r) := scan_digits t1 in
        if nonnil d then Some (signed neg d, r) else None
      else Some (0%Z, s)
  | [] => Some (0%Z, s)
  end.

(** A number literal: sign, integer part, fraction, exponent. With
    fraction digits [f] the mantissa is the integer formed by all the
    digits and the exponent is lowered by the number of digits of [f]. *)
Definition parse_number (s : list byte) : option (Z * Z * list byte) :=
  let '(neg, s1) := scan_sign s in
  let '(ip, s2) := scan_digits s1 in
  if int_ok ip then
    '(fr, s3) ← scan_frac s2;
    '(ex, s4) ← scan_exp s3;
    Some (signed neg (Decimal.app ip fr),
          (ex - Z.of_nat (Decimal.nb_digits fr))%Z, s4)
  else None.

Fixpoint strip_prefix (p s : list byte) : option (list byte) :=
  match p, s with
  | [], _ => Some s
  | a :: p', b :: s' => if (a =? b)%char then strip_prefix p' s' else None
  | _ :: _, [] => None
  end.

(** The scanner refuses to open more than this many arrays and objects
    inside one another. *)
Definition maxNestingDepth : nat := 10000.

Section Value.
Variable parse_value : nat -> list byte -> option (doc * list byte).

(** One member of an object: a string literal, a colon, a value. *)
Definition parse_member (depth : nat) (s : list byte)
  : option (string * doc * list byte) :=
  match skip_ws s with
  | c :: r =>
      if (c =? dquote)%char then
        '(k, r1) ← parse_string r;
        match skip_ws r1 with
        | c1 :: r2 =>
            if (c1 =? ":")%char then
              '(v, r3) ← parse_value depth r2; Some (k, v, r3)
            else None
        | [] => None
        end
      else None
  | [] => None
  end.
End Value.

(** A value, with at most [fuel] values inside one another on any path
    ([fuel] bounds the recursion; [Unmarshal] passes more than any input
    of that length needs). [depth] counts the arrays and objects that
    are open. *)
Fixpoint parse_value (fuel : nat) (depth : nat) (s : list byte)
  : option (doc * list byte) :=
  match fuel with
  | O => None
  | S fuel =>
      match skip_ws s with
      | [] => None
      | c :: r =>
          if (c =? "n")%char then pair Null <$> strip_prefix (list_ascii_of_string "ull") r
          else if (c =? "t")%char then
            pair (Bool true) <$> strip_prefix (list_ascii_of_string "rue") r
          else if (c =? "f")%char then
            pair (Bool false) <$> strip_prefix (list_ascii_of_string "alse") r
          else if (c =? dquote)%char then prod_map Str id <$> parse_string r
          else if (c =? "[")%char then
            if (maxNestingDepth <? S depth)%nat then None else
            match skip_ws r with
            | c1 :: r1 =>
                if (c1 =? "]")%char then Some (Array [], r1)
                else
                  '(v, r2) ← parse_value fuel (S depth) r;
                  '(l, r3) ← parse_array_tail fuel (S depth) r2;
                  Some (Array (v :: l), r3)
            | [] => None
            end
          else if (c =? "{")%char then
            if (maxNestingDepth <? S depth)%nat then None else
            match skip_ws r with
            | c1 :: r1 =>
                if (c1 =? "}")%char then Some (Object [], r1)
                else
                  '(k, v, r2) ← parse_member (parse_value fuel) (S depth) r;
                  '(l, r3) ← parse_object_tail fuel (S depth) r2;
                  Some (Object ((k, v) :: l), r3)
            | [] => None
            end
          else if (c =? "-")%char || in_range 48 57 c then
            '(m, e, r1) ← parse_number (c :: r); Some (Number m e, r1)
          else None
      end
  end
with parse_array_tail (fuel : nat) (depth : nat) (s : list byte)
  : option (list doc * list byte) :=
  match fuel with
  | O => None
  | S fuel =>
      match skip_ws s with
      | c :: r =>
          if (c =? "]")%char then Some ([], r)
          else if (c =? ",")%char then
            '(v, r1) ← parse_value fuel depth r;
            '(l, r2) ← parse_array_tail fuel depth r1;
            Some (v :: l, r2)
          else None
      | [] => None
      end
  end
with parse_object_tail (fuel : nat) (depth : nat) (s : list byte)
  : option (list (string * doc) * list byte) :=
  match fuel with
  | O => None
  | S fuel =>
      match skip_ws s with
      | c :: r =>
          if (c =? "}")%char then Some ([], r)
          else if (c =? ",")%char then
            '(k, v, r1) ← parse_member (parse_value fuel) depth r;
            '(l, r2) ← parse_object_tail fuel depth r1;
            Some ((k, v) :: l, r2)
          else None
      | [] => None
      end
  end.

(** The whole input is one value, with white space around it at most. *)
Definition parse (data : list byte) : result doc :=
  match parse_value (S (length data)) 0 data with
  | Some (j, rest) =>
      match skip_ws rest with
      | [] => Ok j
      | _ :: _ => Err SyntaxError
      end
  | None => Err SyntaxError
  end.

(** ** Go values and documents *)

Fixpoint insert_by_key {A} (kv : string * A) (l : list (string * A))
  : list (string * A) :=
  match l with
  | [] => [kv]
  | kv' :: l' =>
      if String.leb kv.1 kv'.1 then kv :: l else kv' :: insert_by_key kv l'
  end.

(** The members of a map are written in the order of their keys. *)
Definition sort_by_key {A} (l : list (string * A)) : list (string * A) :=
  foldr insert_by_key [] l.

(** The first error of a list of results, or all the values. *)
Fixpoint sequence {A} (l : list (string * result A)) : result (list (string * A)) :=
  match l with
  | [] => Ok []
  | (k, r) :: l' => a ← r; t ← sequence l'; Ok ((k, a) :: t)
  end.

Fixpoint sequence_list {A} (l : list (result A)) : result (list A) :=
  match l with
  | [] => Ok []
  | r :: l' => a ← r; t ← sequence_list l'; Ok (a :: t)
  end.

(** The document [Marshal] writes for a value. *)
Fixpoint of_value (v : value) : result doc :=
  match v with
  | VNil => Ok Null
  | VBool b => Ok (Bool b)
  | VInt n => Ok (Number n 0)
  | VFloat m e => Ok (Number m e)
  | VString s => Ok (Str s)
  | VStrings l => Ok (Array (Str <$> l))
  | VSlice l => Array <$> sequence_list (of_value <$> l)
  | VMap m => Object <$> sequence (sort_by_key (map_to_list (of_value <$> m)))
  | VChan => Err UnsupportedTypeError
  end.

Definition of_map (m : gmap string value) : result doc :=
  Object <$> sequence (sort_by_key (map_to_list (of_value <$> m))).

(** The value [Unmarshal] stores in an [interface{}]: a number is a
    [float64], an array a [[]interface{}], an object a
    [map[string]interface{}] in which a later member replaces an earlier
    one of the same key. *)
Fixpoint to_value (j : doc) : value :=
  match j with
  | Null => VNil
  | Bool b => VBool b
  | Number m e => VFloat m e
  | Str s => VString s
  | Array l => VSlice (to_value <$> l)
  | Object l => VMap (list_to_map (reverse (prod_map id to_value <$> l)))
  end.

(** What the reflection of [Marshal] and [Unmarshal] does at one type:
    [to_doc] writes a value, [from_doc j x] stores [j] into the variable
    that holds [x]. *)
Class Codec (A : Type) := {
  to_doc : A -> result doc;
  from_doc : doc -> A -> result A
}.

Definition Marshal {A} `{Codec A} (x : A) : result (list byte) :=
  render <$> to_doc x.

Definition Unmarshal {A} `{Codec A} (data : list byte) (x : A) : result A :=
  j ← parse data; from_doc j x.

(** A [map[string]interface{}]: an object adds its members to the map,
    [null] leaves a map with no entry (Go leaves the [nil] map, which
    reads as the empty one), any other document is a type error. *)
#[global] Instance map_codec : Codec (gmap string value) := {
  to_doc := of_map;
  from_doc j m :=
    match j with
    | Object l => Ok (foldl (fun acc kv => <[kv.1 := to_value kv.2]> acc) m l)
    | Null => Ok ∅
    | _ => Err UnmarshalTypeError
    end
}.

End json.

(* ================================================================== *)
(** * math/big: the bytes of an integer *)

Module big.

Fixpoint bytes_go (fuel : nat) (n : N) (acc : list byte) : list byte :=
  match fuel with
  | O => acc
  | S fuel =>
      if (n =? 0)%N then acc
      else bytes_go fuel (n / 256) (byte_of (n mod 256) :: acc)
  end.

(** [x.Bytes()]: the absolute value of [x] as a big-endian byte slice,
    with no leading zero byte. *)
Definition Bytes (x : Z) : list byte :=
  bytes_go (N.to_nat (N.size (Z.abs_N x))) (Z.abs_N x) [].

(** [z.SetBytes(buf)]: [buf] read as a big-endian unsigned integer. *)
Definition SetBytes (buf : list byte) : Z :=
  Z.of_N (foldl (fun acc c => acc * 256 + code c)%N 0%N buf).

End big.

(** [make([]byte, n)]: [n] zero bytes; a negative length panics. *)
Definition make (n : Z) : result (list byte) :=
  if (n <? 0)%Z then Panic else Ok (replicate (Z.to_nat n) Ascii.zero).

(* ================================================================== *)
(** * Algorithm.go *)

Definition Algorithm := string.

(** The supported signature types, [None] and [ES256]. *)
Definition Algorithm_None : Algorithm := "None".
Definition ES256 : Algorithm := "ES256".

(* ================================================================== *)
(** * Header.go *)

(** [Type] is a keyword here: the field is [Type_]. *)
Record Header := mkHeader {
  Header_Algorithm : Algorithm;
  Type_ : string
}.

Definition NewHeader : Header :=
  {| Header_Algorithm := Algorithm_None; Type_ := "JWT" |}.

Definition lower (c : byte) : byte :=
  if in_range 65 90 c then byte_of (code c + 32) else c.

Fixpoint to_lower (s : string) : string :=
  match s with
  | EmptyString => EmptyString
  | String c s' => String (lower c) (to_lower s')
  end.

(** One member of a header object. A key names a field when it equals
    its tag, upper and lower case letters taken as equal. A string is
    stored, [null] leaves the field as it is, another document is a type
    error, which does not stop the decoding; a key that names no field
    is skipped. *)
Definition header_member (acc : Header * bool) (kv : string * json.doc)
  : Header * bool :=
  let '(h, bad) := acc in
  if String.eqb (to_lower kv.1) "alg" then
    match kv.2 with
    | json.Str s => ({| Header_Algorithm := s; Type_ := Type_ h |}, bad)
    | json.Null => (h, bad)
    | _ => (h, true)
    end
  else if String.eqb (to_lower kv.1) "typ" then
    match kv.2 with
    | json.Str s => ({| Header_Algorithm := Header_Algorithm h; Type_ := s |}, bad)
    | json.Null => (h, bad)
    | _ => (h, true)
    end
  else (h, bad).

(** The struct tags [json:"alg"] and [json:"typ"]. *)
#[global] Instance Header_codec : json.Codec Header := {
  json.to_doc h :=
    Ok (json.Object [("alg", json.Str (Header_Algorithm h)); ("typ", json.Str (Type_ h))]);
  json.from_doc j h :=
    match j with
    | json.Object l =>
        let '(h', bad) := foldl header_member (h, false) l in
        if bad then Err UnmarshalTypeError else Ok h'
    | json.Null => Ok h
    | _ => Err UnmarshalTypeError
    end
}.

(* ================================================================== *)
(** * Signer.go, Verifier.go *)

(** The methods that any JWT signer must implement. A signer returns a
    slice, which may be [nil], or an error. *)
Record Signer := {
  Signer_Algorithm : Algorithm;
  Signer_Sign : string -> result (option (list byte))
}.

(** The methods that any JWT signature verifier must implement. *)
Record Verifier := {
  Verifier_Verify : string -> option (list byte) -> bool
}.

(* ================================================================== *)
(** * Token.go *)

(** Modelled from the spec: the declaration of the type [Body] is not
    among the sources; it is "a mapping from string claim name to a
    JSON-compatible value", used in [Token.go] as a
    [map[string]interface{}] ([Body{}], [t.Body[name] = value]). The map
    of a token is allocated, as [NewToken] and [Parse] leave it. *)
Abbreviation Body := (gmap string value).

(** A (potentially signed) JWT token. *)
Record Token := mkToken {
  Token_Header : Header;
  Token_Body : Body;
  Signature : option (list byte)
}.

(** [NewToken] creates a new, empty, unsigned JWT. *)
Definition NewToken : Token :=
  {| Token_Header := NewHeader; Token_Body := ∅; Signature := None |}.

(** [IsSigned] returns true when the token has a signature present. *)
Definition IsSigned (t : Token) : bool :=
  match Signature t with
  | Some _ => true
  | None => false
  end.

Definition set_Body (t : Token) (b : Body) : Token :=
  {| Token_Header := Token_Header t; Token_Body := b; Signature := Signature t |}.

(** [t.Body["scope"].([]string)]: the slice and whether the entry holds
    one. *)
Definition scopes_of (b : Body) : list string * bool :=
  match b !! "scope" with
  | Some (VStrings l) => (l, true)
  | _ => ([], false)
  end.

(** [AddScope] adds a scope to the token; a no-op if the token is
    signed. *)
Definition AddScope (t : Token) (scope : string) : Token :=
  if IsSigned t then t
  else
    let scope := strings.TrimSpace scope in
    let scopes := (scopes_of (Token_Body t)).1 in
    set_Body t (<["scope" := VStrings (scopes ++ [scope])]> (Token_Body t)).

(** The index of the first entry equal to [scope]. *)
Fixpoint find_scope (scope : string) (scopes : list string) : option nat :=
  match scopes with
  | [] => None
  | v :: rest => if String.eqb v scope then Some 0 else S <$> find_scope scope rest
  end.

(** [scopes[i], scopes[len(scopes)-1] = scopes[len(scopes)-1], scopes[i]]
    followed by [scopes[:len(scopes)-1]]. *)
Definition swap_remove (i : nat) (scopes : list string) : list string :=
  match scopes !! i, scopes !! (length scopes - 1) with
  | Some x, Some y =>
      take (length scopes - 1) (<[length scopes - 1 := x]> (<[i := y]> scopes))
  | _, _ => scopes
  end.

(** [RemoveScope] removes a scope from the token; a no-op if the token
    is signed. *)
Definition RemoveScope (t : Token) (scope : string) : Token :=
  if IsSigned t then t
  else
    let scope := strings.TrimSpace scope in
    let '(scopes, ok) := scopes_of (Token_Body t) in
    if negb ok then t
    else
      match find_scope scope scopes with
      | Some i => set_Body t (<["scope" := VStrings (swap_remove i scopes)]> (Token_Body t))
      | None => t
      end.

(** [HasScope] returns true if the token has the provided scope. *)
Definition HasScope (t : Token) (scope : string) : bool :=
  let '(scopes, ok) := scopes_of (Token_Body t) in
  if negb ok then false
  else existsb (fun v => String.eqb v scope) scopes.

(** [AddClaim] adds a claim to the token. *)
Definition AddClaim (t : Token) (name : string) (v : value) : Token :=
  if String.eqb name "scope" then t
  else set_Body t (<[name := v]> (Token_Body t)).

(** [RemoveClaim] removes a claim from the token. *)
Definition RemoveClaim (t : Token) (name : string) : Token :=
  if String.eqb name "scope" then t
  else set_Body t (delete name (Token_Body t)).

(** [GetClaim] gets the value of a claim, if present. *)
Definition GetClaim (t : Token) (name : string) : value * bool :=
  if String.eqb name "scope" then (VNil, false)
  else
    match Token_Body t !! name with
    | Some v => (v, true)
    | None => (VNil, false)
    end.

(** [GetStringClaim] gets the string value of a claim, if present. *)
Definition GetStringClaim (t : Token) (name : string) : string * bool :=
  let '(v, ok) := GetClaim t name in
  if negb ok then ("", false)
  else
    match v with
    | VString str => (str, true)
    | _ => ("", false)
    end.

(** [fmt.Sprintf("%v.%v", a, b)] *)
Definition dot_join (a b : string) : string := a +:+ "." +:+ b.

Definition serializeHeaderAndBody (header : Header) (body : Body) : result string :=
  rawHeader ← json.Marshal header;
  rawBody ← json.Marshal body;
  let b64Header := base64.EncodeToString rawHeader in
  let b64Body := base64.EncodeToString rawBody in
  Ok (dot_join b64Header b64Body).

(** [Sign] signs the token with the provided [Signer]: the token after
    the call and the error it returns ([Ok tt] for [nil]). *)
Definition Sign (t : Token) (signer : Signer) : Token * result unit :=
  if IsSigned t then (t, Err ErrImmutable)
  else
    let newHeader :=
      {| Header_Algorithm := Signer_Algorithm signer;
         Type_ := Type_ (Token_Header t) |} in
    match serializeHeaderAndBody newHeader (Token_Body t) with
    | Ok b64HeaderAndBody =>
        match Signer_Sign signer b64HeaderAndBody with
        | Ok signature =>
            ({| Token_Header := newHeader; Token_Body := Token_Body t;
                Signature := signature |}, Ok tt)
        | Err e => (t, Err e)
        | Panic => (t, Panic)
        end
    | Err e => (t, Err e)
    | Panic => (t, Panic)
    end.

(** One call of the verifier's method, with its arguments. *)
Inductive call :=
  | CallVerify (b64HeaderAndBody : string) (signature : option (list byte)).

(** [Verify] with the calls it makes on the verifier. *)
Definition Verify_calls (t : Token) (verifier : Verifier) : list call * bool :=
  if negb (IsSigned t) then ([], false)
  else
    match serializeHeaderAndBody (Token_Header t) (Token_Body t) with
    | Ok b64HeaderAndBody =>
        ([CallVerify b64HeaderAndBody (Signature t)],
         Verifier_Verify verifier b64HeaderAndBody (Signature t))
    | _ => ([], false)
    end.

(** [Verify] verifies the signature on the token, if present, using the
    provided verifier. *)
Definition Verify (t : Token) (verifier : Verifier) : bool :=
  (Verify_calls t verifier).2.

(** [Serialize] serializes the token to its string form. *)
Definition Serialize (t : Token) : result string :=
  b64HeaderAndBody ← serializeHeaderAndBody (Token_Header t) (Token_Body t);
  let b64Signature := base64.EncodeToString (data (Signature t)) in
  Ok (dot_join b64HeaderAndBody b64Signature).

(** [Parse] parses the provided string token. *)
Definition Parse (tokenString : string) : result Token :=
  match strings.Split tokenString "."%char with
  | [s0; s1; s2] =>
      rawHeader ← base64.DecodeString s0;
      rawBody ← base64.DecodeString s1;
      rawSignature ← base64.DecodeString s2;
      header ← json.Unmarshal rawHeader {| Header_Algorithm := ""; Type_ := "" |};
      body ← json.Unmarshal rawBody (∅ : Body);
      Ok {| Token_Header := header; Token_Body := body;
            Signature := Some rawSignature |}
  | _ => Err ErrInvalidTokenStructure
  end.

(* ================================================================== *)
(** * ES256Signer.go, ES256Verifier.go *)

(** The primitives of [crypto/sha256], [crypto/ecdsa] and [crypto/rand]
    the ES256 pair calls. [Rand] is what one signature draws from
    [rand.Reader]. *)
Class Crypto := {
  PrivateKey : Type;
  PublicKey : Type;
  Rand : Type;
  sha256_Sum256 : list byte -> list byte;
  ecdsa_Sign : Rand -> PrivateKey -> list byte -> result (Z * Z);
  ecdsa_Verify : PublicKey -> list byte -> Z -> Z -> bool
}.

Section ES256.
Context `{Crypto}.

(** [ES256Signer] signs JWT tokens using the ES256 algorithm. *)
Record ES256Signer := {
  privateKey : PrivateKey
}.

Definition NewES256Signer (privateKey : PrivateKey) : ES256Signer :=
  {| privateKey := privateKey |}.

(** [Sign] signs the provided serialized header and body; [rnd] is what
    this call reads from [rand.Reader]. *)
Definition ES256Signer_Sign (s : ES256Signer) (rnd : Rand) (b64HeaderAndBody : string)
  : result (option (list byte)) :=
  let hash := sha256_Sum256 (list_ascii_of_string b64HeaderAndBody) in
  '(rbi, sbi) ← ecdsa_Sign rnd (privateKey s) hash;
  let rr := big.Bytes rbi in
  let sr := big.Bytes sbi in
  zr ← make (32 - Z.of_nat (length rr));
  let rrp := zr ++ rr in
  zs ← make (32 - Z.of_nat (length sr));
  let srp := zs ++ sr in
  Ok (Some (rrp ++ srp)).

(** [ES256Signer] as a [Signer]. *)
Definition ES256Signer_Signer (s : ES256Signer) (rnd : Rand) : Signer :=
  {| Signer_Algorithm := ES256; Signer_Sign := ES256Signer_Sign s rnd |}.

(** [ES256Verifier] verifies JWT tokens using the ES256 algorithm. *)
Record ES256Verifier := {
  publicKey : PublicKey
}.

Definition NewES256Verifier (publicKey : PublicKey) : ES256Verifier :=
  {| publicKey := publicKey |}.

(** [Verify] verifies the provided serialized header and body against
    the provided signature. *)
Definition ES256Verifier_Verify (v : ES256Verifier) (b64HeaderAndBody : string)
    (signature : option (list byte)) : bool :=
  let hash := sha256_Sum256 (list_ascii_of_string b64HeaderAndBody) in
  if negb (length (data signature) =? 64)%nat then false
  else
    let rrp := take 32 (data signature) in
    let srp := drop 32 (data signature) in
    let rbi := big.SetBytes rrp in
    let sbi := big.SetBytes srp in
    ecdsa_Verify (publicKey v) hash rbi sbi.

(** [ES256Verifier] as a [Verifier]. *)
Definition ES256Verifier_Verifier (v : ES256Verifier) : Verifier :=
  {| Verifier_Verify := ES256Verifier_Verify v |}.

End ES256.

(* ================================================================== *)
(** * Values and documents across a round trip *)

(** What a value is after [json.Marshal] and [json.Unmarshal] into an
    [interface{}]: an [int] is a [float64], a [[]string] a
    [[]interface{}]. *)
Fixpoint generic (v : value) : value :=
  match v with
  | VInt n => VFloat n 0
  | VStrings l => VSlice (VString <$> l)
  | VSlice l => VSlice (generic <$> l)
  | VMap m => VMap (generic <$> m)
  | _ => v
  end.

(** All the strings of a value, keys included, are well-formed UTF-8. *)
Fixpoint valid_value (v : value) : bool :=
  match v with
  | VString s => utf8.ValidString s
  | VStrings l => forallb utf8.ValidString l
  | VSlice l => forallb valid_value l
  | VMap m => map_fold (fun k x b => utf8.ValidString k && valid_value x && b) true m
  | _ => true
  end.

(** The number of slices and maps inside one another. *)
Fixpoint vdepth (v : value) : nat :=
  match v with
  | VStrings _ => 1
  | VSlice l => S (foldr (fun x n => Nat.max (vdepth x) n) 0 l)
  | VMap m => S (map_fold (fun _ x n => Nat.max (vdepth x) n) 0 m)
  | _ => 0
  end.


(** All the strings of a document, keys included, are well-formed UTF-8. *)
Fixpoint valid_doc (j : json.doc) : bool :=
  match j with
  | json.Str s => utf8.ValidString s
  | json.Array l => forallb valid_doc l
  | json.Object l => forallb (fun kv => utf8.ValidString kv.1 && valid_doc kv.2) l
  | _ => true
  end.

(** The number of arrays and objects inside one another. *)
Fixpoint jdepth (j : json.doc) : nat :=
  match j with
  | json.Array l => S (foldr (fun x n => Nat.max (jdepth x) n) 0 l)
  | json.Object l => S (foldr (fun kv n => Nat.max (jdepth kv.2) n) 0 l)
  | _ => 0
  end.

(** The strings of a header are well-formed UTF-8. *)
Definition valid_header (h : Header) : bool :=
  utf8.ValidString (Header_Algorithm h) && utf8.ValidString (Type_ h).


Definition count_dots (s : string) : nat :=
  length (filter (fun c => c = "."%char) (list_ascii_of_string s)).

(** How many times a scope is listed. *)
Definition scope_count (t : Token) (q : string) : nat :=
  length (filter (fun v => v = q) (scopes_of (Token_Body t)).1).

(** The characters of the URL-safe alphabet: letters, digits, the
    hyphen and the underscore. *)
Definition url_safe (c : byte) : bool :=
  in_range 65 90 c || in_range 97 122 c || in_range 48 57 c
  || (c =? "-")%char || (c =? "_")%char.


(** The fixed-width encoding of the specification, in its words: an
    unsigned integer as [n] bytes, big-endian, the last byte being the
    least significant one, with zero bytes on the left when the integer
    is shorter. *)
Fixpoint big_endian_N (n : nat) (x : N) : list byte :=
  match n with
  | O => []
  | S n' => big_endian_N n' (x / 256) ++ [byte_of x]
  end.

Definition big_endian (n : nat) (x : Z) : list byte := big_endian_N n (Z.to_N x).

(* ================================================================== *)
(** * Test doubles *)

(** A signer whose [Sign] fails with a given error, and one that returns
    a fixed signature. *)
Definition failing_signer (e : error) : Signer :=
  {| Signer_Algorithm := ES256; Signer_Sign := fun _ => Err e |}.

Definition constant_signer (sig : list byte) : Signer :=
  {| Signer_Algorithm := ES256; Signer_Sign := fun _ => Ok (Some sig) |}.

(** Verifiers that accept everything and nothing. *)
Definition accepting_verifier : Verifier :=
  {| Verifier_Verify := fun _ _ => true |}.

Definition rejecting_verifier : Verifier :=
  {| Verifier_Verify := fun _ _ => false |}.

(** The token of [TestTokenScopesImmutableWhenSigned], with a signature
    of four bytes. *)
Definition signed_example : Token :=
  {| Token_Header := {| Header_Algorithm := ES256; Type_ := "JWT" |};
     Token_Body := {["scope" := VStrings ["user:create"]]};
     Signature := Some [byte_of 1; byte_of 2; byte_of 3; byte_of 4] |}.

(** A token whose body [json.Marshal] refuses. *)
Definition unserializable_example : Token :=
  {| Token_Header := NewHeader;
     Token_Body := {["ch" := VChan]};
     Signature := Some [] |}.

(** An unsigned token with three scopes. *)
Definition three_scopes : Token :=
  AddScope (AddScope (AddScope NewToken "user:create") "user:delete") "user:read".

(** A stand-in for the cryptographic primitives, with the shape of the
    real ones: a key pair is an integer and itself, the digest is a
    checksum of one byte, and a signature of [h] under the key [d] is
    [(r, s)] with [r] drawn from the random source and [s] bound to [h],
    [r] and [d]; both lie between 1 and 2^255. *)
Definition toy_digest (m : list byte) : list byte :=
  [byte_of (foldr (fun c n => code c + n)%N 0%N m)].

Definition toy_tag (d : Z) (h : list byte) (r : Z) : Z :=
  (1 + (big.SetBytes h + r * d) mod 2 ^ 255)%Z.

Definition toy_crypto : Crypto :=
  {| PrivateKey := Z;
     PublicKey := Z;
     Rand := Z;
     sha256_Sum256 := toy_digest;
     ecdsa_Sign := fun rnd d h =>
       let r := (1 + rnd mod 2 ^ 255)%Z in Ok (r, toy_tag d h r);
     ecdsa_Verify := fun q h r s => (s =? toy_tag q h r)%Z |}.

(** The token of [TestTokenE2E] before it is signed, with an integer
    claim besides. *)
Definition e2e_example : Token :=
  AddClaim
    (AddScope (AddScope (AddClaim NewToken "iss" (VString "Test Issuer")) "user:create")
       "user:delete")
    "exp" (VInt 86400).

(** The token of [TestTokenSerializeAndParse]. *)
Definition wire_example : Token :=
  {| Token_Header := {| Header_Algorithm := ES256; Type_ := "JWT" |};
     Token_Body := <["Key1" := VString "Value1"]> {["Key2" := VString "Value2"]};
     Signature := Some [byte_of 1; byte_of 2; byte_of 3; byte_of 4] |}.

(** A signer that returns no signature and no error. *)
Definition silent_signer : Signer :=
  {| Signer_Algorithm := ES256; Signer_Sign := fun _ => Ok None |}.

(** Primitives whose [ecdsa.Sign] gives one fixed outcome. *)
Definition fixed_crypto (out : result (Z * Z)) : Crypto :=
  {| PrivateKey := unit;
     PublicKey := unit;
     Rand := unit;
     sha256_Sum256 := toy_digest;
     ecdsa_Sign := fun _ _ _ => out;
     ecdsa_Verify := fun _ _ _ _ => false |}.

(* ================================================================== *)
(** * Properties *)

(** ** Induction on values *)

Lemma vsize_slice_elem (l : list value) (v : value) :
  v ∈ l -> vsize v < vsize (VSlice l).
Proof. cbn. induction 1 as [v l|v w l _ IH]; cbn; lia. Qed.

Lemma vsize_map_elem (m : gmap string value) (k : string) (v : value) :
  m !! k = Some v -> vsize v < vsize (VMap m).
Proof.
  intros Hk. cbn.
  rewrite <- (insert_delete_id m k v Hk).
  rewrite map_fold_insert_L.
  - lia.
  - intros. lia.
  - apply lookup_delete_eq.
Qed.

Lemma value_ind' (P : value -> Prop) :
  P VNil -> (forall b, P (VBool b)) -> (forall n, P (VInt n)) ->
  (forall m e, P (VFloat m e)) -> (forall s, P (VString s)) ->
  (forall l, P (VStrings l)) ->
  (forall l, Forall P l -> P (VSlice l)) ->
  (forall m, map_Forall (fun _ => P) m -> P (VMap m)) ->
  P VChan ->
  forall v, P v.
Proof.
  intros HNil HBool HInt HFloat HString HStrings HSlice HMap HChan v.
  remember (vsize v) as n eqn:Hn. revert v Hn.
  induction n as [n IH] using lt_wf_ind. intros v ->.
  destruct v; auto.
  - apply HSlice. apply Forall_forall. intros x Hx.
    apply (IH (vsize x)); [|reflexivity]. now apply vsize_slice_elem.
  - apply HMap. intros k x Hx.
    apply (IH (vsize x)); [|reflexivity]. now apply (vsize_map_elem _ k).
Qed.

(** ** Sign *)

Lemma Sign_signed (t : Token) (signer : Signer) :
  IsSigned t = true -> Sign t signer = (t, Err ErrImmutable).
Proof. intros Hs. unfold Sign. now rewrite Hs. Qed.

Lemma Sign_signer_error (t : Token) (signer : Signer) (input : string) (e : error) :
  IsSigned t = false ->
  serializeHeaderAndBody
    {| Header_Algorithm := Signer_Algorithm signer; Type_ := Type_ (Token_Header t) |}
    (Token_Body t) = Ok input ->
  Signer_Sign signer input = Err e ->
  Sign t signer = (t, Err e).
Proof. intros Hs Hser Herr. unfold Sign. now rewrite Hs, Hser, Herr. Qed.

(** C3. Signing an already signed token returns [ErrImmutable] and
    leaves the token as it was (header, body and signature); when the
    token is unsigned and the signer's [Sign] fails on the canonical
    input, [Sign] returns that very error and leaves the token as it
    was. *)
Theorem C3_sign_errors_leave_token (t : Token) (signer : Signer) :
  (IsSigned t = true -> Sign t signer = (t, Err ErrImmutable))
  /\ (forall input e,
        IsSigned t = false ->
        serializeHeaderAndBody
          {| Header_Algorithm := Signer_Algorithm signer;
             Type_ := Type_ (Token_Header t) |}
          (Token_Body t) = Ok input ->
        Signer_Sign signer input = Err e ->
        Sign t signer = (t, Err e)).
Proof.
  split.
  - apply Sign_signed.
  - intros input e. apply Sign_signer_error.
Qed.

(** Both cases of C3 occur: a signed token, and a fresh token with a
    signer that fails. *)
Lemma C3_witness :
  Sign signed_example (constant_signer []) = (signed_example, Err ErrImmutable)
  /\ Sign NewToken (failing_signer (SignerError 7)) = (NewToken, Err (SignerError 7)).
Proof.
  split.
  - apply (proj1 (C3_sign_errors_leave_token signed_example (constant_signer []))).
    reflexivity.
  - apply (proj2 (C3_sign_errors_leave_token NewToken (failing_signer (SignerError 7)))
             "eyJhbGciOiJFUzI1NiIsInR5cCI6IkpXVCJ9.e30");
      [reflexivity | vm_compute; reflexivity | reflexivity].
Defined.

(** ** Claims and scopes *)

Lemma AddScope_signed (t : Token) (scope : string) :
  IsSigned t = true -> AddScope t scope = t.
Proof. intros Hs. unfold AddScope. now rewrite Hs. Qed.

Lemma RemoveScope_signed (t : Token) (scope : string) :
  IsSigned t = true -> RemoveScope t scope = t.
Proof. intros Hs. unfold RemoveScope. now rewrite Hs. Qed.




(** C6. [AddClaim "scope" v] and [RemoveClaim "scope"] leave the token
    as it is, so [HasScope] answers as before, and [GetClaim "scope"]
    reports no claim whatever the body holds. *)
Theorem C6_scope_isolation (t : Token) (v : value) (scope : string) :
  HasScope (AddClaim t "scope" v) scope = HasScope t scope
  /\ HasScope (RemoveClaim t "scope") scope = HasScope t scope
  /\ AddClaim t "scope" v = t
  /\ RemoveClaim t "scope" = t
  /\ GetClaim t "scope" = (VNil, false).
Proof. repeat split. Qed.

Lemma find_scope_Some (scope : string) (l : list string) (i : nat) :
  find_scope scope l = Some i ->
  l !! i = Some scope /\ forall j, j < i -> l !! j <> Some scope.
Proof.
  revert i. induction l as [|v l IH]; intros i; cbn; [discriminate|].
  destruct (String.eqb v scope) eqn:E.
  - intros [= <-]. apply String.eqb_eq in E as ->. split; [reflexivity | lia].
  - destruct (find_scope scope l) as [k|]; [|discriminate].
    intros [= <-]. destruct (IH k eq_refl) as [H1 H2]. split; [exact H1|].
    intros [|j] Hj; cbn.
    + intros [= ->]. now rewrite String.eqb_refl in E.
    + apply H2. lia.
Qed.

Lemma find_scope_None (scope : string) (l : list string) :
  find_scope scope l = None <-> scope ∉ l.
Proof.
  induction l as [|v l IH]; cbn.
  - split; [intros _; apply not_elem_of_nil | reflexivity].
  - destruct (String.eqb v scope) eqn:E.
    + apply String.eqb_eq in E as ->. split; [discriminate|].
      intros Hn. exfalso. apply Hn. left.
    + apply String.eqb_neq in E. rewrite not_elem_of_cons.
      destruct (find_scope scope l); cbn.
      * split; [discriminate|]. intros [_ Hn]. now apply IH in Hn.
      * split; [|reflexivity]. intros _. split; [congruence | now apply IH].
Qed.

Lemma existsb_eqb (q : string) (l : list string) :
  existsb (fun v => String.eqb v q) l = bool_decide (q ∈ l).
Proof.
  induction l as [|v l IH]; cbn; [reflexivity|].
  rewrite IH. destruct (String.eqb v q) eqn:E.
  - apply String.eqb_eq in E as ->. cbn. symmetry. apply bool_decide_eq_true. left.
  - apply String.eqb_neq in E. cbn. apply bool_decide_ext. rewrite elem_of_cons.
    split; [tauto|]. intros [->|]; [congruence | assumption].
Qed.

(** The list after the swap and the cut, by the position of the entry. *)
Lemma swap_remove_app (l1 l2 : list string) (x : string) :
  swap_remove (length l1) (l1 ++ x :: l2)
  = match reverse l2 with
    | [] => l1
    | y :: r => l1 ++ y :: reverse r
    end.
Proof.
  unfold swap_remove.
  rewrite list_lookup_middle by reflexivity.
  destruct (reverse l2) as [|y r] eqn:Er.
  - apply (f_equal reverse) in Er. rewrite reverse_involutive in Er. subst l2.
    cbn. rewrite length_app. cbn.
    replace (length l1 + 1 - 1) with (length l1) by lia.
    rewrite list_lookup_middle by reflexivity.
    rewrite !insert_app_r_alt by lia. rewrite Nat.sub_diag. cbn.
    rewrite take_app_length. reflexivity.
  - apply (f_equal reverse) in Er. rewrite reverse_involutive, reverse_cons in Er.
    subst l2. set (m := reverse r).
    assert (Hlen : length (l1 ++ x :: m ++ [y]) - 1 = length (l1 ++ x :: m)).
    { rewrite !length_app. cbn. rewrite length_app. cbn. lia. }
    rewrite Hlen.
    replace (l1 ++ x :: m ++ [y]) with ((l1 ++ x :: m) ++ [y])
      by (rewrite <- app_assoc; reflexivity).
    rewrite list_lookup_middle by reflexivity.
    rewrite <- (app_assoc l1). cbn.
    rewrite (insert_app_r_alt l1) by lia. rewrite Nat.sub_diag. cbn.
    replace (l1 ++ y :: m ++ [y]) with ((l1 ++ y :: m) ++ [y])
      by (rewrite <- app_assoc; reflexivity).
    assert (Hlen' : length (l1 ++ x :: m) = length (l1 ++ y :: m)).
    { rewrite !length_app. reflexivity. }
    rewrite Hlen'.
    rewrite insert_app_r_alt by lia. rewrite Nat.sub_diag. cbn.
    rewrite take_app_length. reflexivity.
Qed.

Lemma swap_remove_Permutation (i : nat) (l : list string) :
  i < length l -> swap_remove i l ≡ₚ delete i l.
Proof.
  intros Hi.
  destruct (lookup_lt_is_Some_2 l i Hi) as [x Hx].
  apply list_elem_of_split_length in Hx as (l1 & l2 & -> & ->).
  rewrite swap_remove_app, delete_middle.
  destruct (reverse l2) as [|y r] eqn:Er.
  - apply (f_equal reverse) in Er. rewrite reverse_involutive in Er.
    rewrite Er. now rewrite app_nil_r.
  - apply (f_equal reverse) in Er. rewrite reverse_involutive, reverse_cons in Er.
    rewrite Er. apply Permutation_app_head.
    rewrite Permutation_app_comm. reflexivity.
Qed.

Lemma swap_remove_formula (i : nat) (l : list string) (x y : string) :
  l !! i = Some x -> last l = Some y ->
  swap_remove i l = take (length l - 1) (<[i := y]> l).
Proof.
  intros Hx Hy. unfold swap_remove. rewrite Hx.
  rewrite last_lookup in Hy.
  replace (length l - 1) with (Nat.pred (length l)) by lia. rewrite Hy.
  apply list_eq. intros k.
  destruct (decide (k < Nat.pred (length l))) as [Hk|Hk].
  - rewrite !lookup_take_lt by exact Hk.
    rewrite list_lookup_insert_ne by lia. reflexivity.
  - rewrite !lookup_take_ge by lia. reflexivity.
Qed.

Lemma scopes_of_Some (b : Body) (l : list string) :
  b !! "scope" = Some (VStrings l) -> scopes_of b = (l, true).
Proof. intros Hb. unfold scopes_of. now rewrite Hb. Qed.

Lemma scopes_of_other (b : Body) :
  (forall l, b !! "scope" <> Some (VStrings l)) -> scopes_of b = ([], false).
Proof.
  intros Hb. unfold scopes_of.
  destruct (b !! "scope") as [[]|] eqn:E; try reflexivity.
  now destruct (Hb l).
Qed.

Lemma HasScope_list (t : Token) (l : list string) (q : string) :
  Token_Body t !! "scope" = Some (VStrings l) ->
  HasScope t q = bool_decide (q ∈ l).
Proof.
  intros Hb. unfold HasScope. rewrite (scopes_of_Some _ _ Hb). cbn.
  apply existsb_eqb.
Qed.

(** C7. On an unsigned token [RemoveScope] looks for the trimmed scope.
    A first match at index [i] is replaced by the last entry and the
    list is cut by one: the result is the list without entry [i], up to
    the order of the entries, so every other scope is a member as
    before. With no match, or when the body holds no list of scopes, the
    token is unchanged. *)
Theorem C7_RemoveScope_swap_with_last (t : Token) (scope : string) :
  IsSigned t = false ->
  (forall l i,
      Token_Body t !! "scope" = Some (VStrings l) ->
      find_scope (strings.TrimSpace scope) l = Some i ->
      l !! i = Some (strings.TrimSpace scope)
      /\ (forall j, j < i -> l !! j <> Some (strings.TrimSpace scope))
      /\ (exists y l',
            last l = Some y
            /\ l' = take (length l - 1) (<[i := y]> l)
            /\ l' ≡ₚ delete i l
            /\ RemoveScope t scope
                = set_Body t (<["scope" := VStrings l']> (Token_Body t)))
      /\ (forall q, q <> strings.TrimSpace scope ->
            HasScope (RemoveScope t scope) q = HasScope t q))
  /\ (forall l,
        Token_Body t !! "scope" = Some (VStrings l) ->
        strings.TrimSpace scope ∉ l ->
        RemoveScope t scope = t)
  /\ ((forall l, Token_Body t !! "scope" <> Some (VStrings l)) ->
        RemoveScope t scope = t).
Proof.
  intros Hs. split; [|split].
  - intros l i Hb Hf.
    destruct (find_scope_Some _ _ _ Hf) as [Hi Hfirst].
    assert (Hlt : i < length l) by (eapply lookup_lt_Some; exact Hi).
    destruct (last l) as [y|] eqn:Hy.
    2:{ apply last_None in Hy. subst l. cbn in Hlt. lia. }
    pose proof (swap_remove_formula i l _ y Hi Hy) as Hform.
    pose proof (swap_remove_Permutation i l Hlt) as Hperm.
    assert (Hrem : RemoveScope t scope
                   = set_Body t (<["scope" := VStrings (swap_remove i l)]> (Token_Body t))).
    { unfold RemoveScope. rewrite Hs, (scopes_of_Some _ _ Hb). cbn. now rewrite Hf. }
    split; [exact Hi|]. split; [exact Hfirst|]. split.
    + exists y, (swap_remove i l). rewrite <- Hform. auto.
    + intros q Hq. rewrite Hrem.
      rewrite (HasScope_list _ (swap_remove i l) q) by (cbn; apply lookup_insert_eq).
      rewrite (HasScope_list _ l q Hb).
      apply bool_decide_ext. rewrite Hperm.
      split.
      * intros Hin. apply list_elem_of_lookup in Hin as [k Hk].
        apply list_elem_of_lookup.
        destruct (decide (k < i)).
        -- exists k. now rewrite list_lookup_delete_lt in Hk.
        -- exists (S k). now rewrite list_lookup_delete_ge in Hk by lia.
      * intros Hin. apply list_elem_of_lookup in Hin as [k Hk].
        apply list_elem_of_lookup.
        destruct (lt_eq_lt_dec k i) as [[Hlt'|Heq]|Hgt].
        -- exists k. now rewrite list_lookup_delete_lt.
        -- subst k. congruence.
        -- exists (Nat.pred k). rewrite list_lookup_delete_ge by lia.
           now replace (S (Nat.pred k)) with k by lia.
  - intros l Hb Hn. unfold RemoveScope. rewrite Hs, (scopes_of_Some _ _ Hb). cbn.
    apply find_scope_None in Hn. now rewrite Hn.
  - intros Hb. unfold RemoveScope. rewrite Hs, (scopes_of_other _ Hb). reflexivity.
Qed.

(** C7 on a token with the scopes create, delete, read: removing
    " user:create " (with its blanks) puts the last scope in the first
    place, so the order of the two that stay is reversed. *)
Lemma C7_witness :
  IsSigned three_scopes = false
  /\ exists l',
      l' = ["user:read"; "user:delete"]
      /\ l' ≡ₚ ["user:delete"; "user:read"]
      /\ RemoveScope three_scopes " user:create "
          = set_Body three_scopes (<["scope" := VStrings l']> (Token_Body three_scopes)).
Proof.
  split; [reflexivity|].
  destruct (C7_RemoveScope_swap_with_last three_scopes " user:create " eq_refl)
    as (H & _ & _).
  destruct (H ["user:create"; "user:delete"; "user:read"] 0 eq_refl eq_refl)
    as (_ & _ & (y & l' & Hy & Hl' & Hperm & Hrem) & _).
  injection Hy as <-. exists l'. cbn in Hl'. cbn in Hperm.
  split; [exact Hl' | split; [exact Hperm | exact Hrem]].
Defined.

(** ** Verify *)

Lemma Marshal_not_Panic {A} `{json.Codec A} (x : A) :
  json.to_doc x <> Panic -> json.Marshal x <> Panic.
Proof. unfold json.Marshal. destruct (json.to_doc x); cbn; congruence. Qed.

Lemma sequence_list_not_Panic {A} (l : list (result A)) :
  Forall (fun r => r <> Panic) l -> json.sequence_list l <> Panic.
Proof.
  induction 1 as [|r l Hr _ IH]; cbn; [discriminate|].
  destruct r; cbn; try congruence.
  destruct (json.sequence_list l); cbn; congruence.
Qed.

Lemma sequence_not_Panic {A} (l : list (string * result A)) :
  Forall (fun kr => kr.2 <> Panic) l -> json.sequence l <> Panic.
Proof.
  induction 1 as [|[k r] l Hr _ IH]; cbn in *; [discriminate|].
  destruct r; cbn; try congruence.
  destruct (json.sequence l); cbn; congruence.
Qed.

Lemma insert_by_key_Permutation {A} (kv : string * A) (l : list (string * A)) :
  json.insert_by_key kv l ≡ₚ kv :: l.
Proof.
  induction l as [|kv' l IH]; cbn; [reflexivity|].
  destruct (String.leb kv.1 kv'.1); [reflexivity|].
  rewrite IH. apply Permutation_swap.
Qed.

Lemma sort_by_key_Permutation {A} (l : list (string * A)) :
  json.sort_by_key l ≡ₚ l.
Proof.
  induction l as [|kv l IH]; cbn; [reflexivity|].
  rewrite insert_by_key_Permutation. now rewrite IH.
Qed.

Lemma of_value_not_Panic (v : value) : json.of_value v <> Panic.
Proof.
  induction v as [ | | | | | |l IH|m IH| ] using value_ind'; cbn; try discriminate.
  - assert (Hs : json.sequence_list (json.of_value <$> l) <> Panic).
    { apply sequence_list_not_Panic. now apply Forall_fmap. }
    destruct (json.sequence_list (json.of_value <$> l)); cbn; congruence.
  - assert (Hs : json.sequence (json.sort_by_key (map_to_list (json.of_value <$> m)))
                 <> Panic).
    { apply sequence_not_Panic. rewrite sort_by_key_Permutation.
      apply Forall_forall. intros [k r] Hin.
      apply elem_of_map_to_list in Hin. rewrite lookup_fmap in Hin.
      destruct (m !! k) as [x|] eqn:Hx; [|discriminate].
      injection Hin as <-. cbn. exact (IH k x Hx). }
    destruct (json.sequence _); cbn; congruence.
Qed.

Lemma of_map_not_Panic (m : Body) : json.of_map m <> Panic.
Proof. exact (of_value_not_Panic (VMap m)). Qed.

(** [serializeHeaderAndBody] returns a string or an error. *)
Lemma serializeHeaderAndBody_not_Panic (h : Header) (b : Body) :
  serializeHeaderAndBody h b <> Panic.
Proof.
  pose proof (of_map_not_Panic b) as Hb.
  unfold serializeHeaderAndBody, json.Marshal. cbn.
  destruct (json.of_map b); cbn; congruence.
Qed.

(** C9. [Verify] returns a boolean and nothing else. On an unsigned
    token it is false and the verifier is not called; when the canonical
    input cannot be recomputed it is false and the verifier is not
    called; otherwise the verifier is called once, on the canonical
    input and the signature, and its answer is the result. So [Verify]
    is true exactly when the token is signed, its header and body
    serialize, and the verifier accepts; with the ES256 verifier a
    signature that is not 64 bytes long gives false. *)
Theorem C9_Verify_is_boolean (t : Token) (verifier : Verifier) :
  (IsSigned t = false -> Verify_calls t verifier = ([], false))
  /\ (forall e,
        serializeHeaderAndBody (Token_Header t) (Token_Body t) = Err e ->
        Verify_calls t verifier = ([], false))
  /\ (forall input,
        IsSigned t = true ->
        serializeHeaderAndBody (Token_Header t) (Token_Body t) = Ok input ->
        Verify_calls t verifier
        = ([CallVerify input (Signature t)],
           Verifier_Verify verifier input (Signature t)))
  /\ (Verify t verifier = true <->
      IsSigned t = true
      /\ exists input,
          serializeHeaderAndBody (Token_Header t) (Token_Body t) = Ok input
          /\ Verifier_Verify verifier input (Signature t) = true)
  /\ (forall (C : Crypto) (v : ES256Verifier),
        length (data (Signature t)) <> 64 ->
        Verify t (ES256Verifier_Verifier v) = false).
Proof.
  pose proof (serializeHeaderAndBody_not_Panic (Token_Header t) (Token_Body t)) as HnP.
  unfold Verify, Verify_calls.
  destruct (serializeHeaderAndBody (Token_Header t) (Token_Body t)) as [input|e|];
    [| |congruence]; clear HnP.
  all: destruct (IsSigned t).
  all: split; [|split; [|split; [|split]]]; try discriminate; try reflexivity.
  - intros i _ [= <-]. reflexivity.
  - split.
    + intros Hv. split; [reflexivity|]. exists input. split; [reflexivity | exact Hv].
    + intros (_ & input' & [= <-] & Hv). exact Hv.
  - intros C v Hlen. unfold snd, ES256Verifier_Verifier, Verifier_Verify, ES256Verifier_Verify.
    apply Nat.eqb_neq in Hlen. now rewrite Hlen.
  - split; [discriminate | now intros [[=] _]].
  - split; [discriminate|]. now intros (_ & input' & [=] & _).
  - split; [discriminate | now intros [[=] _]].
Qed.

(** The three ways to a false result of C9, with a verifier that would
    accept anything: an unsigned token, a body that does not serialize,
    and (with a signed token and a verifier that rejects) a call that
    answers false. *)
Lemma C9_witness :
  Verify_calls NewToken accepting_verifier = ([], false)
  /\ Verify_calls unserializable_example accepting_verifier = ([], false)
  /\ Verify_calls signed_example rejecting_verifier
      = ([CallVerify
            "eyJhbGciOiJFUzI1NiIsInR5cCI6IkpXVCJ9.eyJzY29wZSI6WyJ1c2VyOmNyZWF0ZSJdfQ"
            (Signature signed_example)], false).
Proof.
  split; [|split].
  - apply (proj1 (C9_Verify_is_boolean NewToken accepting_verifier)). reflexivity.
  - apply (proj1 (proj2 (C9_Verify_is_boolean unserializable_example accepting_verifier))
             UnsupportedTypeError).
    vm_compute. reflexivity.
  - apply (proj1 (proj2 (proj2 (C9_Verify_is_boolean signed_example rejecting_verifier)))).
    + reflexivity.
    + vm_compute. reflexivity.
Defined.

(** ** Parse *)

(** What a successful [Parse] did. *)
Lemma Parse_Ok (tokenString : string) (t : Token) :
  Parse tokenString = Ok t ->
  exists s0 s1 s2 rawHeader rawBody rawSignature,
    strings.Split tokenString "."%char = [s0; s1; s2]
    /\ base64.DecodeString s0 = Ok rawHeader
    /\ base64.DecodeString s1 = Ok rawBody
    /\ base64.DecodeString s2 = Ok rawSignature
    /\ json.Unmarshal rawHeader {| Header_Algorithm := ""; Type_ := "" |}
        = Ok (Token_Header t)
    /\ json.Unmarshal rawBody (∅ : Body) = Ok (Token_Body t)
    /\ Signature t = Some rawSignature.
Proof.
  unfold Parse.
  destruct (strings.Split tokenString ".") as [|s0 [|s1 [|s2 [|]]]]; try discriminate.
  destruct (base64.DecodeString s0) as [rawHeader| |] eqn:E0; try discriminate.
  destruct (base64.DecodeString s1) as [rawBody| |] eqn:E1; try discriminate.
  destruct (base64.DecodeString s2) as [rawSignature| |] eqn:E2; try discriminate.
  cbn.
  destruct (json.Unmarshal rawHeader _) as [header| |] eqn:E3; try discriminate.
  cbn.
  destruct (json.Unmarshal rawBody _) as [body| |] eqn:E4; try discriminate.
  cbn. intros [= <-]. cbn.
  exists s0, s1, s2, rawHeader, rawBody, rawSignature. auto 10.
Qed.

(** C4. [IsSigned] is true exactly when the signature is present, a
    signature of no bytes included; a token that [Parse] returns always
    has one, so a wire string whose third segment decodes to no bytes
    gives a token that reports as signed, with the empty signature. *)
Theorem C4_IsSigned_is_presence :
  (forall t, IsSigned t = true <-> Signature t <> None)
  /\ (forall h b, IsSigned {| Token_Header := h; Token_Body := b; Signature := Some [] |} = true)
  /\ (forall tokenString t, Parse tokenString = Ok t -> IsSigned t = true)
  /\ (forall tokenString s0 s1 s2 t,
        strings.Split tokenString "."%char = [s0; s1; s2] ->
        base64.DecodeString s2 = Ok [] ->
        Parse tokenString = Ok t ->
        IsSigned t = true /\ Signature t = Some [])
  /\ (exists t, Parse "e30.e30." = Ok t /\ IsSigned t = true /\ Signature t = Some []).
Proof.
  split; [|split; [|split; [|split]]].
  - intros t. unfold IsSigned. destruct (Signature t); split; congruence.
  - reflexivity.
  - intros s t Hp. apply Parse_Ok in Hp as (? & ? & ? & ? & ? & sig & _ & _ & _ & _ & _ & _ & Hsig).
    unfold IsSigned. now rewrite Hsig.
  - intros s s0 s1 s2 t Hsplit Hdec Hp.
    apply Parse_Ok in Hp as (s0' & s1' & s2' & ? & ? & sig & Hsplit' & _ & _ & Hdec' & _ & _ & Hsig).
    rewrite Hsplit in Hsplit'. injection Hsplit' as <- <- <-.
    rewrite Hdec in Hdec'. injection Hdec' as <-.
    unfold IsSigned. now rewrite Hsig.
  - eexists. split; [vm_compute; reflexivity|]. split; reflexivity.
Qed.

(** Every value of a decoded body is a generic one. *)
Lemma to_value_not_strings (j : json.doc) (l : list string) :
  json.to_value j <> VStrings l.
Proof. destruct j; discriminate. Qed.

Lemma foldl_insert_generic (l : list (string * json.doc)) (m : Body) :
  map_Forall (fun _ v => exists j, v = json.to_value j) m ->
  map_Forall (fun _ v => exists j, v = json.to_value j)
    (foldl (fun acc kv => <[kv.1 := json.to_value kv.2]> acc) m l).
Proof.
  revert m. induction l as [|[k j] l IH]; intros m Hm; cbn; [exact Hm|].
  apply IH. apply map_Forall_insert_2; [now exists j | exact Hm].
Qed.

Lemma Unmarshal_body_generic (raw : list byte) (b : Body) :
  json.Unmarshal raw (∅ : Body) = Ok b ->
  map_Forall (fun _ v => exists j, v = json.to_value j) b.
Proof.
  unfold json.Unmarshal. destruct (json.parse raw) as [j| |]; try discriminate.
  cbn. destruct j; try discriminate; intros [= <-].
  - apply map_Forall_empty.
  - apply foldl_insert_generic, map_Forall_empty.
Qed.

Lemma HasScope_true (t : Token) (scope : string) :
  HasScope t scope = true ->
  exists l, Token_Body t !! "scope" = Some (VStrings l) /\ scope ∈ l.
Proof.
  unfold HasScope, scopes_of.
  destruct (Token_Body t !! "scope") as [[]|]; cbn; try discriminate.
  rewrite existsb_eqb. intros Hin%bool_decide_eq_true. now exists l.
Qed.

(** C10. [HasScope] is true only when the "scope" entry of the body is
    a [[]string] that holds the scope. The body that [Parse] decodes
    holds generic values only, an array being a [[]interface{}]: on a
    parsed token [HasScope] is false for every scope, as on the wire
    form of a token that carries the scope "user:create". *)
Theorem C10_HasScope_false_after_Parse :
  (forall t scope,
      HasScope t scope = true ->
      exists l, Token_Body t !! "scope" = Some (VStrings l) /\ scope ∈ l)
  /\ (forall tokenString t scope, Parse tokenString = Ok t -> HasScope t scope = false)
  /\ (exists t,
        Parse "eyJhbGciOiJOb25lIiwidHlwIjoiSldUIn0.eyJzY29wZSI6WyJ1c2VyOmNyZWF0ZSJdfQ."
        = Ok t
        /\ Token_Body t !! "scope" = Some (VSlice [VString "user:create"])
        /\ HasScope t "user:create" = false).
Proof.
  split; [|split].
  - apply HasScope_true.
  - intros s t scope Hp.
    apply Parse_Ok in Hp as (? & ? & ? & ? & rawBody & ? & _ & _ & _ & _ & _ & Hb & _).
    apply Unmarshal_body_generic in Hb.
    destruct (HasScope t scope) eqn:E; [|reflexivity].
    apply HasScope_true in E as (l & Hl & _).
    destruct (Hb _ _ Hl) as [j Hj]. symmetry in Hj. now apply to_value_not_strings in Hj.
  - eexists. split; [vm_compute; reflexivity|]. split; reflexivity.
Qed.

(** ** The ES256 pair *)

Definition bytes_val (l : list byte) : N :=
  foldl (fun acc c => acc * 256 + code c)%N 0%N l.

Lemma code_byte_of (n : N) : code (byte_of n) = (n mod 256)%N.
Proof.
  unfold code, byte_of. apply N_ascii_embedding. now apply N.mod_lt.
Qed.

Lemma byte_of_code (c : byte) : byte_of (code c) = c.
Proof.
  unfold byte_of, code. rewrite N.mod_small by apply N_ascii_bounded.
  apply ascii_N_embedding.
Qed.

Lemma byte_of_mod (n : N) : byte_of (n mod 256) = byte_of n.
Proof. unfold byte_of. now rewrite N.Div0.mod_mod. Qed.

Lemma bytes_val_snoc (l : list byte) (c : byte) :
  bytes_val (l ++ [c]) = (bytes_val l * 256 + code c)%N.
Proof. unfold bytes_val. now rewrite foldl_app. Qed.

Lemma bytes_val_zeros (k : nat) (l : list byte) :
  bytes_val (replicate k Ascii.zero ++ l) = bytes_val l.
Proof.
  unfold bytes_val. rewrite foldl_app.
  replace (foldl _ 0%N (replicate k Ascii.zero)) with 0%N; [reflexivity|].
  induction k as [|k IH]; [reflexivity|]. cbn. exact IH.
Qed.

Lemma big_endian_N_length (n : nat) (x : N) : length (big_endian_N n x) = n.
Proof.
  revert x. induction n as [|n IH]; intros x; cbn; [reflexivity|].
  rewrite length_app, IH. cbn. lia.
Qed.

Lemma big_endian_N_val (n : nat) (x : N) :
  (x < 256 ^ N.of_nat n)%N -> bytes_val (big_endian_N n x) = x.
Proof.
  revert x. induction n as [|n IH]; intros x Hx.
  - cbn in *. lia.
  - cbn [big_endian_N]. rewrite bytes_val_snoc, code_byte_of.
    rewrite IH.
    + pose proof (N.div_mod x 256). lia.
    + apply N.Div0.div_lt_upper_bound.
      rewrite Nat2N.inj_succ, N.pow_succ_r' in Hx. exact Hx.
Qed.

Lemma big_endian_N_zero (n : nat) : big_endian_N n 0 = replicate n Ascii.zero.
Proof.
  induction n as [|n IH]; [reflexivity|].
  cbn [big_endian_N]. rewrite N.Div0.div_0_l, IH.
  change [byte_of 0] with (replicate 1 Ascii.zero).
  rewrite <- replicate_add. f_equal. lia.
Qed.

Lemma length_bytes_go (fuel : nat) (k : nat) (n : N) (acc : list byte) :
  (n < 256 ^ N.of_nat k)%N ->
  length (big.bytes_go fuel n acc) <= k + length acc.
Proof.
  revert k n acc. induction fuel as [|fuel IH]; intros k n acc Hn; cbn; [lia|].
  destruct (N.eqb_spec n 0) as [->|Hne]; [lia|].
  destruct k as [|k]; [cbn in Hn; lia|].
  specialize (IH k (n / 256)%N (byte_of (n mod 256) :: acc)).
  cbn in IH. etransitivity; [apply IH|lia].
  apply N.Div0.div_lt_upper_bound.
  rewrite Nat2N.inj_succ, N.pow_succ_r' in Hn. exact Hn.
Qed.

(** Padding the bytes of [n] on the left to [k] bytes gives the
    fixed-width encoding. *)
Lemma pad_bytes_go (fuel : nat) (k : nat) (n : N) (acc : list byte) :
  (n < 2 ^ N.of_nat fuel)%N ->
  (n < 256 ^ N.of_nat k)%N ->
  replicate (k + length acc - length (big.bytes_go fuel n acc)) Ascii.zero
    ++ big.bytes_go fuel n acc
  = big_endian_N k n ++ acc.
Proof.
  revert k n acc. induction fuel as [|fuel IH]; intros k n acc Hf Hk.
  - cbn in Hf. assert (n = 0%N) as -> by lia. cbn.
    rewrite big_endian_N_zero. f_equal. f_equal. lia.
  - cbn [big.bytes_go]. destruct (N.eqb_spec n 0) as [->|Hne].
    + rewrite big_endian_N_zero. f_equal. f_equal. lia.
    + destruct k as [|k]; [cbn in Hk; lia|].
      cbn [big_endian_N]. rewrite <- app_assoc. cbn [app].
      rewrite <- (byte_of_mod n).
      rewrite <- IH.
      * cbn [length]. f_equal. f_equal. lia.
      * rewrite Nat2N.inj_succ, N.pow_succ_r' in Hf.
        apply N.Div0.div_lt_upper_bound.
        eapply N.lt_le_trans; [exact Hf|]. 
        apply N.mul_le_mono_r. lia.
      * apply N.Div0.div_lt_upper_bound.
        rewrite Nat2N.inj_succ, N.pow_succ_r' in Hk. exact Hk.
Qed.

Lemma Bytes_length (x : Z) (k : nat) :
  (0 <= x < 256 ^ Z.of_nat k)%Z -> length (big.Bytes x) <= k.
Proof.
  intros Hx. unfold big.Bytes.
  pose proof (length_bytes_go (N.to_nat (N.size (Z.abs_N x))) k (Z.abs_N x) []) as Hl.
  cbn in Hl. rewrite Nat.add_0_r in Hl. apply Hl.
  assert (Z.of_N (Z.abs_N x) < Z.of_N (256 ^ N.of_nat k))%Z; [|lia].
  rewrite N2Z.inj_abs_N, N2Z.inj_pow, nat_N_Z. cbn. lia.
Qed.

Lemma pad_Bytes (x : Z) (k : nat) :
  (0 <= x < 256 ^ Z.of_nat k)%Z ->
  replicate (k - length (big.Bytes x)) Ascii.zero ++ big.Bytes x = big_endian k x.
Proof.
  intros Hx. unfold big.Bytes, big_endian.
  assert (Habs : Z.abs_N x = Z.to_N x) by lia. rewrite Habs.
  pose proof (pad_bytes_go (N.to_nat (N.size (Z.to_N x))) k (Z.to_N x) []) as Hp.
  cbn [length] in Hp. rewrite Nat.add_0_r, app_nil_r in Hp. apply Hp.
  - rewrite N2Nat.id. apply N.size_gt.
  - assert (Z.of_N (Z.to_N x) < Z.of_N (256 ^ N.of_nat k))%Z; [|lia].
    rewrite Z2N.id, N2Z.inj_pow, nat_N_Z by lia. cbn. lia.
Qed.

Lemma SetBytes_big_endian (x : Z) (k : nat) :
  (0 <= x < 256 ^ Z.of_nat k)%Z -> big.SetBytes (big_endian k x) = x.
Proof.
  intros Hx. unfold big.SetBytes, big_endian.
  change (foldl _ 0%N ?l) with (bytes_val l).
  rewrite big_endian_N_val; [lia|].
  assert (Z.of_N (Z.to_N x) < Z.of_N (256 ^ N.of_nat k))%Z; [|lia].
  rewrite Z2N.id, N2Z.inj_pow, nat_N_Z by lia. cbn. lia.
Qed.

Lemma big_endian_length (k : nat) (x : Z) : length (big_endian k x) = k.
Proof. apply big_endian_N_length. Qed.

Lemma make_pad (x : Z) :
  (0 <= x < 2 ^ 256)%Z ->
  make (32 - Z.of_nat (length (big.Bytes x)))
  = Ok (replicate (32 - length (big.Bytes x)) Ascii.zero).
Proof.
  intros Hx. pose proof (Bytes_length x 32 Hx) as Hl. unfold make.
  destruct (Z.ltb_spec (32 - Z.of_nat (length (big.Bytes x))) 0); [lia|].
  do 2 f_equal. lia.
Qed.

Section ES256_properties.
Context `{Crypto}.

Lemma ES256Signer_Sign_Ok (s : ES256Signer) (rnd : Rand) (msg : string) (r sv : Z) :
  ecdsa_Sign rnd (privateKey s) (sha256_Sum256 (list_ascii_of_string msg)) = Ok (r, sv) ->
  (0 <= r < 2 ^ 256)%Z ->
  (0 <= sv < 2 ^ 256)%Z ->
  ES256Signer_Sign s rnd msg = Ok (Some (big_endian 32 r ++ big_endian 32 sv)).
Proof.
  intros Hsig Hr Hs. unfold ES256Signer_Sign. rewrite Hsig. cbn.
  rewrite (make_pad r Hr). cbn. rewrite (make_pad sv Hs). cbn.
  now rewrite (pad_Bytes r 32 Hr), (pad_Bytes sv 32 Hs).
Qed.

Lemma ES256Verifier_Verify_length (v : ES256Verifier) (msg : string)
    (signature : option (list byte)) :
  length (data signature) <> 64 -> ES256Verifier_Verify v msg signature = false.
Proof.
  intros Hlen. unfold ES256Verifier_Verify.
  apply Nat.eqb_neq in Hlen. now rewrite Hlen.
Qed.

Lemma ES256Verifier_Verify_big_endian (v : ES256Verifier) (msg : string) (r sv : Z) :
  (0 <= r < 2 ^ 256)%Z ->
  (0 <= sv < 2 ^ 256)%Z ->
  ES256Verifier_Verify v msg (Some (big_endian 32 r ++ big_endian 32 sv))
  = ecdsa_Verify (publicKey v) (sha256_Sum256 (list_ascii_of_string msg)) r sv.
Proof.
  intros Hr Hs. unfold ES256Verifier_Verify. cbn [data].
  rewrite length_app, !big_endian_length. cbn [Nat.eqb negb Nat.add].
  rewrite take_app_length' by (symmetry; apply big_endian_length).
  rewrite drop_app_length' by (symmetry; apply big_endian_length).
  now rewrite (SetBytes_big_endian r 32 Hr), (SetBytes_big_endian sv 32 Hs).
Qed.

(** C8. When [ecdsa.Sign] returns [r] and [s] below 2^256, the ES256
    signer returns 64 bytes: [r] as 32 bytes big-endian followed by [s]
    as 32 bytes big-endian, each being the bytes of the integer with
    zero bytes on its left, and each half read back giving the integer.
    The ES256 verifier answers false for a signature that is not 64
    bytes long. *)
Theorem C8_ES256_signature_is_r_s_64_bytes
    (s : ES256Signer) (rnd : Rand) (msg : string) (r sv : Z) :
  ecdsa_Sign rnd (privateKey s) (sha256_Sum256 (list_ascii_of_string msg)) = Ok (r, sv) ->
  (0 <= r < 2 ^ 256)%Z ->
  (0 <= sv < 2 ^ 256)%Z ->
  ES256Signer_Sign s rnd msg = Ok (Some (big_endian 32 r ++ big_endian 32 sv))
  /\ length (big_endian 32 r ++ big_endian 32 sv) = 64
  /\ length (big_endian 32 r) = 32
  /\ length (big_endian 32 sv) = 32
  /\ big_endian 32 r = replicate (32 - length (big.Bytes r)) Ascii.zero ++ big.Bytes r
  /\ big_endian 32 sv = replicate (32 - length (big.Bytes sv)) Ascii.zero ++ big.Bytes sv
  /\ big.SetBytes (big_endian 32 r) = r
  /\ big.SetBytes (big_endian 32 sv) = sv
  /\ (forall (v : ES256Verifier) (m : string) (signature : option (list byte)),
        length (data signature) <> 64 -> ES256Verifier_Verify v m signature = false).
Proof.
  intros Hsig Hr Hs.
  split; [now apply ES256Signer_Sign_Ok|].
  split; [rewrite length_app, !big_endian_length; reflexivity|].
  split; [apply big_endian_length|].
  split; [apply big_endian_length|].
  split; [symmetry; now apply pad_Bytes|].
  split; [symmetry; now apply pad_Bytes|].
  split; [now apply SetBytes_big_endian|].
  split; [now apply SetBytes_big_endian|].
  apply ES256Verifier_Verify_length.
Qed.

(** What [crypto/ecdsa] promises for P-256: with a private key and its
    public key, [Sign] succeeds whatever the random source gives, [r]
    and [s] lie between 1 and the order of the curve (below 2^256), and
    [Verify] accepts them for the same digest. *)
Variable key_pair : PrivateKey -> PublicKey -> Prop.
Hypothesis ecdsa_sign_verify :
  forall (rnd : Rand) (priv : PrivateKey) (pub : PublicKey) (hash : list byte),
    key_pair priv pub ->
    exists r s,
      ecdsa_Sign rnd priv hash = Ok (r, s)
      /\ (0 < r < 2 ^ 256)%Z
      /\ (0 < s < 2 ^ 256)%Z
      /\ ecdsa_Verify pub hash r s = true.

Lemma Sign_then_Verify (t : Token) (priv : PrivateKey) (pub : PublicKey) (rnd : Rand)
    (input : string) :
  key_pair priv pub ->
  IsSigned t = false ->
  serializeHeaderAndBody
    {| Header_Algorithm := ES256; Type_ := Type_ (Token_Header t) |} (Token_Body t)
  = Ok input ->
  exists t',
    Sign t (ES256Signer_Signer (NewES256Signer priv) rnd) = (t', Ok tt)
    /\ IsSigned t' = true
    /\ Token_Body t' = Token_Body t
    /\ Token_Header t' = {| Header_Algorithm := ES256; Type_ := Type_ (Token_Header t) |}
    /\ Verify t' (ES256Verifier_Verifier (NewES256Verifier pub)) = true.
Proof.
  intros Hpair Hunsigned Hser.
  destruct (ecdsa_sign_verify rnd priv pub
              (sha256_Sum256 (list_ascii_of_string input)) Hpair)
    as (r & sv & Hsig & Hr & Hs & Hver).
  assert (Hsign : ES256Signer_Sign (NewES256Signer priv) rnd input
                  = Ok (Some (big_endian 32 r ++ big_endian 32 sv))).
  { apply ES256Signer_Sign_Ok; [exact Hsig | lia | lia]. }
  eexists. split; [|split; [|split; [|split]]].
  - unfold Sign. rewrite Hunsigned. cbn [ES256Signer_Signer Signer_Algorithm Signer_Sign].
    rewrite Hser, Hsign. reflexivity.
  - reflexivity.
  - reflexivity.
  - reflexivity.
  - unfold Verify, Verify_calls. cbn [IsSigned Signature negb Token_Header Token_Body].
    rewrite Hser. cbn [snd ES256Verifier_Verifier Verifier_Verify].
    rewrite ES256Verifier_Verify_big_endian by lia. exact Hver.
Qed.

(** C2. With a key pair of [crypto/ecdsa], signing an unsigned token
    whose header and body serialize succeeds, whatever the random source
    gives, and the signed token verifies against the public key; the
    token [NewToken] returns is such a token. *)
Theorem C2_Sign_then_Verify (priv : PrivateKey) (pub : PublicKey) (rnd : Rand) :
  key_pair priv pub ->
  (forall t input,
      IsSigned t = false ->
      serializeHeaderAndBody
        {| Header_Algorithm := ES256; Type_ := Type_ (Token_Header t) |} (Token_Body t)
      = Ok input ->
      exists t',
        Sign t (ES256Signer_Signer (NewES256Signer priv) rnd) = (t', Ok tt)
        /\ IsSigned t' = true
        /\ Verify t' (ES256Verifier_Verifier (NewES256Verifier pub)) = true)
  /\ (exists t',
        Sign NewToken (ES256Signer_Signer (NewES256Signer priv) rnd) = (t', Ok tt)
        /\ IsSigned t' = true
        /\ Verify t' (ES256Verifier_Verifier (NewES256Verifier pub)) = true).
Proof.
  intros Hpair. split.
  - intros t input Hu Hser.
    destruct (Sign_then_Verify t priv pub rnd input Hpair Hu Hser)
      as (t' & H1 & H2 & _ & _ & H5).
    exists t'. auto.
  - destruct (Sign_then_Verify NewToken priv pub rnd
                "eyJhbGciOiJFUzI1NiIsInR5cCI6IkpXVCJ9.e30" Hpair eq_refl)
      as (t' & H1 & H2 & _ & _ & H5).
    + vm_compute. reflexivity.
    + exists t'. auto.
Qed.

End ES256_properties.

Lemma toy_tag_range (d : Z) (h : list byte) (r : Z) : (0 < toy_tag d h r < 2 ^ 256)%Z.
Proof.
  unfold toy_tag.
  pose proof (Z.mod_pos_bound (big.SetBytes h + r * d) (2 ^ 255) ltac:(lia)).
  assert (2 ^ 256 = 2 * 2 ^ 255)%Z by reflexivity. lia.
Qed.

Lemma toy_crypto_sign_verify :
  forall (rnd : @Rand toy_crypto) (priv : @PrivateKey toy_crypto)
         (pub : @PublicKey toy_crypto) (hash : list byte),
    priv = pub ->
    exists r s,
      @ecdsa_Sign toy_crypto rnd priv hash = Ok (r, s)
      /\ (0 < r < 2 ^ 256)%Z
      /\ (0 < s < 2 ^ 256)%Z
      /\ @ecdsa_Verify toy_crypto pub hash r s = true.
Proof.
  intros rnd priv pub hash <-. cbn.
  eexists _, _. split; [reflexivity|]. split; [|split].
  - pose proof (Z.mod_pos_bound rnd (2 ^ 255) ltac:(lia)).
    assert (2 ^ 256 = 2 * 2 ^ 255)%Z by reflexivity. lia.
  - apply toy_tag_range.
  - apply Z.eqb_refl.
Qed.

(** C8 with the stand-in primitives: the key 11, the random draw 41 and
    the message "a.b" give [r = 42], and a signature of 64 bytes whose
    32nd byte is 42. *)
Lemma C8_witness :
  exists out,
    @ES256Signer_Sign toy_crypto (@NewES256Signer toy_crypto 11%Z) 41%Z "a.b"
    = Ok (Some out)
    /\ length out = 64
    /\ out !! 31 = Some (byte_of 42)
    /\ take 31 out = replicate 31 Ascii.zero.
Proof.
  destruct (@C8_ES256_signature_is_r_s_64_bytes toy_crypto
              (@NewES256Signer toy_crypto 11%Z) 41%Z "a.b" 42%Z
              (toy_tag 11 (toy_digest (list_ascii_of_string "a.b")) 42)
              eq_refl ltac:(lia) (conj (Z.lt_le_incl _ _ (proj1 (toy_tag_range _ _ _)))
                                       (proj2 (toy_tag_range _ _ _))))
    as (Hsign & Hlen & _).
  eexists. split; [exact Hsign|]. split; [exact Hlen|].
  split; vm_compute; reflexivity.
Defined.

(** C2 with the stand-in primitives: a fresh token, signed with the key
    11 and verified with the same key. *)
Lemma C2_witness :
  exists t',
    Sign NewToken (@ES256Signer_Signer toy_crypto (@NewES256Signer toy_crypto 11%Z) 41%Z)
    = (t', Ok tt)
    /\ IsSigned t' = true
    /\ Verify t' (@ES256Verifier_Verifier toy_crypto (@NewES256Verifier toy_crypto 11%Z))
        = true.
Proof.
  exact (proj2 (@C2_Sign_then_Verify toy_crypto (fun priv pub => priv = pub)
                  toy_crypto_sign_verify 11%Z 11%Z 41%Z eq_refl)).
Defined.

(* ================================================================== *)
(** * The wire format: the libraries *)

(** ** base64 *)

Lemma lt_64_cases (P : N -> Prop) :
  (forall n : nat, n < 64 -> P (N.of_nat n)) -> forall i, (i < 64)%N -> P i.
Proof.
  intros HP i Hi. rewrite <- (N2Nat.id i). apply HP. lia.
Qed.

Lemma decodeMap_encode (i : N) :
  (i < 64)%N -> base64.decodeMap (base64.encode i) = Some i.
Proof.
  revert i. apply lt_64_cases. intros n Hn.
  do 64 (destruct n as [|n]; [vm_compute; reflexivity|]). lia.
Qed.

Lemma encode_plain (i : N) :
  (i < 64)%N ->
  base64.is_newline (base64.encode i) = false
  /\ (base64.encode i =? ".")%char = false.
Proof.
  revert i. apply lt_64_cases. intros n Hn.
  do 64 (destruct n as [|n]; [vm_compute; split; reflexivity|]). lia.
Qed.

(** The six-bit groups that [Encode] writes. *)
Fixpoint sextets_of (src : list byte) : list N :=
  match src with
  | a :: b :: c :: rest =>
      let val := (code a * 65536 + code b * 256 + code c)%N in
      (val / 262144 mod 64)%N :: (val / 4096 mod 64)%N
        :: (val / 64 mod 64)%N :: (val mod 64)%N :: sextets_of rest
  | [a; b] =>
      let val := (code a * 65536 + code b * 256)%N in
      [val / 262144 mod 64; val / 4096 mod 64; val / 64 mod 64]%N
  | [a] =>
      let val := (code a * 65536)%N in
      [val / 262144 mod 64; val / 4096 mod 64]%N
  | [] => []
  end.

Lemma list_ind3 {A} (P : list A -> Prop) :
  P [] -> (forall a, P [a]) -> (forall a b, P [a; b]) ->
  (forall a b c l, P l -> P (a :: b :: c :: l)) ->
  forall l, P l.
Proof.
  intros H0 H1 H2 H3 l.
  assert (H : P l /\ (forall a, P (a :: l)) /\ (forall a b, P (a :: b :: l))).
  { induction l as [|x l (IH0 & IH1 & IH2)]; [auto|].
    split; [apply IH1|]. split; [intros a; apply IH2|]. intros a b. now apply H3. }
  apply H.
Qed.

Lemma Encode_sextets_of (src : list byte) :
  base64.Encode src = base64.encode <$> sextets_of src.
Proof.
  induction src as [|a|a b|a b c l IH] using list_ind3; try reflexivity.
  cbn [base64.Encode sextets_of]. cbv zeta. rewrite IH. reflexivity.
Qed.

Lemma sextets_of_bound (src : list byte) : Forall (fun i => (i < 64)%N) (sextets_of src).
Proof.
  induction src as [|a|a b|a b c l IH] using list_ind3; cbn [sextets_of]; cbv zeta;
    repeat constructor; try (apply N.mod_lt; lia). exact IH.
Qed.

Lemma sextets_encode (l : list N) :
  Forall (fun i => (i < 64)%N) l -> base64.sextets (base64.encode <$> l) = Some l.
Proof.
  induction 1 as [|i l Hi _ IH]; [reflexivity|].
  rewrite fmap_cons. cbn [base64.sextets].
  rewrite (proj1 (encode_plain i Hi)), (decodeMap_encode i Hi), IH. reflexivity.
Qed.

Lemma regroup (val : N) : (val < 16777216 ->
  (val / 262144 mod 64) * 262144 + (val / 4096 mod 64) * 4096
    + (val / 64 mod 64) * 64 + val mod 64 = val)%N.
Proof.
  intros H.
  replace (val / 262144)%N with (val / 64 / 64 / 64)%N by (rewrite !N.Div0.div_div; reflexivity).
  replace (val / 4096)%N with (val / 64 / 64)%N by (rewrite !N.Div0.div_div; reflexivity).
  pose proof (N.div_mod val 64 ltac:(lia)).
  pose proof (N.div_mod (val / 64) 64 ltac:(lia)).
  pose proof (N.div_mod (val / 64 / 64) 64 ltac:(lia)).
  assert (val / 64 / 64 / 64 < 64)%N.
  { rewrite !N.Div0.div_div. apply N.Div0.div_lt_upper_bound. lia. }
  rewrite (N.mod_small (val / 64 / 64 / 64) 64) by assumption.
  generalize dependent (val / 64 / 64 / 64)%N.
  generalize dependent (val / 64 / 64 mod 64)%N.
  generalize dependent (val / 64 mod 64)%N.
  generalize dependent (val mod 64)%N. intros. lia.
Qed.

Lemma code_bound (c : byte) : (code c < 256)%N.
Proof. apply N_ascii_bounded. Qed.

Lemma byte_of_eq (n : N) (c : byte) : (n mod 256 = code c)%N -> byte_of n = c.
Proof. intros E. unfold byte_of. rewrite E. apply ascii_N_embedding. Qed.

Lemma bytes3 (a b c : N) : (a < 256 -> b < 256 -> c < 256 ->
  ((a * 65536 + b * 256 + c) / 65536) mod 256 = a
  /\ ((a * 65536 + b * 256 + c) / 256) mod 256 = b
  /\ (a * 65536 + b * 256 + c) mod 256 = c)%N.
Proof.
  intros Ha Hb Hc.
  assert (E1 : ((a * 65536 + b * 256 + c) / 65536 = a)%N).
  { symmetry. apply (N.div_unique _ _ _ (b * 256 + c)); lia. }
  assert (E2 : ((a * 65536 + b * 256 + c) / 256 = a * 256 + b)%N).
  { symmetry. apply (N.div_unique _ _ _ c); lia. }
  rewrite E1, E2. repeat split.
  - apply N.mod_small; lia.
  - symmetry. apply (N.mod_unique _ _ a); lia.
  - symmetry. apply (N.mod_unique _ _ (a * 256 + b)); lia.
Qed.

Lemma mod_64_0 (x : N) : (x * 64 mod 64 = 0)%N.
Proof. apply N.Div0.mod_mul. Qed.

Lemma quanta_sextets_of (src : list byte) : base64.quanta (sextets_of src) = Some src.
Proof.
  induction src as [|a|a b|a b c l IH] using list_ind3.
  - reflexivity.
  - cbn [sextets_of base64.quanta]. cbv zeta.
    pose proof (code_bound a) as Ha.
    set (val := (code a * 65536)%N).
    assert (Hv : (val / 262144 mod 64 * 262144 + val / 4096 mod 64 * 4096 = val)%N).
    { pose proof (regroup val ltac:(unfold val; lia)) as R.
      assert (val mod 64 = 0)%N.
      { unfold val. replace (code a * 65536)%N with (code a * 1024 * 64)%N by lia.
        apply mod_64_0. }
      assert (val / 64 mod 64 = 0)%N; [|lia].
      unfold val. replace (code a * 65536)%N with (code a * 1024 * 64)%N by lia.
      rewrite N.div_mul by lia.
      replace (code a * 1024)%N with (code a * 16 * 64)%N by lia.
      apply mod_64_0. }
    rewrite Hv.
    destruct (bytes3 (code a) 0 0 Ha ltac:(lia) ltac:(lia)) as (E1 & _ & _).
    replace (code a * 65536 + 0 * 256 + 0)%N with val in E1 by (unfold val; lia).
    do 2 f_equal. now apply byte_of_eq.
  - cbn [sextets_of base64.quanta]. cbv zeta.
    pose proof (code_bound a) as Ha. pose proof (code_bound b) as Hb.
    set (val := (code a * 65536 + code b * 256)%N).
    assert (Hv : (val / 262144 mod 64 * 262144 + val / 4096 mod 64 * 4096
                  + val / 64 mod 64 * 64 = val)%N).
    { pose proof (regroup val ltac:(unfold val; lia)) as R.
      assert (val mod 64 = 0)%N; [|lia].
      unfold val. replace (code a * 65536 + code b * 256)%N
        with ((code a * 1024 + code b * 4) * 64)%N by lia.
      apply mod_64_0. }
    rewrite Hv.
    destruct (bytes3 (code a) (code b) 0 Ha Hb ltac:(lia)) as (E1 & E2 & _).
    replace (code a * 65536 + code b * 256 + 0)%N with val in E1, E2 by (unfold val; lia).
    f_equal. f_equal; [|f_equal]; now apply byte_of_eq.
  - cbn [sextets_of base64.quanta]. cbv zeta. rewrite IH. cbn [fmap option_fmap option_map].
    pose proof (code_bound a) as Ha. pose proof (code_bound b) as Hb.
    pose proof (code_bound c) as Hc.
    destruct (bytes3 (code a) (code b) (code c) Ha Hb Hc) as (E1 & E2 & E3).
    set (val := (code a * 65536 + code b * 256 + code c)%N) in *.
    rewrite (regroup val) by (unfold val; lia).
    f_equal. f_equal; [|f_equal; [|f_equal]]; now apply byte_of_eq.
Qed.

Lemma DecodeString_EncodeToString (src : list byte) :
  base64.DecodeString (base64.EncodeToString src) = Ok src.
Proof.
  unfold base64.DecodeString, base64.EncodeToString.
  rewrite list_ascii_of_string_of_list_ascii, Encode_sextets_of.
  rewrite sextets_encode by apply sextets_of_bound. cbn.
  now rewrite quanta_sextets_of.
Qed.

(** ** Split *)

Fixpoint no_dot (s : string) : bool :=
  match s with
  | EmptyString => true
  | String c s' => negb (c =? ".")%char && no_dot s'
  end.

Lemma Split_no_dot (s : string) : no_dot s = true -> strings.Split s "." = [s].
Proof.
  induction s as [|c s IH]; cbn [no_dot strings.Split]; [reflexivity|].
  intros [Hc Hs]%andb_prop. apply negb_true_iff in Hc. rewrite Hc.
  now rewrite (IH Hs).
Qed.

Lemma append_cons (c : byte) (a b : string) : String c a +:+ b = String c (a +:+ b).
Proof. reflexivity. Qed.

Lemma Split_app (a rest : string) :
  no_dot a = true ->
  strings.Split (a +:+ String "." rest) "." = a :: strings.Split rest ".".
Proof.
  induction a as [|c a IH]; [reflexivity|].
  cbn [no_dot]. intros [Hc Ha]%andb_prop. apply negb_true_iff in Hc.
  rewrite append_cons. cbn [strings.Split]. rewrite Hc.
  now rewrite (IH Ha).
Qed.

Lemma string_app_assoc (a b c : string) : (a +:+ b) +:+ c = a +:+ (b +:+ c).
Proof.
  induction a as [|x a IH]; [reflexivity|]. rewrite !append_cons. now f_equal.
Qed.

Lemma dot_join_cons (a b : string) : dot_join a b = a +:+ String "." b.
Proof. reflexivity. Qed.

Lemma Split_three (a b c : string) :
  no_dot a = true -> no_dot b = true -> no_dot c = true ->
  strings.Split (dot_join (dot_join a b) c) "." = [a; b; c].
Proof.
  intros Ha Hb Hc. rewrite !dot_join_cons, string_app_assoc, append_cons.
  rewrite (Split_app a _ Ha), (Split_app b _ Hb).
  now rewrite (Split_no_dot c Hc).
Qed.

Lemma no_dot_of_list (l : list byte) :
  Forall (fun c => (c =? ".")%char = false) l -> no_dot (string_of_list_ascii l) = true.
Proof.
  induction 1 as [|c l Hc _ IH]; cbn [no_dot string_of_list_ascii]; [reflexivity|].
  now rewrite Hc, IH.
Qed.

Lemma no_dot_EncodeToString (src : list byte) :
  no_dot (base64.EncodeToString src) = true.
Proof.
  unfold base64.EncodeToString. apply no_dot_of_list.
  rewrite Encode_sextets_of. apply Forall_fmap.
  eapply Forall_impl; [apply sextets_of_bound|].
  intros i Hi. cbn. apply (encode_plain i Hi).
Qed.

(** ** UTF-8 chunks *)

Definition chunk_bytes (c : utf8.chunk) : list byte :=
  match c with
  | utf8.Rune bs => bs
  | utf8.BadByte b => [b]
  end.

(** A chunk as [chunks] produces it. *)
Definition wf_chunk (c : utf8.chunk) : bool :=
  match c with
  | utf8.Rune [b] => utf8.is_ascii b
  | utf8.Rune [b1; b2] => utf8.valid2 b1 b2
  | utf8.Rune [b1; b2; b3] => utf8.valid3 b1 b2 b3
  | utf8.Rune [b1; b2; b3; b4] => utf8.valid4 b1 b2 b3 b4
  | utf8.Rune _ => false
  | utf8.BadByte b => negb (utf8.is_ascii b)
  end.

Ltac to_arith :=
  unfold utf8.valid2, utf8.valid3, utf8.valid4, utf8.is_ascii, utf8.cont, in_range in *;
  repeat match goal with
  | H : _ /\ _ |- _ => destruct H
  | H : _ \/ _ |- _ => destruct H
  | H : andb _ _ = true |- _ => apply andb_true_iff in H
  | H : orb _ _ = true |- _ => apply orb_true_iff in H
  | H : andb _ _ = false |- _ => apply andb_false_iff in H
  | H : orb _ _ = false |- _ => apply orb_false_iff in H
  | H : negb _ = true |- _ => apply negb_true_iff in H
  | H : negb _ = false |- _ => apply negb_false_iff in H
  | H : (_ <=? _)%N = true |- _ => apply N.leb_le in H
  | H : (_ <=? _)%N = false |- _ => apply N.leb_gt in H
  | H : (_ <? _)%N = true |- _ => apply N.ltb_lt in H
  | H : (_ <? _)%N = false |- _ => apply N.ltb_ge in H
  | H : (_ =? _)%N = true |- _ => apply N.eqb_eq in H
  | H : (_ =? _)%N = false |- _ => apply N.eqb_neq in H
  end.

Lemma valid2_first (b1 b2 : byte) :
  utf8.valid2 b1 b2 = true -> utf8.is_ascii b1 = false.
Proof.
  intros H. destruct (utf8.is_ascii b1) eqn:E; [|reflexivity]. to_arith; lia.
Qed.

Lemma valid3_first (b1 b2 b3 : byte) :
  utf8.valid3 b1 b2 b3 = true ->
  utf8.is_ascii b1 = false /\ forall x, utf8.valid2 b1 x = false.
Proof.
  intros H. split.
  - destruct (utf8.is_ascii b1) eqn:E; [|reflexivity]. to_arith; lia.
  - intros x. destruct (utf8.valid2 b1 x) eqn:E; [|reflexivity]. to_arith; lia.
Qed.

Lemma valid4_first (b1 b2 b3 b4 : byte) :
  utf8.valid4 b1 b2 b3 b4 = true ->
  utf8.is_ascii b1 = false
  /\ (forall x, utf8.valid2 b1 x = false)
  /\ (forall x y, utf8.valid3 b1 x y = false).
Proof.
  intros H. split; [|split].
  - destruct (utf8.is_ascii b1) eqn:E; [|reflexivity]. to_arith; lia.
  - intros x. destruct (utf8.valid2 b1 x) eqn:E; [|reflexivity]. to_arith; lia.
  - intros x y. destruct (utf8.valid3 b1 x y) eqn:E; [|reflexivity]. to_arith; lia.
Qed.

Lemma chunks_app_rune (bs t : list byte) :
  wf_chunk (utf8.Rune bs) = true -> utf8.chunks (bs ++ t) = utf8.Rune bs :: utf8.chunks t.
Proof.
  destruct bs as [|b1 [|b2 [|b3 [|b4 [|]]]]]; cbn [wf_chunk]; try discriminate; intros H.
  - cbn. now rewrite H.
  - cbn. now rewrite (valid2_first _ _ H), H.
  - destruct (valid3_first _ _ _ H) as [H1 H2]. cbn. now rewrite H1, H2, H.
  - destruct (valid4_first _ _ _ _ H) as (H1 & H2 & H3). cbn. now rewrite H1, H2, H3, H.
Qed.

Lemma chunks_cons_bad (b : byte) (t : list byte) :
  utf8.chunks (b :: t) = utf8.BadByte b :: utf8.chunks t \/
  exists bs t', b :: t = bs ++ t' /\ wf_chunk (utf8.Rune bs) = true
                /\ utf8.chunks (b :: t) = utf8.Rune bs :: utf8.chunks t'.
Proof.
  cbn [utf8.chunks].
  destruct (utf8.is_ascii b) eqn:E1.
  { right. exists [b], t. auto. }
  destruct t as [|b2 t2]; [left; reflexivity|].
  destruct (utf8.valid2 b b2) eqn:E2.
  { right. exists [b; b2], t2. auto. }
  destruct t2 as [|b3 t3]; [left; reflexivity|].
  destruct (utf8.valid3 b b2 b3) eqn:E3.
  { right. exists [b; b2; b3], t3. auto. }
  destruct t3 as [|b4 t4]; [left; reflexivity|].
  destruct (utf8.valid4 b b2 b3 b4) eqn:E4.
  { right. exists [b; b2; b3; b4], t4. auto. }
  left; reflexivity.
Qed.

(** How [chunks] cuts a string: at the head a well-formed rune, or a byte
    that starts none. *)
Lemma chunks_ind (P : list byte -> Prop) :
  P [] ->
  (forall bs t,
      wf_chunk (utf8.Rune bs) = true ->
      utf8.chunks (bs ++ t) = utf8.Rune bs :: utf8.chunks t ->
      P t -> P (bs ++ t)) ->
  (forall b t,
      utf8.is_ascii b = false ->
      utf8.chunks (b :: t) = utf8.BadByte b :: utf8.chunks t ->
      P t -> P (b :: t)) ->
  forall s, P s.
Proof.
  intros Hnil Hrune Hbad s.
  remember (length s) as n eqn:Hn. revert s Hn.
  induction n as [n IH] using lt_wf_ind. intros [|b t] Hn; [exact Hnil|].
  destruct (chunks_cons_bad b t) as [Hb|(bs & t' & Heq & Hwf & Hc)].
  - apply Hbad; [|exact Hb|].
    + cbn [utf8.chunks] in Hb. destruct (utf8.is_ascii b); [discriminate|reflexivity].
    + apply (IH (length t)); [cbn in Hn; lia | reflexivity].
  - rewrite Heq in *. apply Hrune; [exact Hwf | exact Hc |].
    apply (IH (length t')); [|reflexivity].
    subst n. rewrite length_app. destruct bs; [discriminate|]. cbn. lia.
Qed.

Lemma chunks_bytes (s : list byte) : concat (chunk_bytes <$> utf8.chunks s) = s.
Proof.
  induction s as [|bs t Hwf Hc IH|b t Hb Hc IH] using chunks_ind.
  - reflexivity.
  - rewrite Hc. cbn. now rewrite IH.
  - rewrite Hc. cbn. now rewrite IH.
Qed.

Lemma chunks_wf (s : list byte) : Forall (fun c => wf_chunk c = true) (utf8.chunks s).
Proof.
  induction s as [|bs t Hwf Hc IH|b t Hb Hc IH] using chunks_ind.
  - constructor.
  - rewrite Hc. now constructor.
  - rewrite Hc. constructor; [cbn; now rewrite Hb | exact IH].
Qed.

Lemma chunks_app (cs : list utf8.chunk) (t : list byte) :
  Forall (fun c => wf_chunk c = true /\ utf8.chunk_valid c = true) cs ->
  utf8.chunks (concat (chunk_bytes <$> cs) ++ t) = cs ++ utf8.chunks t.
Proof.
  induction 1 as [|c cs [Hwf Hv] _ IH]; [reflexivity|].
  destruct c as [bs|b]; [|discriminate]. cbn [fmap list_fmap concat chunk_bytes].
  rewrite <- app_assoc, (chunks_app_rune _ _ Hwf), IH. reflexivity.
Qed.

(** ** String literals *)

(** What a chunk of a string is after [quote] and [unquote]. *)
Definition out (c : utf8.chunk) : list byte :=
  match c with
  | utf8.Rune bs => bs
  | utf8.BadByte _ => utf8.replacement
  end.

(** [strings.ToValidUTF8] with U+FFFD for each byte that starts no rune. *)
Definition sanitize (s : list byte) : list byte := concat (out <$> utf8.chunks s).

Definition plain (b : byte) : bool :=
  negb (b =? dquote)%char && negb (b =? bslash)%char && negb (code b <? 32)%N.

Lemma scan_plain (b : byte) (X : list byte) :
  plain b = true ->
  json.scan_string (b :: X) = prod_map (cons b) id <$> json.scan_string X.
Proof.
  unfold plain. intros H.
  apply andb_prop in H as [H H3]. apply andb_prop in H as [H1 H2].
  apply negb_true_iff in H1, H2, H3.
  cbn [json.scan_string]. now rewrite H1, H2, H3.
Qed.

Lemma high_plain (b : byte) : (128 <= code b)%N -> plain b = true.
Proof.
  intros H. unfold plain.
  assert (E1 : (b =? dquote)%char = false).
  { apply Ascii.eqb_neq. intros ->. vm_compute in H. congruence. }
  assert (E2 : (b =? bslash)%char = false).
  { apply Ascii.eqb_neq. intros ->. vm_compute in H. congruence. }
  rewrite E1, E2. cbn. apply negb_true_iff, N.ltb_ge. lia.
Qed.

Lemma scan_plain_list (l X : list byte) :
  Forall (fun b => plain b = true) l ->
  json.scan_string (l ++ X) = prod_map (app l) id <$> json.scan_string X.
Proof.
  induction 1 as [|b l Hb _ IH].
  - cbn. destruct (json.scan_string X) as [[]|]; reflexivity.
  - cbn [app]. rewrite (scan_plain b _ Hb), IH.
    destruct (json.scan_string X) as [[]|]; reflexivity.
Qed.

Definition needs_escape (b : byte) : bool :=
  (code b <? 32)%N || (b =? dquote)%char || (b =? bslash)%char
  || (b =? "<")%char || (b =? ">")%char || (b =? "&")%char.

Lemma byte_cases (P : byte -> Prop) (k : nat) :
  (forall n : nat, n < k -> P (byte_of (N.of_nat n))) ->
  forall b, (code b < N.of_nat k)%N -> P b.
Proof.
  intros HP b Hb. rewrite <- (byte_of_code b), <- (N2Nat.id (code b)). apply HP. lia.
Qed.

Lemma needs_escape_cases (P : byte -> Prop) :
  (forall n : nat, n < 32 -> P (byte_of (N.of_nat n))) ->
  P dquote -> P bslash -> P "<"%char -> P ">"%char -> P "&"%char ->
  forall b, needs_escape b = true -> P b.
Proof.
  intros H32 H1 H2 H3 H4 H5 b. unfold needs_escape.
  rewrite !orb_true_iff, !Ascii.eqb_eq, N.ltb_lt.
  intros [[[[[H| ->]| ->]| ->]| ->]| ->]; auto.
  now apply (byte_cases P 32).
Qed.

Lemma escape_ascii_plain (b : byte) :
  needs_escape b = false -> json.escape_ascii b = [b] /\ plain b = true.
Proof.
  unfold needs_escape, json.escape_ascii, plain.
  rewrite !orb_false_iff. intros [[[[[H0 H1] H2] H3] H4] H5].
  rewrite H0, H1, H2, H3, H4, H5. apply N.ltb_ge in H0.
  repeat match goal with
  | |- context [(code b =? ?n)%N] => destruct (N.eqb_spec (code b) n); [lia|]
  end.
  split; reflexivity.
Qed.

Lemma scan_escape_ascii (b : byte) (X : list byte) :
  json.scan_string (json.escape_ascii b ++ X)
  = prod_map (app (json.escape_ascii b)) id <$> json.scan_string X.
Proof.
  destruct (needs_escape b) eqn:E.
  - revert b E. apply needs_escape_cases; try reflexivity.
    intros n Hn. do 32 (destruct n as [|n]; [reflexivity|]). lia.
  - destruct (escape_ascii_plain b E) as [-> Hp]. now apply scan_plain.
Qed.

Lemma wf_rune_high (bs : list byte) :
  wf_chunk (utf8.Rune bs) = true -> (1 < length bs)%nat ->
  Forall (fun b => (128 <= code b)%N) bs.
Proof.
  destruct bs as [|b1 [|b2 [|b3 [|b4 [|]]]]]; cbn [wf_chunk length];
    try discriminate; try lia; intros H _; repeat constructor; to_arith; lia.
Qed.

Lemma byte_of_code_eq (b : byte) (n : N) : code b = n -> b = byte_of n.
Proof. intros <-. symmetry. apply byte_of_code. Qed.

Lemma is_line_sep_Some (bs : list byte) (d : byte) :
  json.is_line_sep bs = Some d ->
  (bs = [byte_of 226; byte_of 128; byte_of 168] /\ d = "8"%char)
  \/ (bs = [byte_of 226; byte_of 128; byte_of 169] /\ d = "9"%char).
Proof.
  destruct bs as [|b1 [|b2 [|b3 [|]]]]; cbn [json.is_line_sep]; try discriminate.
  destruct (N.eqb_spec (code b1) 226) as [E1|]; [|discriminate].
  destruct (N.eqb_spec (code b2) 128) as [E2|]; [|discriminate]. cbn [andb].
  apply byte_of_code_eq in E1, E2. subst b1 b2.
  destruct (N.eqb_spec (code b3) 168) as [E3|].
  - intros [= Hd]. subst d. left. apply byte_of_code_eq in E3. now subst b3.
  - destruct (N.eqb_spec (code b3) 169) as [E4|]; [|discriminate].
    intros [= Hd]. subst d. right. apply byte_of_code_eq in E4. now subst b3.
Qed.

Lemma scan_quote_chunk (c : utf8.chunk) (X : list byte) :
  wf_chunk c = true ->
  json.scan_string (json.quote_chunk c ++ X)
  = prod_map (app (json.quote_chunk c)) id <$> json.scan_string X.
Proof.
  intros Hwf. destruct c as [bs|b]; [|reflexivity].
  destruct bs as [|b1 [|b2 bs]]; [discriminate | apply scan_escape_ascii |].
  cbn [json.quote_chunk].
  destruct (json.is_line_sep (b1 :: b2 :: bs)) as [d|] eqn:E.
  - apply is_line_sep_Some in E as [[_ ->]|[_ ->]]; reflexivity.
  - apply scan_plain_list.
    eapply Forall_impl; [apply (wf_rune_high _ Hwf); cbn; lia|].
    intros b Hb. now apply high_plain.
Qed.

Lemma scan_escape (s rest : list byte) :
  json.scan_string (json.escape s ++ dquote :: rest) = Some (json.escape s, rest).
Proof.
  unfold json.escape. pose proof (chunks_wf s) as Hwf.
  induction Hwf as [|c cs Hc _ IH]; [reflexivity|].
  cbn [fmap list_fmap concat]. fold (fmap (M:=list) json.quote_chunk cs).
  rewrite <- app_assoc, (scan_quote_chunk c _ Hc), IH. reflexivity.
Qed.

(** *** Unquoting *)

Lemma chunks_ascii (b : byte) (X : list byte) :
  utf8.is_ascii b = true -> utf8.chunks (b :: X) = utf8.Rune [b] :: utf8.chunks X.
Proof. intros H. cbn [utf8.chunks]. now rewrite H. Qed.

Lemma needs_escape_ascii (b : byte) : needs_escape b = true -> utf8.is_ascii b = true.
Proof.
  revert b. apply needs_escape_cases; try reflexivity.
  intros n Hn. do 32 (destruct n as [|n]; [reflexivity|]). lia.
Qed.

Lemma unquote_escape_ascii (b : byte) :
  utf8.is_ascii b = true ->
  exists it,
    (forall X, json.items (utf8.chunks (json.escape_ascii b ++ X))
               = cons it <$> json.items (utf8.chunks X))
    /\ (forall l, json.assemble (it :: l) = b :: json.assemble l).
Proof.
  intros Hb. destruct (needs_escape b) eqn:E.
  - clear Hb. revert b E. apply needs_escape_cases.
    1:{ intros n Hn.
        do 32 (destruct n as [|n];
               [eexists; split; [intros X; reflexivity | intros l; reflexivity]|]).
        lia. }
    all: eexists; split; [intros X; reflexivity | intros l; reflexivity].
  - destruct (escape_ascii_plain b E) as [-> Hp].
    exists (json.Lit [b]). split; [|reflexivity].
    intros X. cbn [app]. rewrite (chunks_ascii b X Hb). cbn [json.items].
    unfold plain in Hp.
    apply andb_prop in Hp as [Hp H3]. apply andb_prop in Hp as [H1 H2].
    apply negb_true_iff in H1, H2, H3. now rewrite H2, H1, H3.
Qed.

Lemma unquote_quote_chunk (c : utf8.chunk) :
  wf_chunk c = true ->
  exists it,
    (forall X, json.items (utf8.chunks (json.quote_chunk c ++ X))
               = cons it <$> json.items (utf8.chunks X))
    /\ (forall l, json.assemble (it :: l) = out c ++ json.assemble l).
Proof.
  intros Hwf. destruct c as [bs|b].
  2:{ eexists. split; [intros X; reflexivity | intros l; reflexivity]. }
  destruct bs as [|b1 [|b2 bs]]; [discriminate | |].
  { apply unquote_escape_ascii. exact Hwf. }
  cbn [json.quote_chunk out].
  destruct (json.is_line_sep (b1 :: b2 :: bs)) as [d|] eqn:E.
  - apply is_line_sep_Some in E as [[-> ->]|[-> ->]];
      eexists; (split; [intros X; reflexivity | intros l; reflexivity]).
  - exists (json.Lit (b1 :: b2 :: bs)). split; [|reflexivity].
    intros X. rewrite (chunks_app_rune _ _ Hwf). reflexivity.
Qed.

Lemma unquote_escape (s : list byte) : json.unquote (json.escape s) = Some (sanitize s).
Proof.
  unfold json.unquote, json.escape, sanitize. pose proof (chunks_wf s) as Hwf.
  assert (H : exists its,
             json.items (utf8.chunks (concat (json.quote_chunk <$> utf8.chunks s)))
             = Some its
             /\ json.assemble its = concat (out <$> utf8.chunks s)).
  { induction Hwf as [|c cs Hc _ (its & Hits & Hasm)].
    - exists []. split; reflexivity.
    - destruct (unquote_quote_chunk c Hc) as (it & Hit & Hout).
      exists (it :: its). cbn [fmap list_fmap concat].
      fold (fmap (M:=list) json.quote_chunk cs). fold (fmap (M:=list) out cs).
      rewrite Hit, Hits, Hout, Hasm. split; reflexivity. }
  destruct H as (its & -> & <-). reflexivity.
Qed.

Lemma sanitize_valid (s : string) :
  utf8.ValidString s = true ->
  sanitize (list_ascii_of_string s) = list_ascii_of_string s.
Proof.
  unfold utf8.ValidString, sanitize. intros Hv.
  rewrite <- (chunks_bytes (list_ascii_of_string s)) at 2.
  f_equal. apply Forall_fmap_ext_1.
  rewrite forallb_forall in Hv. apply Forall_forall.
  intros [bs|b] Hc%list_elem_of_In; [reflexivity|].
  specialize (Hv _ Hc). discriminate Hv.
Qed.

Lemma parse_string_quote (s : string) (rest : list byte) :
  utf8.ValidString s = true ->
  json.parse_string (json.escape (list_ascii_of_string s) ++ dquote :: rest)
  = Some (s, rest).
Proof.
  intros Hv. unfold json.parse_string. rewrite scan_escape. cbn.
  rewrite unquote_escape. cbn.
  now rewrite (sanitize_valid s Hv), string_of_list_ascii_of_string.
Qed.

(** ** Number literals *)

Definition no_digit_head (s : list byte) : Prop :=
  match s with
  | [] => True
  | c :: _ => json.digit c = None
  end.

(** What may follow a number: not a digit, a point or an exponent. *)
Definition number_end (s : list byte) : Prop :=
  match s with
  | [] => True
  | c :: _ =>
      json.digit c = None /\ (c =? ".")%char = false
      /\ (c =? "e")%char = false /\ (c =? "E")%char = false
  end.

Lemma number_end_no_digit (s : list byte) : number_end s -> no_digit_head s.
Proof. destruct s; cbn; tauto. Qed.

Lemma scan_digits_uint (d : Decimal.uint) (rest : list byte) :
  no_digit_head rest -> json.scan_digits (json.uint_bytes d ++ rest) = (d, rest).
Proof.
  intros Hr. induction d as [|d IH|d IH|d IH|d IH|d IH|d IH|d IH|d IH|d IH|d IH];
    cbn [json.uint_bytes app];
    [|cbn [json.scan_digits]; change (json.digit _) with (Some Decimal.D0) at 1
     |cbn [json.scan_digits]; change (json.digit _) with (Some Decimal.D1) at 1
     |cbn [json.scan_digits]; change (json.digit _) with (Some Decimal.D2) at 1
     |cbn [json.scan_digits]; change (json.digit _) with (Some Decimal.D3) at 1
     |cbn [json.scan_digits]; change (json.digit _) with (Some Decimal.D4) at 1
     |cbn [json.scan_digits]; change (json.digit _) with (Some Decimal.D5) at 1
     |cbn [json.scan_digits]; change (json.digit _) with (Some Decimal.D6) at 1
     |cbn [json.scan_digits]; change (json.digit _) with (Some Decimal.D7) at 1
     |cbn [json.scan_digits]; change (json.digit _) with (Some Decimal.D8) at 1
     |cbn [json.scan_digits]; change (json.digit _) with (Some Decimal.D9) at 1];
    try (rewrite IH; reflexivity).
  destruct rest as [|c r]; [reflexivity|]. cbn in Hr. cbn [json.scan_digits]. now rewrite Hr.
Qed.

Lemma int_ok_unorm (d : Decimal.uint) : json.int_ok (Decimal.unorm d) = true.
Proof.
  unfold Decimal.unorm. pose proof (DecimalFacts.nzhead_nonzero d) as Hnz.
  destruct (Decimal.nzhead d) eqn:E; try reflexivity.
  exfalso. now apply (Hnz u).
Qed.

Lemma int_ok_to_uint (n : N) : json.int_ok (N.to_uint n) = true.
Proof.
  rewrite <- (DecimalN.Unsigned.of_to n) at 1.
  rewrite DecimalN.Unsigned.to_of. apply int_ok_unorm.
Qed.

Lemma int_ok_nonnil (d : Decimal.uint) : json.int_ok d = true -> json.nonnil d = true.
Proof. destruct d; cbn; congruence. Qed.

(** The digits of an integer as [Z.to_int] gives them. *)
Lemma to_int_cases (z : Z) :
  exists d, json.int_ok d = true
            /\ (Z.to_int z = Decimal.Pos d \/ Z.to_int z = Decimal.Neg d).
Proof.
  destruct z as [|p|p]; cbn.
  - exists Decimal.zero. split; [reflexivity | now left].
  - exists (Pos.to_uint p). split; [apply (int_ok_to_uint (N.pos p)) | now left].
  - exists (Pos.to_uint p). split; [apply (int_ok_to_uint (N.pos p)) | now right].
Qed.

Lemma uint_bytes_head (d : Decimal.uint) (rest : list byte) :
  json.nonnil d = true ->
  exists c t, json.uint_bytes d ++ rest = c :: t
              /\ json.digit c <> None
              /\ (c =? "-")%char = false /\ (c =? "+")%char = false.
Proof.
  destruct d; cbn [json.nonnil]; try discriminate; intros _;
    eexists _, _; (split; [reflexivity|split; [discriminate | split; reflexivity]]).
Qed.

Lemma scan_sign_int (z : Z) (rest : list byte) :
  no_digit_head rest ->
  exists neg d,
    json.int_ok d = true
    /\ json.signed neg d = z
    /\ json.scan_sign (json.int_bytes z ++ rest) = (neg, json.uint_bytes d ++ rest).
Proof.
  intros Hr. destruct (to_int_cases z) as (d & Hok & [E|E]).
  - exists false, d. split; [exact Hok|]. split.
    + unfold json.signed. rewrite <- E. apply DecimalZ.of_to.
    + unfold json.int_bytes. rewrite E.
      destruct (uint_bytes_head d rest (int_ok_nonnil d Hok)) as (c & t & -> & _ & Hm & _).
      cbn [json.scan_sign]. now rewrite Hm.
  - exists true, d. split; [exact Hok|]. split.
    + unfold json.signed. rewrite <- E. apply DecimalZ.of_to.
    + unfold json.int_bytes. rewrite E. reflexivity.
Qed.

Lemma scan_exp_int (e : Z) (rest : list byte) :
  number_end rest ->
  json.scan_exp ((if (e =? 0)%Z then [] else "e"%char :: json.int_bytes e) ++ rest)
  = Some (e, rest).
Proof.
  intros Hr. destruct (Z.eqb_spec e 0) as [->|Hne].
  - cbn [app]. destruct rest as [|c r]; [reflexivity|].
    cbn in Hr. destruct Hr as (_ & _ & He & HE).
    cbn [json.scan_exp]. now rewrite He, HE.
  - cbn [app json.scan_exp]. change (("e" =? "e")%char) with true. cbn [orb].
    destruct (to_int_cases e) as (d & Hok & [E|E]); unfold json.int_bytes; rewrite E.
    + destruct (uint_bytes_head d rest (int_ok_nonnil d Hok)) as (c & t & Hct & _ & Hm & Hp).
      rewrite Hct, Hp, Hm, <- Hct.
      rewrite (scan_digits_uint d rest (number_end_no_digit _ Hr)).
      rewrite (int_ok_nonnil d Hok). unfold json.signed. rewrite <- E.
      now rewrite DecimalZ.of_to.
    + cbn [app]. change (("-" =? "+")%char) with false. change (("-" =? "-")%char) with true.
      cbn iota.
      rewrite (scan_digits_uint d rest (number_end_no_digit _ Hr)).
      rewrite (int_ok_nonnil d Hok). unfold json.signed. rewrite <- E.
      now rewrite DecimalZ.of_to.
Qed.

Lemma number_end_exp (e : Z) (rest : list byte) :
  number_end rest ->
  number_end ((if (e =? 0)%Z then [] else "e"%char :: json.int_bytes e) ++ rest)
  \/ exists t, (if (e =? 0)%Z then [] else "e"%char :: json.int_bytes e) ++ rest
               = "e"%char :: t.
Proof.
  intros Hr. destruct (e =? 0)%Z; [now left | right; eauto].
Qed.

Lemma parse_number_bytes (m e : Z) (rest : list byte) :
  number_end rest ->
  json.parse_number (json.number_bytes m e ++ rest) = Some (m, e, rest).
Proof.
  intros Hr. unfold json.number_bytes, json.parse_number.
  rewrite <- app_assoc.
  set (tail := (if (e =? 0)%Z then [] else "e"%char :: json.int_bytes e) ++ rest).
  assert (Htail : no_digit_head tail /\ json.scan_frac tail = Some (Decimal.Nil, tail)).
  { destruct (number_end_exp e rest Hr) as [Hn|[t Ht]]; fold tail in Hn || fold tail in Ht.
    - split; [now apply number_end_no_digit|].
      destruct tail as [|c r]; [reflexivity|]. cbn in Hn. destruct Hn as (_ & Hp & _).
      cbn [json.scan_frac]. now rewrite Hp.
    - rewrite Ht. split; reflexivity. }
  destruct Htail as [Hnd Hfrac].
  destruct (scan_sign_int m tail Hnd) as (neg & d & Hok & Hval & ->).
  rewrite (scan_digits_uint d tail Hnd), Hok, Hfrac. cbn [mbind option_bind].
  unfold tail. rewrite (scan_exp_int e rest Hr). cbn [mbind option_bind].
  rewrite DecimalFacts.app_nil_r, Hval. cbn [Decimal.nb_digits].
  do 3 f_equal. lia.
Qed.

(** ** Documents *)

Lemma doc_ind' (P : json.doc -> Prop) :
  P json.Null -> (forall b, P (json.Bool b)) -> (forall m e, P (json.Number m e)) ->
  (forall s, P (json.Str s)) ->
  (forall l, Forall P l -> P (json.Array l)) ->
  (forall l, Forall (fun kv => P kv.2) l -> P (json.Object l)) ->
  forall j, P j.
Proof.
  intros HNull HBool HNum HStr HArr HObj. fix IH 1. intros [ |b|m e|s|l|l].
  - exact HNull.
  - apply HBool.
  - apply HNum.
  - apply HStr.
  - apply HArr. induction l as [|x l IHl]; constructor; [apply IH | exact IHl].
  - apply HObj. induction l as [|[k x] l IHl]; constructor; [apply IH | exact IHl].
Qed.

(** What follows a value in a rendered document. *)
Definition value_end (s : list byte) : Prop :=
  match s with
  | [] => True
  | c :: _ => c = ","%char \/ c = "]"%char \/ c = "}"%char
  end.

Lemma value_end_number_end (s : list byte) : value_end s -> number_end s.
Proof.
  destruct s as [|c r]; [trivial|]. cbn. intros [-> | [-> | ->]]; repeat split.
Qed.

(** The first byte of a rendered value. *)
Definition value_start (c : byte) : Prop :=
  json.is_space c = false /\ (c =? "]")%char = false /\ (c =? "}")%char = false
  /\ (c =? ",")%char = false.

Lemma digit_start (c : byte) : json.digit c <> None -> value_start c /\ in_range 48 57 c = true.
Proof.
  unfold json.digit. intros H.
  assert (Hc : (48 <= code c <= 57)%N).
  { destruct (code c) as [|p]; [congruence|].
    do 6 (destruct p as [p|p|]; try congruence); lia. }
  assert (E : c = byte_of (code c)) by (symmetry; apply byte_of_code).
  assert (Hn : exists n, (n < 10)%nat /\ code c = (48 + N.of_nat n)%N).
  { exists (N.to_nat (code c - 48)). lia. }
  destruct Hn as (n & Hn & Hcn). rewrite E, Hcn.
  do 10 (destruct n as [|n]; [repeat split|]). lia.
Qed.

Lemma uint_bytes_start (d : Decimal.uint) (rest : list byte) :
  json.nonnil d = true ->
  exists c t, json.uint_bytes d ++ rest = c :: t /\ json.digit c <> None.
Proof.
  intros H. destruct (uint_bytes_head d rest H) as (c & t & ? & ? & _). eauto.
Qed.

Lemma number_bytes_start (m e : Z) (rest : list byte) :
  exists c t, json.number_bytes m e ++ rest = c :: t
              /\ value_start c
              /\ ((c =? "-")%char || in_range 48 57 c = true)
              /\ (c =? "n")%char = false /\ (c =? "t")%char = false
              /\ (c =? "f")%char = false /\ (c =? dquote)%char = false
              /\ (c =? "[")%char = false /\ (c =? "{")%char = false.
Proof.
  unfold json.number_bytes. rewrite <- app_assoc.
  generalize ((if (e =? 0)%Z then [] else "e"%char :: json.int_bytes e) ++ rest).
  intros tail. unfold json.int_bytes.
  destruct (to_int_cases m) as (d & Hok & [E|E]); rewrite E.
  - destruct (uint_bytes_start d tail (int_ok_nonnil d Hok)) as (c & t & -> & Hd).
    exists c, t. split; [reflexivity|].
    destruct (digit_start c Hd) as [Hs Hr]. split; [exact Hs|]. rewrite Hr.
    split; [apply orb_true_r|].
    unfold in_range in Hr. apply andb_prop in Hr as [H1 H2].
    apply N.leb_le in H1, H2.
    repeat split; apply Ascii.eqb_neq; intros ->; vm_compute in H1, H2; congruence.
  - eexists _, _. split; [reflexivity|]. repeat split.
Qed.

Lemma render_start (j : json.doc) (rest : list byte) :
  exists c t, json.render j ++ rest = c :: t /\ value_start c.
Proof.
  destruct j as [ |[]|m e|s|l|l];
    try (eexists _, _; split; [reflexivity|repeat split]).
  destruct (number_bytes_start m e rest) as (c & t & H & Hs & _). eauto.
Qed.

Lemma skip_ws_start (c : byte) (t : list byte) :
  value_start c -> json.skip_ws (c :: t) = c :: t.
Proof. intros [H _]. cbn [json.skip_ws]. now rewrite H. Qed.

Lemma skip_ws_render (j : json.doc) (rest : list byte) :
  json.skip_ws (json.render j ++ rest) = json.render j ++ rest.
Proof.
  destruct (render_start j rest) as (c & t & -> & Hs). now apply skip_ws_start.
Qed.

(** *** Unfolding the parser at each first byte *)

Lemma parse_value_null (f d : nat) (r : list byte) :
  json.parse_value (S f) d ("n"%char :: r)
  = pair json.Null <$> json.strip_prefix (list_ascii_of_string "ull") r.
Proof. reflexivity. Qed.

Lemma parse_value_true (f d : nat) (r : list byte) :
  json.parse_value (S f) d ("t"%char :: r)
  = pair (json.Bool true) <$> json.strip_prefix (list_ascii_of_string "rue") r.
Proof. reflexivity. Qed.

Lemma parse_value_false (f d : nat) (r : list byte) :
  json.parse_value (S f) d ("f"%char :: r)
  = pair (json.Bool false) <$> json.strip_prefix (list_ascii_of_string "alse") r.
Proof. reflexivity. Qed.

Lemma parse_value_string (f d : nat) (r : list byte) :
  json.parse_value (S f) d (dquote :: r) = prod_map json.Str id <$> json.parse_string r.
Proof. reflexivity. Qed.

Lemma parse_value_array (f d : nat) (r : list byte) :
  json.parse_value (S f) d ("["%char :: r)
  = if (json.maxNestingDepth <? S d)%nat then None else
    match json.skip_ws r with
    | c1 :: r1 =>
        if (c1 =? "]")%char then Some (json.Array [], r1)
        else
          '(v, r2) ← json.parse_value f (S d) r;
          '(l, r3) ← json.parse_array_tail f (S d) r2;
          Some (json.Array (v :: l), r3)
    | [] => None
    end.
Proof. reflexivity. Qed.

Lemma parse_value_object (f d : nat) (r : list byte) :
  json.parse_value (S f) d ("{"%char :: r)
  = if (json.maxNestingDepth <? S d)%nat then None else
    match json.skip_ws r with
    | c1 :: r1 =>
        if (c1 =? "}")%char then Some (json.Object [], r1)
        else
          '(k, v, r2) ← json.parse_member (json.parse_value f) (S d) r;
          '(l, r3) ← json.parse_object_tail f (S d) r2;
          Some (json.Object ((k, v) :: l), r3)
    | [] => None
    end.
Proof. reflexivity. Qed.

Lemma parse_value_number (f d : nat) (c : byte) (r : list byte) :
  value_start c ->
  (c =? "-")%char || in_range 48 57 c = true ->
  (c =? "n")%char = false -> (c =? "t")%char = false -> (c =? "f")%char = false ->
  (c =? dquote)%char = false -> (c =? "[")%char = false -> (c =? "{")%char = false ->
  json.parse_value (S f) d (c :: r)
  = '(m, e, r1) ← json.parse_number (c :: r); Some (json.Number m e, r1).
Proof.
  intros Hs Hn H1 H2 H3 H4 H5 H6. cbn [json.parse_value].
  rewrite (skip_ws_start c r Hs), H1, H2, H3, H4, H5, H6, Hn. reflexivity.
Qed.

Lemma parse_array_tail_end (f d : nat) (r : list byte) :
  json.parse_array_tail (S f) d ("]"%char :: r) = Some ([], r).
Proof. reflexivity. Qed.

Lemma parse_array_tail_comma (f d : nat) (r : list byte) :
  json.parse_array_tail (S f) d (","%char :: r)
  = '(v, r1) ← json.parse_value f d r;
    '(l, r2) ← json.parse_array_tail f d r1;
    Some (v :: l, r2).
Proof. reflexivity. Qed.

Lemma parse_object_tail_end (f d : nat) (r : list byte) :
  json.parse_object_tail (S f) d ("}"%char :: r) = Some ([], r).
Proof. reflexivity. Qed.

Lemma parse_object_tail_comma (f d : nat) (r : list byte) :
  json.parse_object_tail (S f) d (","%char :: r)
  = '(k, v, r1) ← json.parse_member (json.parse_value f) d r;
    '(l, r2) ← json.parse_object_tail f d r1;
    Some ((k, v) :: l, r2).
Proof. reflexivity. Qed.

Lemma parse_member_quote (pv : nat -> list byte -> option (json.doc * list byte))
    (d : nat) (r : list byte) :
  json.parse_member pv d (dquote :: r)
  = '(k, r1) ← json.parse_string r;
    match json.skip_ws r1 with
    | c1 :: r2 =>
        if (c1 =? ":")%char then '(v, r3) ← pv d r2; Some (k, v, r3) else None
    | [] => None
    end.
Proof. reflexivity. Qed.

(** *** Rendered text *)

Definition array_tail (l : list json.doc) : list byte :=
  concat ((fun x => ","%char :: json.render x) <$> l).

Definition member_text (kv : string * json.doc) : list byte :=
  json.quote kv.1 ++ ":"%char :: json.render kv.2.

Definition object_tail (l : list (string * json.doc)) : list byte :=
  concat ((fun kv => ","%char :: member_text kv) <$> l).

Lemma join_cons (sep : byte) (p : list byte) (ps : list (list byte)) :
  json.join sep (p :: ps) = p ++ concat (cons sep <$> ps).
Proof.
  revert p. induction ps as [|q ps IH]; intros p.
  - cbn. now rewrite app_nil_r.
  - change (json.join sep (p :: q :: ps)) with (p ++ sep :: json.join sep (q :: ps)).
    rewrite IH. reflexivity.
Qed.

Lemma render_array_cons (x : json.doc) (l : list json.doc) :
  json.render (json.Array (x :: l))
  = "["%char :: json.render x ++ array_tail l ++ ["]"%char].
Proof.
  cbn [json.render]. rewrite fmap_cons, join_cons. unfold array_tail.
  rewrite <- list_fmap_compose, <- app_assoc. reflexivity.
Qed.

Lemma render_object_cons (kv : string * json.doc) (l : list (string * json.doc)) :
  json.render (json.Object (kv :: l))
  = "{"%char :: member_text kv ++ object_tail l ++ ["}"%char].
Proof.
  cbn [json.render]. rewrite fmap_cons, join_cons. unfold object_tail, member_text.
  rewrite <- list_fmap_compose, <- !app_assoc. reflexivity.
Qed.

Lemma array_tail_cons (x : json.doc) (l : list json.doc) :
  array_tail (x :: l) = ","%char :: json.render x ++ array_tail l.
Proof. reflexivity. Qed.

Lemma object_tail_cons (kv : string * json.doc) (l : list (string * json.doc)) :
  object_tail (kv :: l) = ","%char :: member_text kv ++ object_tail l.
Proof. reflexivity. Qed.

Definition parses (x : json.doc) : Prop :=
  forall fuel depth rest,
    length (json.render x) <= fuel ->
    depth + jdepth x <= json.maxNestingDepth ->
    value_end rest ->
    json.parse_value fuel depth (json.render x ++ rest) = Some (x, rest).

Lemma parse_array_tail_render (l : list json.doc) :
  Forall parses l ->
  forall fuel depth rest,
    length (array_tail l) < fuel ->
    depth + foldr (fun x n => Nat.max (jdepth x) n) 0 l <= json.maxNestingDepth ->
    json.parse_array_tail fuel depth (array_tail l ++ "]"%char :: rest) = Some (l, rest).
Proof.
  induction 1 as [|x l Hx _ IH]; intros fuel depth rest Hf Hd.
  - destruct fuel as [|f]; [lia|]. apply parse_array_tail_end.
  - destruct fuel as [|f]; [lia|].
    rewrite array_tail_cons in *. rewrite length_cons, length_app in Hf.
    cbn [app]. rewrite parse_array_tail_comma, <- app_assoc. cbn [foldr] in Hd.
    rewrite (Hx f depth (array_tail l ++ "]"%char :: rest)); [|lia|lia|].
    2:{ destruct l; cbn; auto. }
    cbn [mbind option_bind]. rewrite IH by lia. reflexivity.
Qed.

Lemma parse_string_quote_key (s : string) (rest : list byte) :
  utf8.ValidString s = true ->
  exists r, json.quote s ++ rest = dquote :: r /\ json.parse_string r = Some (s, rest).
Proof.
  intros Hv. exists (json.escape (list_ascii_of_string s) ++ dquote :: rest). split.
  - unfold json.quote. cbn [app]. now rewrite <- app_assoc.
  - now apply parse_string_quote.
Qed.

Lemma parse_member_render (kv : string * json.doc) (f depth : nat) (rest : list byte) :
  utf8.ValidString kv.1 = true ->
  json.parse_value f depth (json.render kv.2 ++ rest) = Some (kv.2, rest) ->
  json.parse_member (json.parse_value f) depth (member_text kv ++ rest)
  = Some (kv.1, kv.2, rest).
Proof.
  intros Hk Hv. unfold member_text. rewrite <- app_assoc.
  destruct (parse_string_quote_key kv.1 ((":"%char :: json.render kv.2) ++ rest) Hk)
    as (r & -> & Hr).
  assert (Hsk : json.skip_ws (dquote :: r) = dquote :: r) by reflexivity.
  unfold json.parse_member. rewrite Hsk. fold (json.parse_member (json.parse_value f)).
  change ((dquote =? dquote)%char) with true. cbn iota.
  rewrite Hr. cbn [mbind option_bind app json.skip_ws].
  change (json.is_space ":") with false. cbn iota.
  change ((":" =? ":")%char) with true. cbn iota.
  rewrite Hv. reflexivity.
Qed.

Lemma length_member_text (kv : string * json.doc) :
  length (json.render kv.2) < length (member_text kv).
Proof.
  unfold member_text, json.quote. rewrite length_app. cbn. lia.
Qed.

Lemma parse_object_tail_render (l : list (string * json.doc)) :
  Forall (fun kv => utf8.ValidString kv.1 = true /\ parses kv.2) l ->
  forall fuel depth rest,
    length (object_tail l) < fuel ->
    depth + foldr (fun kv n => Nat.max (jdepth kv.2) n) 0 l <= json.maxNestingDepth ->
    json.parse_object_tail fuel depth (object_tail l ++ "}"%char :: rest) = Some (l, rest).
Proof.
  induction 1 as [|kv l [Hk Hx] _ IH]; intros fuel depth rest Hf Hd.
  - destruct fuel as [|f]; [lia|]. apply parse_object_tail_end.
  - destruct fuel as [|f]; [lia|].
    rewrite object_tail_cons in *. rewrite length_cons, length_app in Hf.
    pose proof (length_member_text kv) as Hlen.
    cbn [app]. rewrite parse_object_tail_comma, <- app_assoc. cbn [foldr] in Hd.
    rewrite (parse_member_render kv f depth (object_tail l ++ "}"%char :: rest) Hk).
    2:{ apply Hx; [lia|lia|]. destruct l; cbn; auto. }
    cbn [mbind option_bind]. rewrite IH by lia. now destruct kv.
Qed.

Lemma depth_check (depth n : nat) :
  depth + S n <= json.maxNestingDepth -> (json.maxNestingDepth <? S depth)%nat = false.
Proof. intros H. apply Nat.ltb_ge. lia. Qed.

Lemma valid_doc_array (l : list json.doc) :
  valid_doc (json.Array l) = true -> Forall (fun x => valid_doc x = true) l.
Proof.
  cbn [valid_doc]. rewrite forallb_forall. intros H. apply Forall_forall.
  intros x Hx%list_elem_of_In. now apply H.
Qed.

Lemma valid_doc_object (l : list (string * json.doc)) :
  valid_doc (json.Object l) = true ->
  Forall (fun kv => utf8.ValidString kv.1 = true /\ valid_doc kv.2 = true) l.
Proof.
  cbn [valid_doc]. rewrite forallb_forall. intros H. apply Forall_forall.
  intros x Hx%list_elem_of_In. apply andb_prop. now apply H.
Qed.

(** Reading what [render] wrote gives the document back. *)
Lemma parse_value_render (j : json.doc) : valid_doc j = true -> parses j.
Proof.
  induction j as [ |b|m e|s|l IH|l IH] using doc_ind'; intros Hv fuel depth rest Hf Hd Hr.
  - destruct fuel as [|f]; [cbn in Hf; lia|]. reflexivity.
  - destruct fuel as [|f]; [destruct b; cbn in Hf; lia|]. destruct b; reflexivity.
  - destruct (number_bytes_start m e rest)
      as (c & t & Hct & Hs & Hn & H1 & H2 & H3 & H4 & H5 & H6).
    destruct fuel as [|f].
    { cbn [json.render] in Hf. apply (f_equal length) in Hct.
      rewrite length_app in Hct. cbn in Hct.
      assert (length (json.number_bytes m e) = 0) by lia.
      destruct (json.number_bytes m e) eqn:E; [|discriminate].
      unfold json.number_bytes, json.int_bytes in E.
      destruct (to_int_cases m) as (d & Hok & [E'|E']); rewrite E' in E.
      - destruct d; cbn in Hok, E; discriminate.
      - discriminate. }
    cbn [json.render]. rewrite Hct, (parse_value_number f depth c t Hs Hn H1 H2 H3 H4 H5 H6).
    rewrite <- Hct, (parse_number_bytes m e rest (value_end_number_end _ Hr)).
    reflexivity.
  - destruct fuel as [|f]; [cbn in Hf; lia|].
    cbn [json.render valid_doc] in *. unfold json.quote. cbn [app].
    rewrite parse_value_string, <- app_assoc. cbn [app].
    now rewrite (parse_string_quote s rest Hv).
  - destruct fuel as [|f]; [cbn in Hf; lia|].
    apply valid_doc_array in Hv.
    destruct l as [|x l].
    + cbn [json.render json.join fmap list_fmap app].
      rewrite parse_value_array, (depth_check depth 0 Hd).
      reflexivity.
    + rewrite render_array_cons in *. cbn [app].
      rewrite parse_value_array. cbn [jdepth foldr] in Hd.
      rewrite (depth_check depth _ Hd).
      rewrite <- !app_assoc.
      destruct (render_start x (array_tail l ++ ["]"%char] ++ rest))
        as (c & t & Hct & Hs).
      rewrite Hct at 1. rewrite (skip_ws_start c t Hs).
      destruct Hs as (_ & Hs & _). rewrite Hs.
      cbn [length] in Hf. rewrite !length_app in Hf. cbn [length] in Hf.
      inversion IH as [|? ? Hx IHl]; subst. inversion Hv as [|? ? Hvx Hvl]; subst.
      rewrite (Hx Hvx f (S depth) (array_tail l ++ ["]"%char] ++ rest)); [|lia|lia|].
      2:{ destruct l; cbn; auto. }
      cbn [mbind option_bind app].
      rewrite (parse_array_tail_render l); [reflexivity| |lia|lia].
      apply Forall_forall. intros y Hy.
      rewrite Forall_forall in IHl, Hvl. auto.
  - destruct fuel as [|f]; [cbn in Hf; lia|].
    apply valid_doc_object in Hv.
    destruct l as [|kv l].
    + cbn [json.render json.join fmap list_fmap app].
      rewrite parse_value_object, (depth_check depth 0 Hd).
      reflexivity.
    + rewrite render_object_cons in *. cbn [app].
      rewrite parse_value_object. cbn [jdepth foldr] in Hd.
      rewrite (depth_check depth _ Hd).
      rewrite <- !app_assoc.
      assert (Hsk : exists t, member_text kv ++ object_tail l ++ ["}"%char] ++ rest
                              = dquote :: t).
      { unfold member_text, json.quote. eexists. reflexivity. }
      destruct Hsk as (t & Hct). rewrite Hct at 1.
      change (json.skip_ws (dquote :: t)) with (dquote :: t).
      change ((dquote =? "}")%char) with false. cbn iota.
      cbn [length] in Hf. rewrite !length_app in Hf. cbn [length] in Hf.
      pose proof (length_member_text kv) as Hlen.
      inversion IH as [|? ? Hx IHl]; subst. inversion Hv as [|? ? [Hk Hvx] Hvl]; subst.
      rewrite (parse_member_render kv f (S depth) _ Hk).
      2:{ apply (Hx Hvx); [lia|lia|]. destruct l; cbn; auto. }
      cbn [mbind option_bind app].
      rewrite (parse_object_tail_render l); [now destruct kv| |lia|lia].
      apply Forall_forall. intros y Hy.
      rewrite Forall_forall in IHl, Hvl. destruct (Hvl y Hy). split; auto.
Qed.

Lemma parse_render (j : json.doc) :
  valid_doc j = true -> jdepth j <= json.maxNestingDepth ->
  json.parse (json.render j) = Ok j.
Proof.
  intros Hv Hd. unfold json.parse.
  rewrite <- (app_nil_r (json.render j)) at 2.
  rewrite (parse_value_render j Hv); [reflexivity|lia|lia|exact I].
Qed.

(** ** Maps *)

Lemma map_fold_and (f : string -> value -> bool) (m : gmap string value) :
  map_fold (fun k x b => f k x && b) true m = true <->
  map_Forall (fun k x => f k x = true) m.
Proof.
  induction m as [|k x m Hk Hfold IH] using map_first_key_ind.
  - rewrite map_fold_empty. split; [intros _; apply map_Forall_empty | reflexivity].
  - rewrite map_fold_insert_first_key by assumption.
    rewrite andb_true_iff, IH, map_Forall_insert by assumption. reflexivity.
Qed.

Lemma map_fold_max (f : value -> nat) (m : gmap string value) (n : nat) :
  map_fold (fun _ x a => Nat.max (f x) a) 0 m <= n <->
  map_Forall (fun _ x => f x <= n) m.
Proof.
  induction m as [|k x m Hk Hfold IH] using map_first_key_ind.
  - rewrite map_fold_empty. split; [intros _; apply map_Forall_empty | lia].
  - rewrite map_fold_insert_first_key by assumption.
    rewrite map_Forall_insert by assumption. rewrite <- IH. lia.
Qed.

(** ** Sequencing *)

Lemma sequence_list_Ok {A} (l : list (result A)) (ps : list A) :
  json.sequence_list l = Ok ps <-> l = Ok <$> ps.
Proof.
  revert ps. induction l as [|r l IH]; intros ps; cbn.
  - split; [intros [= <-]; reflexivity|]. destruct ps; [reflexivity | discriminate].
  - destruct r as [a|e|]; cbn.
    + destruct (json.sequence_list l) as [t|e|] eqn:E; cbn.
      * split.
        -- intros [= <-]. cbn. f_equal. now apply IH.
        -- destruct ps as [|p ps]; [discriminate|]. cbn. intros [= -> Hl].
           apply IH in Hl. now injection Hl as ->.
      * split; [discriminate|]. destruct ps as [|p ps]; [discriminate|].
        cbn. intros [= -> Hl]. apply IH in Hl. discriminate.
      * split; [discriminate|]. destruct ps as [|p ps]; [discriminate|].
        cbn. intros [= -> Hl]. apply IH in Hl. discriminate.
    + split; [discriminate|]. destruct ps; discriminate.
    + split; [discriminate|]. destruct ps; discriminate.
Qed.

Lemma sequence_Ok {A} (l : list (string * result A)) (ps : list (string * A)) :
  json.sequence l = Ok ps <-> l = prod_map id Ok <$> ps.
Proof.
  revert ps. induction l as [|[k r] l IH]; intros ps; cbn.
  - split; [intros [= <-]; reflexivity|]. destruct ps; [reflexivity | discriminate].
  - destruct r as [a|e|]; cbn.
    + destruct (json.sequence l) as [t|e|] eqn:E; cbn.
      * split.
        -- intros [= <-]. cbn. f_equal. now apply IH.
        -- destruct ps as [|[k' p] ps]; [discriminate|]. cbn. intros [= -> -> Hl].
           apply IH in Hl. now injection Hl as ->.
      * split; [discriminate|]. destruct ps as [|[k' p] ps]; [discriminate|].
        cbn. intros [= -> -> Hl]. apply IH in Hl. discriminate.
      * split; [discriminate|]. destruct ps as [|[k' p] ps]; [discriminate|].
        cbn. intros [= -> -> Hl]. apply IH in Hl. discriminate.
    + split; [discriminate|]. destruct ps as [|[]]; discriminate.
    + split; [discriminate|]. destruct ps as [|[]]; discriminate.
Qed.

(** The members [Marshal] writes for a map: one for each entry. *)
Lemma of_map_members (m : gmap string value) (ps : list (string * json.doc)) :
  json.sequence (json.sort_by_key (map_to_list (json.of_value <$> m))) = Ok ps ->
  NoDup ps.*1
  /\ (forall k j, (k, j) ∈ ps -> exists v, m !! k = Some v /\ json.of_value v = Ok j)
  /\ (forall k v, m !! k = Some v -> exists j, json.of_value v = Ok j /\ (k, j) ∈ ps).
Proof.
  intros Hs. apply sequence_Ok in Hs.
  pose proof (sort_by_key_Permutation (map_to_list (json.of_value <$> m))) as Hperm.
  rewrite Hs in Hperm. split; [|split].
  - assert (Hfst : (prod_map id (@Ok json.doc) <$> ps).*1 = ps.*1).
    { rewrite <- list_fmap_compose. apply list_fmap_ext. now intros ? []. }
    rewrite <- Hfst, Hperm. apply NoDup_fst_map_to_list.
  - intros k j Hin.
    assert (Hin' : (k, Ok j) ∈ prod_map id (@Ok json.doc) <$> ps).
    { apply list_elem_of_fmap. exists (k, j). split; [reflexivity | exact Hin]. }
    rewrite Hperm in Hin'. apply elem_of_map_to_list in Hin'.
    rewrite lookup_fmap in Hin'. destruct (m !! k) as [v|]; [|discriminate].
    injection Hin' as Hv. eauto.
  - intros k v Hv.
    assert (Hin : (k, json.of_value v) ∈ map_to_list (json.of_value <$> m)).
    { apply elem_of_map_to_list. rewrite lookup_fmap, Hv. reflexivity. }
    rewrite <- Hperm in Hin. apply list_elem_of_fmap in Hin as ([k' j] & [= -> E] & Hin).
    exists j. split; [exact E | exact Hin].
Qed.

Lemma foldl_insert_list_to_map {A B} (f : A -> B) (l : list (string * A)) :
  foldl (fun acc kv => <[kv.1 := f kv.2]> acc) (∅ : gmap string B) l
  = list_to_map (reverse (prod_map id f <$> l)).
Proof.
  induction l as [|kv l IH] using rev_ind; [reflexivity|].
  rewrite foldl_snoc, fmap_app, reverse_app, IH. reflexivity.
Qed.

(** The map read from the members of a map. *)
Lemma members_map (m : gmap string value) (ps : list (string * json.doc))
    (g : value -> value) :
  NoDup ps.*1 ->
  (forall k j, (k, j) ∈ ps -> exists v, m !! k = Some v /\ json.of_value v = Ok j) ->
  (forall k v, m !! k = Some v -> exists j, json.of_value v = Ok j /\ (k, j) ∈ ps) ->
  (forall k v j, m !! k = Some v -> json.of_value v = Ok j -> json.to_value j = g v) ->
  (list_to_map (reverse (prod_map id json.to_value <$> ps)) : gmap string value)
  = g <$> m.
Proof.
  intros Hnd Hps1 Hps2 Hg. apply map_eq. intros k. apply option_eq. intros x.
  rewrite <- elem_of_list_to_map.
  2:{ rewrite fmap_reverse, reverse_Permutation.
      rewrite <- list_fmap_compose.
      erewrite list_fmap_ext; [exact Hnd|]. now intros ? []. }
  rewrite elem_of_reverse, list_elem_of_fmap, lookup_fmap.
  split.
  - intros ([k' j] & [= Hk Hx] & Hin). cbn in Hk, Hx. subst k' x.
    apply Hps1 in Hin as (v & Hv & Hj).
    rewrite Hv. cbn. f_equal. symmetry. now apply (Hg k v j).
  - destruct (m !! k) as [v|] eqn:Hv; [|discriminate]. cbn. intros [= <-].
    destruct (Hps2 k v Hv) as (j & Hj & Hin).
    exists (k, j). split; [|exact Hin].
    cbn. f_equal. symmetry. now apply (Hg k v j).
Qed.

Lemma foldr_max_le {A} (f : A -> nat) (l : list A) (n : nat) :
  foldr (fun x a => Nat.max (f x) a) 0 l <= n <-> Forall (fun x => f x <= n) l.
Proof.
  induction l as [|x l IH]; cbn.
  - split; [constructor | lia].
  - rewrite Forall_cons, <- IH. lia.
Qed.

Lemma le_antisym_iff (a b : nat) : (forall n, a <= n <-> b <= n) -> a = b.
Proof.
  intros H. pose proof (proj1 (H a) (le_n _)). pose proof (proj2 (H b) (le_n _)). lia.
Qed.

Lemma fmap_Ok_inv (l : list value) (ps : list json.doc) :
  json.of_value <$> l = Ok <$> ps -> Forall2 (fun v p => json.of_value v = Ok p) l ps.
Proof.
  revert ps. induction l as [|v l IH]; intros [|p ps]; cbn; try discriminate.
  - constructor.
  - intros [= Hv Hl]. constructor; auto.
Qed.

(** What [to_value] makes of the document of a value. *)
Definition round_trips (v : value) : Prop :=
  forall j,
    json.of_value v = Ok j ->
    json.to_value j = generic v
    /\ (valid_value v = true -> valid_doc j = true)
    /\ jdepth j = vdepth v.

Lemma round_trips_slice (l : list value) :
  Forall round_trips l -> round_trips (VSlice l).
Proof.
  intros IH j. cbn [json.of_value].
  destruct (json.sequence_list (json.of_value <$> l)) as [ps|e|] eqn:E; try discriminate.
  cbn. intros [= <-]. apply sequence_list_Ok, fmap_Ok_inv in E.
  assert (Hall : json.to_value <$> ps = generic <$> l
                 /\ (forallb valid_value l = true -> forallb valid_doc ps = true)
                 /\ foldr (fun x n => Nat.max (jdepth x) n) 0 ps
                    = foldr (fun x n => Nat.max (vdepth x) n) 0 l).
  { induction E as [|v p l ps Hvp _ IHE]; [repeat split|].
    inversion IH as [|? ? Hv IHl]; subst.
    destruct (Hv p Hvp) as (H1 & H2 & H3). destruct (IHE IHl) as (H4 & H5 & H6).
    cbn. rewrite H1, H4, H3, H6. split; [reflexivity|]. split; [|reflexivity].
    intros [Ha Hb]%andb_prop. now rewrite (H2 Ha), (H5 Hb). }
  destruct Hall as (H1 & H2 & H3). cbn. rewrite H1, H3. auto.
Qed.

Lemma round_trips_map (m : gmap string value) :
  map_Forall (fun _ => round_trips) m -> round_trips (VMap m).
Proof.
  intros IH j. cbn [json.of_value].
  destruct (json.sequence _) as [ps|e|] eqn:E; try discriminate.
  cbn. intros [= <-]. destruct (of_map_members m ps E) as (Hnd & Hps1 & Hps2).
  split; [|split].
  - cbn [json.to_value generic]. f_equal.
    apply (members_map m ps generic Hnd Hps1 Hps2).
    intros k v j Hv Hj. now destruct (IH k v Hv j Hj).
  - cbn [valid_value valid_doc]. intros Hv.
    apply map_fold_and in Hv. apply forallb_forall.
    intros [k j] Hin%list_elem_of_In. cbn [fst snd].
    destruct (Hps1 k j Hin) as (v & Hkv & Hj).
    specialize (Hv k v Hkv). cbn beta in Hv. apply andb_prop in Hv as [Hk Hx].
    rewrite Hk. cbn [andb]. now apply (IH k v Hkv j Hj).
  - cbn [jdepth vdepth]. f_equal. apply le_antisym_iff. intros n.
    rewrite (foldr_max_le (fun kv => jdepth kv.2)), map_fold_max.
    rewrite Forall_forall. split.
    + intros H k v Hkv. destruct (Hps2 k v Hkv) as (j & Hj & Hin).
      destruct (IH k v Hkv j Hj) as (_ & _ & <-). apply (H (k, j) Hin).
    + intros H [k j] Hin. destruct (Hps1 k j Hin) as (v & Hkv & Hj).
      destruct (IH k v Hkv j Hj) as (_ & _ & Hd). cbn. rewrite Hd. apply (H k v Hkv).
Qed.

Lemma of_value_round_trips (v : value) : round_trips v.
Proof.
  induction v as [ |b|n|m e|s|l|l IH|m IH| ] using value_ind'.
  1-5: intros j [= <-]; repeat split; auto.
  - intros j [= <-]. split; [|split].
    + cbn. now rewrite <- list_fmap_compose.
    + cbn. intros Hv. rewrite forallb_forall in *.
      intros x Hx%list_elem_of_In. apply list_elem_of_fmap in Hx as (s & -> & Hs).
      apply Hv. now apply list_elem_of_In.
    + cbn. f_equal. induction l as [|s l IHl]; [reflexivity|]. cbn. exact IHl.
  - now apply round_trips_slice.
  - now apply round_trips_map.
  - intros j [=].
Qed.

(** ** The codecs *)

Lemma Unmarshal_Marshal_body (b : Body) (raw : list byte) :
  valid_value (VMap b) = true ->
  vdepth (VMap b) <= json.maxNestingDepth ->
  json.Marshal b = Ok raw ->
  json.Unmarshal raw (∅ : Body) = Ok (generic <$> b).
Proof.
  intros Hv Hd. unfold json.Marshal, json.Unmarshal. cbn [json.to_doc json.map_codec].
  destruct (json.of_map b) as [j|e|] eqn:E; try discriminate. cbn. intros [= <-].
  destruct (of_value_round_trips (VMap b) j E) as (H1 & H2 & H3).
  rewrite parse_render; [|now apply H2|now rewrite H3]. cbn.
  unfold json.of_map in E. destruct (json.sequence _) as [ps| |]; try discriminate.
  injection E as <-. cbn. f_equal.
  rewrite foldl_insert_list_to_map. cbn in H1. now injection H1.
Qed.

Lemma Unmarshal_Marshal_header (h h0 : Header) (raw : list byte) :
  valid_header h = true ->
  json.Marshal h = Ok raw ->
  json.Unmarshal raw h0 = Ok h.
Proof.
  intros [Ha Ht]%andb_prop.
  set (j := json.Object [("alg", json.Str (Header_Algorithm h));
                         ("typ", json.Str (Type_ h))]).
  change (json.Marshal h) with (Ok (json.render j)).
  intros H. assert (E : raw = json.render j) by congruence.
  rewrite E. unfold json.Unmarshal.
  rewrite parse_render.
  - destruct h. reflexivity.
  - unfold j. cbn [valid_doc forallb fst snd]. rewrite Ha, Ht. reflexivity.
  - apply Nat.leb_le. reflexivity.
Qed.

(* ================================================================== *)
(** * The wire format: Serialize and Parse *)

Lemma serializeHeaderAndBody_Ok (h : Header) (b : Body) (s : string) :
  serializeHeaderAndBody h b = Ok s ->
  exists rawHeader rawBody,
    json.Marshal h = Ok rawHeader
    /\ json.Marshal b = Ok rawBody
    /\ s = dot_join (base64.EncodeToString rawHeader) (base64.EncodeToString rawBody).
Proof.
  unfold serializeHeaderAndBody.
  destruct (json.Marshal h) as [rawHeader| |] eqn:E1; try discriminate.
  destruct (json.Marshal b) as [rawBody| |] eqn:E2; try discriminate.
  cbn. intros [= <-]. eauto.
Qed.

Lemma Serialize_Ok (t : Token) (s : string) :
  Serialize t = Ok s ->
  exists rawHeader rawBody,
    json.Marshal (Token_Header t) = Ok rawHeader
    /\ json.Marshal (Token_Body t) = Ok rawBody
    /\ s = dot_join (dot_join (base64.EncodeToString rawHeader)
                              (base64.EncodeToString rawBody))
                    (base64.EncodeToString (data (Signature t))).
Proof.
  unfold Serialize.
  destruct (serializeHeaderAndBody _ _) as [hb| |] eqn:E; try discriminate.
  cbn. intros [= <-].
  apply serializeHeaderAndBody_Ok in E as (rawHeader & rawBody & H1 & H2 & ->). eauto.
Qed.

Theorem Parse_Serialize (t : Token) (s : string) :
  valid_header (Token_Header t) = true ->
  valid_value (VMap (Token_Body t)) = true ->
  vdepth (VMap (Token_Body t)) <= json.maxNestingDepth ->
  Serialize t = Ok s ->
  Parse s
  = Ok {| Token_Header := Token_Header t;
          Token_Body := generic <$> Token_Body t;
          Signature := Some (data (Signature t)) |}.
Proof.
  intros Hh Hb Hd Hs.
  apply Serialize_Ok in Hs as (rawHeader & rawBody & H1 & H2 & ->).
  unfold Parse.
  rewrite Split_three by apply no_dot_EncodeToString.
  rewrite !DecodeString_EncodeToString. cbn [mbind result_bind].
  rewrite (Unmarshal_Marshal_header _ _ _ Hh H1). cbn [mbind result_bind].
  rewrite (Unmarshal_Marshal_body _ _ Hb Hd H2). reflexivity.
Qed.

(** ** Generic values *)


Lemma sequence_list_fmap_Ok {A} (ps : list A) : json.sequence_list (Ok <$> ps) = Ok ps.
Proof. now apply sequence_list_Ok. Qed.

(** A value and its generic form are written as the same document. *)
Lemma of_value_generic (v : value) : json.of_value (generic v) = json.of_value v.
Proof.
  induction v as [ |b|n|m e|s|l|l IH|m IH| ] using value_ind'; cbn [generic json.of_value];
    try reflexivity.
  - rewrite <- list_fmap_compose.
    change (json.of_value ∘ VString) with ((@Ok json.doc) ∘ json.Str).
    rewrite list_fmap_compose, sequence_list_fmap_Ok. reflexivity.
  - rewrite <- list_fmap_compose. do 2 f_equal.
    apply Forall_fmap_ext_1. exact IH.
  - rewrite <- map_fmap_compose. do 4 f_equal.
    apply map_fmap_ext. intros k x Hx. apply (IH k x Hx).
Qed.

Lemma of_map_generic (b : Body) : json.of_map (generic <$> b) = json.of_map b.
Proof. exact (of_value_generic (VMap b)). Qed.

Lemma serializeHeaderAndBody_generic (h : Header) (b : Body) :
  serializeHeaderAndBody h (generic <$> b) = serializeHeaderAndBody h b.
Proof.
  unfold serializeHeaderAndBody, json.Marshal. cbn [json.to_doc json.map_codec].
  now rewrite of_map_generic.
Qed.

(* ================================================================== *)
(** * The recursion bound of the parser *)

Lemma skip_ws_length (s : list byte) : length (json.skip_ws s) <= length s.
Proof.
  induction s as [|c s IH]; [reflexivity|]. cbn [json.skip_ws].
  destruct (json.is_space c); cbn [length]; lia.
Qed.

Lemma skip_ws_cons_length (s r : list byte) (c : byte) :
  json.skip_ws s = c :: r -> length r < length s.
Proof. intros H. pose proof (skip_ws_length s) as Hl. rewrite H in Hl. cbn in Hl. lia. Qed.

Lemma strip_prefix_length (p s r : list byte) :
  json.strip_prefix p s = Some r -> length r <= length s.
Proof.
  revert s. induction p as [|a p IH]; intros s; cbn [json.strip_prefix].
  - now intros [= ->].
  - destruct s as [|b s]; [discriminate|]. destruct (a =? b)%char; [|discriminate].
    intros H%IH. cbn. lia.
Qed.

Lemma scan_string_length (s raw r : list byte) :
  json.scan_string s = Some (raw, r) -> length r < length s.
Proof.
  remember (length s) as n eqn:Hn. revert s raw r Hn.
  induction n as [n IH] using lt_wf_ind. intros s raw r Hn H.
  destruct s as [|c t]; [discriminate H|]. cbn [json.scan_string] in H.
  destruct (c =? dquote)%char; [injection H as <- <-; subst n; cbn; lia|].
  destruct (c =? bslash)%char.
  - destruct t as [|e t1]; [discriminate H|].
    destruct (e =? "u")%char.
    + destruct t1 as [|h1 [|h2 [|h3 [|h4 t2]]]]; try discriminate H.
      destruct (json.getu4 h1 h2 h3 h4); [|discriminate H].
      destruct (json.scan_string t2) as [[raw' r']|] eqn:E; [|discriminate H].
      cbn in H. injection H as <- <-.
      apply (IH (length t2)) in E; [|subst n; cbn; lia | reflexivity].
      subst n. cbn. lia.
    + destruct (json.simple_escape e); [|discriminate H].
      destruct (json.scan_string t1) as [[raw' r']|] eqn:E; [|discriminate H].
      cbn in H. injection H as <- <-.
      apply (IH (length t1)) in E; [|subst n; cbn; lia | reflexivity].
      subst n. cbn. lia.
  - destruct (code c <? 32)%N; [discriminate H|].
    destruct (json.scan_string t) as [[raw' r']|] eqn:E; [|discriminate H].
    cbn in H. injection H as <- <-.
    apply (IH (length t)) in E; [|subst n; cbn; lia | reflexivity].
    subst n. cbn. lia.
Qed.

Lemma parse_string_length (s : list byte) (str : string) (r : list byte) :
  json.parse_string s = Some (str, r) -> length r < length s.
Proof.
  unfold json.parse_string. intros H.
  destruct (json.scan_string s) as [[raw r']|] eqn:E; [|discriminate H].
  cbn [mbind option_bind] in H. destruct (json.unquote raw); [|discriminate H].
  cbn in H. injection H as _ <-. exact (scan_string_length _ _ _ E).
Qed.

Lemma scan_digits_length (s : list byte) : length (json.scan_digits s).2 <= length s.
Proof.
  induction s as [|c s IH]; [reflexivity|]. cbn [json.scan_digits].
  destruct (json.digit c); [|reflexivity].
  destruct (json.scan_digits s) as [d r]. cbn in *. lia.
Qed.

Lemma parse_number_length (s : list byte) (m e : Z) (r : list byte) :
  json.parse_number s = Some (m, e, r) -> length r <= length s.
Proof.
  unfold json.parse_number. intros H.
  assert (H1 : length (json.scan_sign s).2 <= length s).
  { unfold json.scan_sign. destruct s as [|c t]; [reflexivity|].
    destruct (c =? "-")%char; cbn; lia. }
  destruct (json.scan_sign s) as [neg s1]. cbn [snd] in H1.
  pose proof (scan_digits_length s1) as H2.
  destruct (json.scan_digits s1) as [ip s2]. cbn [snd] in H2.
  destruct (json.int_ok ip); [|discriminate H].
  destruct (json.scan_frac s2) as [[fr s3]|] eqn:Ef; [|discriminate H].
  cbn [mbind option_bind] in H.
  destruct (json.scan_exp s3) as [[ex s4]|] eqn:Ee; [|discriminate H].
  cbn in H. injection H as _ _ <-.
  assert (H3 : length s3 <= length s2).
  { unfold json.scan_frac in Ef. destruct s2 as [|c t]; [now injection Ef as _ <-|].
    destruct (c =? ".")%char; [|now injection Ef as _ <-].
    pose proof (scan_digits_length t) as Hd.
    destruct (json.scan_digits t) as [d r']. cbn [snd] in Hd.
    destruct (json.nonnil d); [|discriminate Ef]. injection Ef as _ <-. cbn. lia. }
  assert (H4 : length s4 <= length s3).
  { unfold json.scan_exp in Ee. destruct s3 as [|c t]; [now injection Ee as _ <-|].
    destruct ((c =? "e")%char || (c =? "E")%char); [|now injection Ee as _ <-].
    set (p := match t with
              | [] => (false, t)
              | g :: t' =>
                  if (g =? "+")%char then (false, t')
                  else if (g =? "-")%char then (true, t') else (false, t)
              end) in Ee.
    assert (Hp : length p.2 <= length t).
    { unfold p. destruct t as [|g t']; [reflexivity|].
      destruct (g =? "+")%char; [cbn; lia|]. destruct (g =? "-")%char; cbn; lia. }
    destruct p as [neg' t1]. cbn [snd] in Hp.
    pose proof (scan_digits_length t1) as Hd.
    destruct (json.scan_digits t1) as [d r']. cbn [snd] in Hd.
    destruct (json.nonnil d); [|discriminate Ee]. injection Ee as _ <-. cbn. lia. }
  lia.
Qed.

Lemma parse_member_length (pv : nat -> list byte -> option (json.doc * list byte))
    (depth : nat) (s : list byte) (k : string) (v : json.doc) (r : list byte) :
  (forall s' j r', length s' < length s -> pv depth s' = Some (j, r') ->
                   length r' <= length s') ->
  json.parse_member pv depth s = Some (k, v, r) -> length r < length s.
Proof.
  intros Hpv H. unfold json.parse_member in H.
  destruct (json.skip_ws s) as [|c r0] eqn:E0; [discriminate H|].
  apply skip_ws_cons_length in E0.
  destruct (c =? dquote)%char; [|discriminate H].
  destruct (json.parse_string r0) as [[k' r1]|] eqn:Ek; [|discriminate H].
  apply parse_string_length in Ek.
  cbn [mbind option_bind] in H.
  destruct (json.skip_ws r1) as [|c1 r2] eqn:E1; [discriminate H|].
  apply skip_ws_cons_length in E1.
  destruct (c1 =? ":")%char; [|discriminate H].
  destruct (pv depth r2) as [[v' r3]|] eqn:Ev; [|discriminate H].
  cbn in H. injection H as _ _ <-.
  apply Hpv in Ev; lia.
Qed.

(** What the parser leaves is not longer than what it was given. *)
Lemma parse_rest_length (fuel : nat) :
  (forall depth s j r,
      json.parse_value fuel depth s = Some (j, r) -> length r <= length s)
  /\ (forall depth s l r,
        json.parse_array_tail fuel depth s = Some (l, r) -> length r <= length s)
  /\ (forall depth s l r,
        json.parse_object_tail fuel depth s = Some (l, r) -> length r <= length s).
Proof.
  induction fuel as [|fuel (IHv & IHa & IHo)]; [repeat split; discriminate|].
  split; [|split].
  - intros depth s j r H. cbn [json.parse_value] in H.
    destruct (json.skip_ws s) as [|c r0] eqn:E0; [discriminate H|].
    apply skip_ws_cons_length in E0.
    destruct (c =? "n")%char.
    { destruct (json.strip_prefix _ r0) eqn:E; [|discriminate H]. cbn in H.
      injection H as _ <-. apply strip_prefix_length in E. lia. }
    destruct (c =? "t")%char.
    { destruct (json.strip_prefix _ r0) eqn:E; [|discriminate H]. cbn in H.
      injection H as _ <-. apply strip_prefix_length in E. lia. }
    destruct (c =? "f")%char.
    { destruct (json.strip_prefix _ r0) eqn:E; [|discriminate H]. cbn in H.
      injection H as _ <-. apply strip_prefix_length in E. lia. }
    destruct (c =? dquote)%char.
    { destruct (json.parse_string r0) as [[str r1]|] eqn:Es; [|discriminate H].
      cbn in H. injection H as _ <-. apply parse_string_length in Es. lia. }
    destruct (c =? "[")%char.
    { destruct (json.maxNestingDepth <? S depth)%nat; [discriminate H|].
      destruct (json.skip_ws r0) as [|c1 r1] eqn:E1; [discriminate H|].
      apply skip_ws_cons_length in E1.
      destruct (c1 =? "]")%char; [injection H as _ <-; lia|].
      destruct (json.parse_value fuel (S depth) r0) as [[v r2]|] eqn:Ev; [|discriminate H].
      cbn [mbind option_bind] in H.
      destruct (json.parse_array_tail fuel (S depth) r2) as [[l r3]|] eqn:El;
        [|discriminate H].
      cbn in H. injection H as _ <-. apply IHv in Ev. apply IHa in El. lia. }
    destruct (c =? "{")%char.
    { destruct (json.maxNestingDepth <? S depth)%nat; [discriminate H|].
      destruct (json.skip_ws r0) as [|c1 r1] eqn:E1; [discriminate H|].
      apply skip_ws_cons_length in E1.
      destruct (c1 =? "}")%char; [injection H as _ <-; lia|].
      destruct (json.parse_member (json.parse_value fuel) (S depth) r0)
        as [[[k v] r2]|] eqn:Em; [|discriminate H].
      cbn [mbind option_bind] in H.
      destruct (json.parse_object_tail fuel (S depth) r2) as [[l r3]|] eqn:El;
        [|discriminate H].
      cbn in H. injection H as _ <-.
      apply parse_member_length in Em; [|intros ? ? ? _; apply IHv].
      apply IHo in El. lia. }
    destruct ((c =? "-")%char || in_range 48 57 c); [|discriminate H].
    destruct (json.parse_number (c :: r0)) as [[[m e] r1]|] eqn:En; [|discriminate H].
    cbn in H. injection H as _ <-. apply parse_number_length in En. cbn in En. lia.
  - intros depth s l r H. cbn [json.parse_array_tail] in H.
    destruct (json.skip_ws s) as [|c r0] eqn:E0; [discriminate H|].
    apply skip_ws_cons_length in E0.
    destruct (c =? "]")%char; [injection H as _ <-; lia|].
    destruct (c =? ",")%char; [|discriminate H].
    destruct (json.parse_value fuel depth r0) as [[v r1]|] eqn:Ev; [|discriminate H].
    cbn [mbind option_bind] in H.
    destruct (json.parse_array_tail fuel depth r1) as [[l' r2]|] eqn:El; [|discriminate H].
    cbn in H. injection H as _ <-. apply IHv in Ev. apply IHa in El. lia.
  - intros depth s l r H. cbn [json.parse_object_tail] in H.
    destruct (json.skip_ws s) as [|c r0] eqn:E0; [discriminate H|].
    apply skip_ws_cons_length in E0.
    destruct (c =? "}")%char; [injection H as _ <-; lia|].
    destruct (c =? ",")%char; [|discriminate H].
    destruct (json.parse_member (json.parse_value fuel) depth r0)
      as [[[k v] r1]|] eqn:Em; [|discriminate H].
    cbn [mbind option_bind] in H.
    destruct (json.parse_object_tail fuel depth r1) as [[l' r2]|] eqn:El; [|discriminate H].
    cbn in H. injection H as _ <-.
    apply parse_member_length in Em; [|intros ? ? ? _; apply IHv].
    apply IHo in El. lia.
Qed.

Lemma parse_member_ext (pv pv' : nat -> list byte -> option (json.doc * list byte))
    (depth : nat) (s : list byte) :
  (forall s', length s' < length s -> pv depth s' = pv' depth s') ->
  json.parse_member pv depth s = json.parse_member pv' depth s.
Proof.
  intros Hpv. unfold json.parse_member.
  destruct (json.skip_ws s) as [|c r0] eqn:E0; [reflexivity|].
  apply skip_ws_cons_length in E0.
  destruct (c =? dquote)%char; [|reflexivity].
  destruct (json.parse_string r0) as [[k r1]|] eqn:Ek; [|reflexivity].
  apply parse_string_length in Ek. cbn [mbind option_bind].
  destruct (json.skip_ws r1) as [|c1 r2] eqn:E1; [reflexivity|].
  apply skip_ws_cons_length in E1.
  destruct (c1 =? ":")%char; [|reflexivity].
  rewrite Hpv by lia. reflexivity.
Qed.

(** A bound above the length of the input is as good as any other:
    every call of the parser on itself is on a shorter input. *)
Lemma parse_fuel (fuel : nat) :
  forall fuel',
    (forall depth s,
        length s < fuel -> length s < fuel' ->
        json.parse_value fuel depth s = json.parse_value fuel' depth s)
    /\ (forall depth s,
          length s < fuel -> length s < fuel' ->
          json.parse_array_tail fuel depth s = json.parse_array_tail fuel' depth s)
    /\ (forall depth s,
          length s < fuel -> length s < fuel' ->
          json.parse_object_tail fuel depth s = json.parse_object_tail fuel' depth s).
Proof.
  induction fuel as [|fuel IH]; intros fuel'; [repeat split; intros; lia|].
  destruct fuel' as [|fuel']; [repeat split; intros; lia|].
  destruct (IH fuel') as (IHv & IHa & IHo).
  destruct (parse_rest_length fuel) as (Lv & La & Lo).
  split; [|split].
  - intros depth s Hf Hf'. cbn [json.parse_value].
    destruct (json.skip_ws s) as [|c r0] eqn:E0; [reflexivity|].
    apply skip_ws_cons_length in E0.
    repeat match goal with
           | |- (if ?b then _ else _) = (if ?b then _ else _) =>
               destruct b; try reflexivity
           end.
    + destruct (json.skip_ws r0) as [|c1 r1]; [reflexivity|].
      destruct (c1 =? "]")%char; [reflexivity|].
      rewrite <- IHv by lia.
      destruct (json.parse_value fuel (S depth) r0) as [[v r2]|] eqn:Ev; [|reflexivity].
      apply Lv in Ev. cbn [mbind option_bind]. rewrite <- IHa by lia. reflexivity.
    + destruct (json.skip_ws r0) as [|c1 r1]; [reflexivity|].
      destruct (c1 =? "}")%char; [reflexivity|].
      rewrite <- (parse_member_ext (json.parse_value fuel) (json.parse_value fuel'))
        by (intros s' Hs'; apply IHv; lia).
      destruct (json.parse_member (json.parse_value fuel) (S depth) r0)
        as [[[k v] r2]|] eqn:Em; [|reflexivity].
      apply parse_member_length in Em; [|intros ? ? ? _; apply Lv].
      cbn [mbind option_bind]. rewrite <- IHo by lia. reflexivity.
  - intros depth s Hf Hf'. cbn [json.parse_array_tail].
    destruct (json.skip_ws s) as [|c r0] eqn:E0; [reflexivity|].
    apply skip_ws_cons_length in E0.
    destruct (c =? "]")%char; [reflexivity|].
    destruct (c =? ",")%char; [|reflexivity].
    rewrite <- IHv by lia.
    destruct (json.parse_value fuel depth r0) as [[v r1]|] eqn:Ev; [|reflexivity].
    apply Lv in Ev. cbn [mbind option_bind]. rewrite <- IHa by lia. reflexivity.
  - intros depth s Hf Hf'. cbn [json.parse_object_tail].
    destruct (json.skip_ws s) as [|c r0] eqn:E0; [reflexivity|].
    apply skip_ws_cons_length in E0.
    destruct (c =? "}")%char; [reflexivity|].
    destruct (c =? ",")%char; [|reflexivity].
    rewrite <- (parse_member_ext (json.parse_value fuel) (json.parse_value fuel'))
      by (intros s' Hs'; apply IHv; lia).
    destruct (json.parse_member (json.parse_value fuel) depth r0)
      as [[[k v] r1]|] eqn:Em; [|reflexivity].
    apply parse_member_length in Em; [|intros ? ? ? _; apply Lv].
    cbn [mbind option_bind]. rewrite <- IHo by lia. reflexivity.
Qed.

(** [json.parse] gives what the parser gives with any larger bound. *)
Lemma parse_any_fuel (raw : list byte) (n : nat) :
  json.parse_value (S (length raw)) 0 raw = json.parse_value (S (length raw) + n) 0 raw.
Proof. apply (proj1 (parse_fuel _ _)); lia. Qed.

(* ================================================================== *)
(** * Tokens on the wire, scopes, claims and signatures *)

(** ** Round trips *)

Lemma depth_le (n : nat) : (n <=? json.maxNestingDepth)%nat = true -> n <= json.maxNestingDepth.
Proof. apply Nat.leb_le. Qed.






(** X3. A token that [Parse] returns is frozen: [Sign] refuses it with
    [ErrImmutable] and leaves it as it is, and [AddScope] and
    [RemoveScope] change nothing, whatever the wire form held. *)
Theorem X3_parsed_token_is_frozen (tokenString : string) (t : Token) :
  Parse tokenString = Ok t ->
  (forall signer, Sign t signer = (t, Err ErrImmutable))
  /\ (forall scope, AddScope t scope = t)
  /\ (forall scope, RemoveScope t scope = t).
Proof.
  intros Hp.
  assert (Hs : IsSigned t = true).
  { apply Parse_Ok in Hp as (? & ? & ? & ? & ? & sig & _ & _ & _ & _ & _ & _ & Hsig).
    unfold IsSigned. now rewrite Hsig. }
  split; [|split]; intros x.
  - now apply Sign_signed.
  - now apply AddScope_signed.
  - now apply RemoveScope_signed.
Qed.

(** The wire form of [NewToken], which carries no signature, parses to
    a token that cannot be signed. *)
Lemma X3_witness :
  exists t,
    Parse "eyJhbGciOiJOb25lIiwidHlwIjoiSldUIn0.e30." = Ok t
    /\ Sign t (constant_signer [byte_of 1]) = (t, Err ErrImmutable)
    /\ AddScope t "user:read" = t.
Proof.
  eexists. split; [vm_compute; reflexivity|].
  destruct (X3_parsed_token_is_frozen "eyJhbGciOiJOb25lIiwidHlwIjoiSldUIn0.e30." _
              ltac:(vm_compute; reflexivity)) as (H1 & H2 & _).
  split; [apply H1 | apply H2].
Defined.

(** X4. An unsigned token does not stay unsigned over the wire: its wire
    form parses to a token that reports as signed, with a signature of
    no bytes, so that [Verify], which answers false on the unsigned
    token without a call, now asks the verifier, once, about the empty
    signature. *)
Theorem X4_unsigned_token_comes_back_signed (t : Token) (s : string) :
  Signature t = None ->
  valid_header (Token_Header t) = true ->
  valid_value (VMap (Token_Body t)) = true ->
  vdepth (VMap (Token_Body t)) <= json.maxNestingDepth ->
  Serialize t = Ok s ->
  exists t',
    Parse s = Ok t'
    /\ IsSigned t = false
    /\ IsSigned t' = true
    /\ Signature t' = Some []
    /\ forall verifier,
         Verify_calls t verifier = ([], false)
         /\ exists input,
              Verify_calls t' verifier
              = ([CallVerify input (Some [])], Verifier_Verify verifier input (Some [])).
Proof.
  intros Hn Hh Hv Hd Hser. eexists. split; [apply (Parse_Serialize t s Hh Hv Hd Hser)|].
  rewrite Hn. cbn [data IsSigned Signature].
  unfold IsSigned. rewrite Hn. repeat split.
  - unfold Verify_calls, IsSigned. now rewrite Hn.
  - unfold Verify_calls. cbn [IsSigned Signature negb Token_Header Token_Body].
    rewrite serializeHeaderAndBody_generic.
    unfold Serialize in Hser.
    destruct (serializeHeaderAndBody (Token_Header t) (Token_Body t)) as [input| |];
      try discriminate.
    exists input. reflexivity.
Qed.

Lemma X4_witness :
  exists t',
    Parse "eyJhbGciOiJOb25lIiwidHlwIjoiSldUIn0.e30." = Ok t'
    /\ IsSigned NewToken = false
    /\ IsSigned t' = true
    /\ Signature t' = Some [].
Proof.
  destruct (X4_unsigned_token_comes_back_signed NewToken
              "eyJhbGciOiJOb25lIiwidHlwIjoiSldUIn0.e30."
              eq_refl ltac:(vm_compute; reflexivity) ltac:(vm_compute; reflexivity)
              ltac:(apply depth_le; vm_compute; reflexivity)
              ltac:(vm_compute; reflexivity))
    as (t' & H1 & H2 & H3 & H4 & _).
  exists t'. auto.
Defined.

(** X5. The wire form [Serialize] writes splits at its dots into exactly
    three segments: the base64 of the header JSON, of the body JSON and
    of the signature; each of them decodes to the bytes it was made
    from, and the third is empty for a token with no signature. *)
Theorem X5_Serialize_three_segments (t : Token) (s : string) :
  Serialize t = Ok s ->
  exists rawHeader rawBody,
    json.Marshal (Token_Header t) = Ok rawHeader
    /\ json.Marshal (Token_Body t) = Ok rawBody
    /\ strings.Split s "."%char
       = [base64.EncodeToString rawHeader; base64.EncodeToString rawBody;
          base64.EncodeToString (data (Signature t))]
    /\ base64.DecodeString (base64.EncodeToString rawHeader) = Ok rawHeader
    /\ base64.DecodeString (base64.EncodeToString rawBody) = Ok rawBody
    /\ base64.DecodeString (base64.EncodeToString (data (Signature t)))
       = Ok (data (Signature t))
    /\ (Signature t = None -> base64.EncodeToString (data (Signature t)) = "").
Proof.
  intros Hs. apply Serialize_Ok in Hs as (rawHeader & rawBody & H1 & H2 & ->).
  exists rawHeader, rawBody. split; [exact H1|]. split; [exact H2|].
  split; [apply Split_three; apply no_dot_EncodeToString|].
  rewrite !DecodeString_EncodeToString. repeat split. now intros ->.
Qed.

Lemma X5_witness :
  strings.Split
    "eyJhbGciOiJFUzI1NiIsInR5cCI6IkpXVCJ9.eyJLZXkxIjoiVmFsdWUxIiwiS2V5MiI6IlZhbHVlMiJ9.AQIDBA"
    "."%char
  = ["eyJhbGciOiJFUzI1NiIsInR5cCI6IkpXVCJ9"; "eyJLZXkxIjoiVmFsdWUxIiwiS2V5MiI6IlZhbHVlMiJ9";
     "AQIDBA"]
  /\ base64.DecodeString "AQIDBA" = Ok [byte_of 1; byte_of 2; byte_of 3; byte_of 4].
Proof.
  destruct (X5_Serialize_three_segments wire_example
              "eyJhbGciOiJFUzI1NiIsInR5cCI6IkpXVCJ9.eyJLZXkxIjoiVmFsdWUxIiwiS2V5MiI6IlZhbHVlMiJ9.AQIDBA"
              ltac:(vm_compute; reflexivity))
    as (rawHeader & rawBody & H1 & H2 & H3 & _ & _ & H6 & _).
  vm_compute in H1. injection H1 as <-. vm_compute in H2. injection H2 as <-.
  split; [exact H3 | exact H6].
Defined.

(** ** Claims across the wire *)





(** ** When [Serialize] fails *)









(** ** What [Parse] refuses *)

Lemma Split_length (s : string) :
  length (strings.Split s "."%char) = S (count_dots s).
Proof.
  unfold count_dots. induction s as [|c s IH]; [reflexivity|].
  cbn [strings.Split list_ascii_of_string].
  destruct (Ascii.eqb_spec c "."%char) as [->|Hne].
  - rewrite filter_cons_True by reflexivity. cbn. now rewrite IH.
  - rewrite filter_cons_False by exact Hne.
    destruct (strings.Split s "."%char) as [|seg segs]; [discriminate IH | exact IH].
Qed.

Lemma DecodeString_cases (s : string) :
  (exists b, base64.DecodeString s = Ok b) \/ base64.DecodeString s = Err CorruptInputError.
Proof.
  unfold base64.DecodeString.
  destruct (base64.sextets (list_ascii_of_string s) ≫= base64.quanta); cbn; eauto.
Qed.

Lemma parse_cases (raw : list byte) :
  (exists j, json.parse raw = Ok j) \/ json.parse raw = Err SyntaxError.
Proof.
  unfold json.parse.
  destruct (json.parse_value _ _ _) as [[j rest]|]; [|now right].
  destruct (json.skip_ws rest); eauto.
Qed.

Lemma Unmarshal_header_cases (raw : list byte) (h : Header) :
  (exists h', json.Unmarshal raw h = Ok h')
  \/ json.Unmarshal raw h = Err SyntaxError
  \/ json.Unmarshal raw h = Err UnmarshalTypeError.
Proof.
  unfold json.Unmarshal. destruct (parse_cases raw) as [[j ->]| ->]; [|now right; left].
  cbn [mbind result_bind json.from_doc Header_codec].
  destruct j as [ | | | | |l]; eauto.
  destruct (foldl header_member (h, false) l) as [h' [|]]; eauto.
Qed.

Lemma Unmarshal_body_cases (raw : list byte) (b : Body) :
  (exists b', json.Unmarshal raw b = Ok b')
  \/ json.Unmarshal raw b = Err SyntaxError
  \/ json.Unmarshal raw b = Err UnmarshalTypeError.
Proof.
  unfold json.Unmarshal. destruct (parse_cases raw) as [[j ->]| ->]; [|now right; left].
  cbn [mbind result_bind json.from_doc json.map_codec].
  destruct j; eauto.
Qed.

(** X9. [Parse] never panics and fails in four ways only:
    [ErrInvalidTokenStructure], exactly when the string does not hold
    two dots; base64's [CorruptInputError], exactly when one of the
    three segments does not decode, whatever the JSON in the others is;
    and the syntax and type errors of [json.Unmarshal]. *)
Theorem X9_Parse_error_kinds (tokenString : string) :
  Parse tokenString <> Panic
  /\ (forall e, Parse tokenString = Err e ->
        e = ErrInvalidTokenStructure \/ e = CorruptInputError
        \/ e = SyntaxError \/ e = UnmarshalTypeError)
  /\ (Parse tokenString = Err ErrInvalidTokenStructure <-> count_dots tokenString <> 2)
  /\ (forall s0 s1 s2,
        strings.Split tokenString "."%char = [s0; s1; s2] ->
        (Parse tokenString = Err CorruptInputError <->
         base64.DecodeString s0 = Err CorruptInputError
         \/ base64.DecodeString s1 = Err CorruptInputError
         \/ base64.DecodeString s2 = Err CorruptInputError)).
Proof.
  pose proof (Split_length tokenString) as Hlen.
  unfold Parse.
  destruct (strings.Split tokenString "."%char) as [|s0 [|s1 [|s2 [|s3 rest]]]] eqn:Hsplit;
    cbn in Hlen;
    try (split; [discriminate|]; split; [intros e [= <-]; now left|];
         split; [split; [intros _; lia | reflexivity] | discriminate]).
  assert (Hdots : count_dots tokenString = 2) by lia.
  destruct (DecodeString_cases s0) as [[rawHeader H0]|H0]; rewrite H0; cbn [mbind result_bind].
  2:{ split; [discriminate|]. split; [intros e [= <-]; auto|].
      split; [split; [discriminate | intros Hn; now destruct Hn]|].
      intros ? ? ? [= <- <- <-]. split; auto. }
  destruct (DecodeString_cases s1) as [[rawBody H1]|H1]; rewrite H1; cbn [mbind result_bind].
  2:{ split; [discriminate|]. split; [intros e [= <-]; auto|].
      split; [split; [discriminate | intros Hn; now destruct Hn]|].
      intros ? ? ? [= <- <- <-]. split; auto. }
  destruct (DecodeString_cases s2) as [[rawSignature H2]|H2]; rewrite H2; cbn [mbind result_bind].
  2:{ split; [discriminate|]. split; [intros e [= <-]; auto|].
      split; [split; [discriminate | intros Hn; now destruct Hn]|].
      intros ? ? ? [= <- <- <-]. split; auto. }
  assert (Hno : forall r : result Token,
             r <> Err CorruptInputError ->
             forall a b c, [s0; s1; s2] = [a; b; c] ->
               r = Err CorruptInputError <->
               base64.DecodeString a = Err CorruptInputError
               \/ base64.DecodeString b = Err CorruptInputError
               \/ base64.DecodeString c = Err CorruptInputError).
  { intros r Hr a b c [= <- <- <-]. rewrite H0, H1, H2.
    split; [intros E; now destruct Hr | intros [|[|]]; discriminate]. }
  destruct (Unmarshal_header_cases rawHeader {| Header_Algorithm := ""; Type_ := "" |})
    as [[header Hh]|[Hh|Hh]]; rewrite Hh; cbn [mbind result_bind].
  2,3: (split; [discriminate|]; split; [intros e [= <-]; auto|];
        split; [split; [discriminate | intros Hn; now destruct Hn]|];
        apply Hno; discriminate).
  destruct (Unmarshal_body_cases rawBody ∅) as [[body Hb]|[Hb|Hb]]; rewrite Hb;
    cbn [mbind result_bind].
  2,3: (split; [discriminate|]; split; [intros e [= <-]; auto|];
        split; [split; [discriminate | intros Hn; now destruct Hn]|];
        apply Hno; discriminate).
  split; [discriminate|]. split; [discriminate|].
  split; [split; [discriminate | intros Hn; now destruct Hn]|].
  apply Hno. discriminate.
Qed.

(** The four errors of [Parse] occur: two segments; a character outside
    the alphabet in the signature, whatever the header holds; a header
    that is no JSON; a body that is a JSON array. *)
Lemma X9_witness :
  Parse "e30.e30" = Err ErrInvalidTokenStructure
  /\ Parse "bm8.e30.!" = Err CorruptInputError
  /\ Parse "bm8.e30." = Err SyntaxError
  /\ Parse "e30.W10." = Err UnmarshalTypeError.
Proof.
  pose proof (X9_Parse_error_kinds "e30.e30") as (_ & _ & H & _).
  split; [apply H; vm_compute; lia|].
  pose proof (X9_Parse_error_kinds "bm8.e30.!") as (_ & _ & _ & H').
  split; [apply (H' "bm8" "e30" "!" eq_refl); right; right; reflexivity|].
  split; vm_compute; reflexivity.
Defined.

(** ** Scopes of an unsigned token *)



Lemma HasScope_scopes_of (t : Token) (q : string) :
  HasScope t q = bool_decide (q ∈ (scopes_of (Token_Body t)).1).
Proof.
  unfold HasScope. destruct (scopes_of (Token_Body t)) as [l ok] eqn:E.
  unfold scopes_of in E. destruct (Token_Body t !! "scope") as [[]|]; injection E as <- <-;
    cbn; try reflexivity.
  apply existsb_eqb.
Qed.

Lemma GetClaim_scope_insert (t : Token) (v : value) (name : string) :
  GetClaim (set_Body t (<["scope" := v]> (Token_Body t))) name = GetClaim t name.
Proof.
  unfold GetClaim. destruct (String.eqb_spec name "scope") as [->|Hne]; [reflexivity|].
  cbn [set_Body Token_Body]. rewrite lookup_insert_ne by congruence. reflexivity.
Qed.



Lemma RemoveScope_unsigned_Some (t : Token) (scope : string) (l : list string) (i : nat) :
  IsSigned t = false ->
  Token_Body t !! "scope" = Some (VStrings l) ->
  find_scope (strings.TrimSpace scope) l = Some i ->
  RemoveScope t scope = set_Body t (<["scope" := VStrings (swap_remove i l)]> (Token_Body t)).
Proof.
  intros Hu Hl Hf. unfold RemoveScope. rewrite Hu, (scopes_of_Some _ _ Hl). cbn [negb].
  now rewrite Hf.
Qed.

Lemma RemoveScope_unsigned_None (t : Token) (scope : string) (l : list string) :
  Token_Body t !! "scope" = Some (VStrings l) ->
  find_scope (strings.TrimSpace scope) l = None ->
  RemoveScope t scope = t.
Proof.
  intros Hl Hf. unfold RemoveScope. destruct (IsSigned t); [reflexivity|].
  rewrite (scopes_of_Some _ _ Hl). cbn [negb]. now rewrite Hf.
Qed.

Lemma RemoveScope_no_list (t : Token) (scope : string) :
  (scopes_of (Token_Body t)).2 = false -> RemoveScope t scope = t.
Proof.
  intros Hn. unfold RemoveScope. destruct (IsSigned t); [reflexivity|].
  destruct (scopes_of (Token_Body t)) as [l ok]. cbn in Hn. now subst ok.
Qed.

Lemma scopes_of_cases (b : Body) :
  (exists l, b !! "scope" = Some (VStrings l) /\ scopes_of b = (l, true))
  \/ scopes_of b = ([], false).
Proof.
  unfold scopes_of. destruct (b !! "scope") as [[]|]; eauto.
Qed.

(** The scopes after a removal: the list without the first match, up to
    the order. *)
Lemma scopes_of_RemoveScope (t : Token) (scope : string) :
  IsSigned t = false ->
  (exists i,
      find_scope (strings.TrimSpace scope) (scopes_of (Token_Body t)).1 = Some i
      /\ (scopes_of (Token_Body t)).1
         ≡ₚ (strings.TrimSpace scope :: (scopes_of (Token_Body (RemoveScope t scope))).1)
      /\ (scopes_of (Token_Body (RemoveScope t scope))).2 = true
      /\ forall name, GetClaim (RemoveScope t scope) name = GetClaim t name)
  \/ ((strings.TrimSpace scope ∉ (scopes_of (Token_Body t)).1) /\ RemoveScope t scope = t).
Proof.
  intros Hu. destruct (scopes_of_cases (Token_Body t)) as [(l & Hl & E)|E].
  - rewrite E. cbn [fst].
    destruct (find_scope (strings.TrimSpace scope) l) as [i|] eqn:Hf.
    + left. exists i. split; [reflexivity|].
      rewrite (RemoveScope_unsigned_Some t scope l i Hu Hl Hf).
      cbn [set_Body Token_Body].
      rewrite (scopes_of_Some _ (swap_remove i l)) by apply lookup_insert_eq.
      cbn [fst snd]. split; [|split; [reflexivity | apply GetClaim_scope_insert]].
      destruct (find_scope_Some _ _ _ Hf) as [Hi _].
      rewrite swap_remove_Permutation by (eapply lookup_lt_Some; exact Hi).
      now apply delete_Permutation.
    + right. split; [now apply find_scope_None|].
      now apply (RemoveScope_unsigned_None t scope l).
  - right. rewrite E. split; [apply not_elem_of_nil|].
    apply RemoveScope_no_list. now rewrite E.
Qed.




Lemma filter_absent (q : string) (l : list string) :
  q ∉ l -> filter (fun v => v = q) l = [].
Proof.
  induction l as [|v l IH]; [reflexivity|]. intros Hn.
  apply not_elem_of_cons in Hn as [Hne Hn].
  rewrite filter_cons_False by congruence. now apply IH.
Qed.

Lemma scope_count_pos (t : Token) (q : string) :
  HasScope t q = true <-> 0 < scope_count t q.
Proof.
  rewrite HasScope_scopes_of, bool_decide_eq_true. unfold scope_count.
  generalize (scopes_of (Token_Body t)).1. intros l.
  induction l as [|v l IH].
  - cbn. split; [intros H; now apply not_elem_of_nil in H | lia].
  - destruct (decide (v = q)) as [->|Hne].
    + rewrite filter_cons_True by reflexivity. cbn. split; [lia | intros _; left].
    + rewrite filter_cons_False by exact Hne. rewrite <- IH.
      rewrite elem_of_cons. split; [intros [->|]; [congruence | assumption] | auto].
Qed.

(** X12. On an unsigned token [RemoveScope] removes one occurrence of the
    trimmed scope, the other scopes keeping their number: a scope that
    is listed twice is still there after it is removed once. *)
Theorem X12_RemoveScope_removes_one_occurrence (t : Token) (scope q : string) :
  IsSigned t = false ->
  scope_count (RemoveScope t scope) q
  = scope_count t q - (if String.eqb q (strings.TrimSpace scope) then 1 else 0)
  /\ (HasScope (RemoveScope t scope) (strings.TrimSpace scope) = true
      <-> 2 <= scope_count t (strings.TrimSpace scope)).
Proof.
  intros Hu.
  assert (Hcount : forall q,
             scope_count (RemoveScope t scope) q
             = scope_count t q - (if String.eqb q (strings.TrimSpace scope) then 1 else 0)).
  { clear q. intros q. unfold scope_count.
    destruct (scopes_of_RemoveScope t scope Hu) as [(i & _ & Hp & _)|[Hn ->]].
    - rewrite Hp. destruct (String.eqb_spec q (strings.TrimSpace scope)) as [->|Hne].
      + rewrite filter_cons_True by reflexivity. cbn. lia.
      + rewrite filter_cons_False by congruence. lia.
    - destruct (String.eqb_spec q (strings.TrimSpace scope)) as [->|Hne]; [|lia].
      assert (E : filter (fun v => v = strings.TrimSpace scope)
                    (scopes_of (Token_Body t)).1 = []).
      { apply filter_absent. exact Hn. }
      rewrite E. reflexivity. }
  split; [apply Hcount|].
  rewrite scope_count_pos, Hcount, String.eqb_refl. lia.
Qed.

(** A scope that was added twice is still there after one removal, and
    gone after two. *)
Lemma X12_witness :
  HasScope (RemoveScope (AddScope (AddScope NewToken "admin") "admin") "admin") "admin" = true
  /\ HasScope (RemoveScope
                 (RemoveScope (AddScope (AddScope NewToken "admin") "admin") "admin")
                 "admin") "admin" = false.
Proof.
  split.
  - apply (X12_RemoveScope_removes_one_occurrence
             (AddScope (AddScope NewToken "admin") "admin") "admin" "admin" eq_refl).
    vm_compute. lia.
  - vm_compute. reflexivity.
Defined.

(** ** Claims *)



(** X14. [GetStringClaim] reports a claim exactly when the body holds a
    string under that name, the name not being "scope"; a claim of any
    other type, present as it is for [GetClaim], is reported as absent,
    with the empty string. *)
Theorem X14_GetStringClaim_wants_a_string (t : Token) (name : string) :
  (forall s, GetStringClaim t name = (s, true)
             <-> name <> "scope" /\ Token_Body t !! name = Some (VString s))
  /\ (GetStringClaim t name).2 = (GetClaim t name).2
                                 && match (GetClaim t name).1 with
                                    | VString _ => true
                                    | _ => false
                                    end
  /\ ((GetStringClaim t name).2 = false -> (GetStringClaim t name).1 = "").
Proof.
  unfold GetStringClaim, GetClaim.
  destruct (String.eqb_spec name "scope") as [->|Hne]; cbn [negb fst snd].
  - split; [|now split]. intros s. split; [discriminate | intros [H _]; now destruct H].
  - destruct (Token_Body t !! name) as [x|]; cbn [negb fst snd].
    + split; [|split; [now destruct x | now destruct x]].
      intros s. destruct x; (split; [intros [= <-] || intros [=] | intros [_ [= <-]] || intros [_ [=]]]);
        auto.
    + split; [|now split]. intros s. split; [discriminate | intros [_ [=]]].
Qed.

(** The claim "exp" of the end-to-end token is an integer: [GetClaim]
    finds it, [GetStringClaim] does not. *)
Lemma X14_witness :
  GetClaim e2e_example "exp" = (VInt 86400, true)
  /\ GetStringClaim e2e_example "exp" = ("", false)
  /\ GetStringClaim e2e_example "iss" = ("Test Issuer", true).
Proof.
  destruct (X14_GetStringClaim_wants_a_string e2e_example "exp") as (_ & H2 & H3).
  destruct (X14_GetStringClaim_wants_a_string e2e_example "iss") as (H1 & _).
  split; [reflexivity|]. split.
  - assert (E : (GetStringClaim e2e_example "exp").2 = false) by (rewrite H2; reflexivity).
    specialize (H3 E). destruct (GetStringClaim e2e_example "exp") as [s ok].
    cbn in E, H3. now subst.
  - apply H1. split; [discriminate | reflexivity].
Defined.

(** ** The wire form determines the token *)




(** ** What a successful [Sign] leaves *)

(** X16. When [Sign] succeeds the header names the signer's algorithm and
    keeps its type, the body is untouched and the signature is the one
    the signer returned; the input [Verify] recomputes is the one that
    was signed, so the verifier is asked about that input and that
    signature, and a second [Sign] is refused. A signer that returns a
    [nil] signature and no error leaves the token unsigned. *)
Theorem X16_Sign_stores_header_and_signature
    (t : Token) (signer : Signer) (input : string) (signature : option (list byte)) :
  IsSigned t = false ->
  serializeHeaderAndBody
    {| Header_Algorithm := Signer_Algorithm signer; Type_ := Type_ (Token_Header t) |}
    (Token_Body t) = Ok input ->
  Signer_Sign signer input = Ok signature ->
  exists t',
    Sign t signer = (t', Ok tt)
    /\ Token_Header t'
       = {| Header_Algorithm := Signer_Algorithm signer; Type_ := Type_ (Token_Header t) |}
    /\ Token_Body t' = Token_Body t
    /\ Signature t' = signature
    /\ serializeHeaderAndBody (Token_Header t') (Token_Body t') = Ok input
    /\ (signature <> None ->
        (forall verifier,
            Verify_calls t' verifier
            = ([CallVerify input signature], Verifier_Verify verifier input signature))
        /\ (forall signer', Sign t' signer' = (t', Err ErrImmutable)))
    /\ (signature = None ->
        IsSigned t' = false /\ forall verifier, Verify_calls t' verifier = ([], false)).
Proof.
  intros Hu Hser Hsig. eexists. split.
  { unfold Sign. rewrite Hu, Hser, Hsig. reflexivity. }
  cbn [Token_Header Token_Body Signature].
  split; [reflexivity|]. split; [reflexivity|]. split; [reflexivity|].
  split; [exact Hser|]. split.
  - intros Hsome. destruct signature as [sig|]; [|congruence]. split.
    + intros verifier. unfold Verify_calls. cbn [IsSigned Signature negb Token_Header Token_Body].
      now rewrite Hser.
    + intros signer'. now apply Sign_signed.
  - intros ->. split; [reflexivity|]. intros verifier. reflexivity.
Qed.

(** With a signer that returns four bytes the token is signed and
    frozen; with one that returns [nil] and no error, [Sign] succeeds,
    the header names the algorithm, and the token is still unsigned. *)
Lemma X16_witness :
  (exists t',
      Sign NewToken (constant_signer [byte_of 1; byte_of 2; byte_of 3; byte_of 4]) = (t', Ok tt)
      /\ Header_Algorithm (Token_Header t') = ES256
      /\ IsSigned t' = true
      /\ Sign t' silent_signer = (t', Err ErrImmutable))
  /\ (exists t',
        Sign NewToken silent_signer = (t', Ok tt)
        /\ Header_Algorithm (Token_Header t') = ES256
        /\ IsSigned t' = false).
Proof.
  split.
  - destruct (X16_Sign_stores_header_and_signature NewToken
                (constant_signer [byte_of 1; byte_of 2; byte_of 3; byte_of 4])
                "eyJhbGciOiJFUzI1NiIsInR5cCI6IkpXVCJ9.e30"
                (Some [byte_of 1; byte_of 2; byte_of 3; byte_of 4])
                eq_refl ltac:(vm_compute; reflexivity) eq_refl)
      as (t' & H1 & H2 & _ & H4 & _ & H6 & _).
    exists t'. split; [exact H1|]. split; [now rewrite H2|].
    split; [unfold IsSigned; now rewrite H4|].
    apply H6. discriminate.
  - destruct (X16_Sign_stores_header_and_signature NewToken silent_signer
                "eyJhbGciOiJFUzI1NiIsInR5cCI6IkpXVCJ9.e30" None
                eq_refl ltac:(vm_compute; reflexivity) eq_refl)
      as (t' & H1 & H2 & _ & _ & _ & _ & H7).
    exists t'. split; [exact H1|]. split; [now rewrite H2|]. now apply H7.
Defined.

(** ** The ES256 pair outside the range of the curve *)

Lemma length_bytes_go_acc (fuel : nat) (n : N) (acc : list byte) :
  length acc <= length (big.bytes_go fuel n acc).
Proof.
  revert n acc. induction fuel as [|fuel IH]; intros n acc; cbn; [lia|].
  destruct (n =? 0)%N; [lia|].
  etransitivity; [|apply IH]. cbn. lia.
Qed.

Lemma length_bytes_go_lower (fuel : nat) (k : nat) (n : N) (acc : list byte) :
  (n < 2 ^ N.of_nat fuel)%N ->
  (256 ^ N.of_nat k <= n)%N ->
  k + 1 + length acc <= length (big.bytes_go fuel n acc).
Proof.
  revert k n acc. induction fuel as [|fuel IH]; intros k n acc Hf Hk.
  - cbn in Hf. assert (0 < 256 ^ N.of_nat k)%N
      by (pose proof (N.pow_nonzero 256 (N.of_nat k)); lia). lia.
  - cbn [big.bytes_go].
    assert (0 < 256 ^ N.of_nat k)%N
      by (pose proof (N.pow_nonzero 256 (N.of_nat k)); lia).
    destruct (N.eqb_spec n 0) as [->|Hne]; [lia|].
    destruct k as [|k].
    + pose proof (length_bytes_go_acc fuel (n / 256) (byte_of (n mod 256) :: acc)) as Hl.
      cbn in Hl. lia.
    + specialize (IH k (n / 256)%N (byte_of (n mod 256) :: acc)).
      cbn [length] in IH. etransitivity; [|apply IH].
      * lia.
      * rewrite Nat2N.inj_succ, N.pow_succ_r' in Hf.
        apply N.Div0.div_lt_upper_bound.
        eapply N.lt_le_trans; [exact Hf|].
        apply N.mul_le_mono_r. lia.
      * rewrite Nat2N.inj_succ, N.pow_succ_r' in Hk.
        apply N.div_le_lower_bound; [lia|]. lia.
Qed.

Lemma Bytes_length_lower (x : Z) (k : nat) :
  (256 ^ Z.of_nat k <= x)%Z -> k < length (big.Bytes x).
Proof.
  intros Hx. unfold big.Bytes.
  assert (0 < 256 ^ Z.of_nat k)%Z by (apply Z.pow_pos_nonneg; lia).
  pose proof (length_bytes_go_lower (N.to_nat (N.size (Z.abs_N x))) k (Z.abs_N x) []) as Hl.
  cbn [length] in Hl. rewrite Nat.add_0_r in Hl.
  assert (k + 1 <= length (big.bytes_go (N.to_nat (N.size (Z.abs_N x))) (Z.abs_N x) []));
    [|lia].
  apply Hl.
  - rewrite N2Nat.id. apply N.size_gt.
  - assert (Z.of_N (256 ^ N.of_nat k) <= Z.of_N (Z.abs_N x))%Z; [|lia].
    rewrite N2Z.inj_abs_N, N2Z.inj_pow, nat_N_Z. cbn. lia.
Qed.

Lemma make_negative (x : Z) :
  (2 ^ 256 <= x)%Z -> make (32 - Z.of_nat (length (big.Bytes x))) = Panic.
Proof.
  intros Hx. pose proof (Bytes_length_lower x 32 Hx) as Hl. unfold make.
  destruct (Z.ltb_spec (32 - Z.of_nat (length (big.Bytes x))) 0); [reflexivity | lia].
Qed.

Lemma bytes_val_bound (l : list byte) : (bytes_val l < 256 ^ N.of_nat (length l))%N.
Proof.
  induction l as [|c l IH] using rev_ind; [cbn; lia|].
  rewrite bytes_val_snoc, length_app. cbn [length].
  replace (length l + 1) with (S (length l)) by lia.
  rewrite Nat2N.inj_succ, N.pow_succ_r'.
  pose proof (N_ascii_bounded c). unfold code. lia.
Qed.

Lemma big_endian_N_bytes_val (l : list byte) :
  big_endian_N (length l) (bytes_val l) = l.
Proof.
  induction l as [|c l IH] using rev_ind; [reflexivity|].
  rewrite length_app. cbn [length]. replace (length l + 1) with (S (length l)) by lia.
  cbn [big_endian_N]. rewrite bytes_val_snoc.
  pose proof (N_ascii_bounded c) as Hc. fold (code c) in Hc.
  replace ((bytes_val l * 256 + code c) / 256)%N with (bytes_val l).
  - rewrite IH. f_equal. f_equal.
    rewrite <- byte_of_mod.
    replace ((bytes_val l * 256 + code c) mod 256)%N with (code c).
    + apply byte_of_code.
    + symmetry. rewrite N.add_comm, N.Div0.mod_add. now apply N.mod_small.
  - symmetry. rewrite N.add_comm, N.div_add by lia.
    rewrite N.div_small by exact Hc. reflexivity.
Qed.

Lemma big_endian_SetBytes (l : list byte) :
  big_endian (length l) (big.SetBytes l) = l.
Proof.
  unfold big_endian, big.SetBytes. change (foldl _ 0%N l) with (bytes_val l).
  rewrite N2Z.id. apply big_endian_N_bytes_val.
Qed.

Lemma SetBytes_range (l : list byte) :
  (0 <= big.SetBytes l < 256 ^ Z.of_nat (length l))%Z.
Proof.
  unfold big.SetBytes. change (foldl _ 0%N l) with (bytes_val l).
  pose proof (bytes_val_bound l) as Hb.
  assert (Z.of_N (bytes_val l) < Z.of_N (256 ^ N.of_nat (length l)))%Z by lia.
  rewrite N2Z.inj_pow, nat_N_Z in H. cbn in H. lia.
Qed.

Section ES256_edges.
Context `{Crypto}.

(** X17. The ES256 signer returns the error of [ecdsa.Sign] when that
    fails; for [r] and [s] below 2^256 it returns the two 32 byte
    encodings; for an [r] or an [s] of more than 32 bytes the padding
    has a negative length and the call panics. [Sign] on a token passes
    the error on and leaves the token, and panics when the signer
    does. *)
Theorem X17_ES256Signer_Sign_outcomes (s : ES256Signer) (rnd : Rand) (msg : string) :
  (forall e,
      ecdsa_Sign rnd (privateKey s) (sha256_Sum256 (list_ascii_of_string msg)) = Err e ->
      ES256Signer_Sign s rnd msg = Err e)
  /\ (forall r sv,
        ecdsa_Sign rnd (privateKey s) (sha256_Sum256 (list_ascii_of_string msg)) = Ok (r, sv) ->
        (0 <= r)%Z -> (0 <= sv)%Z ->
        ((r < 2 ^ 256 /\ sv < 2 ^ 256)%Z ->
         ES256Signer_Sign s rnd msg = Ok (Some (big_endian 32 r ++ big_endian 32 sv)))
        /\ ((2 ^ 256 <= r \/ 2 ^ 256 <= sv)%Z -> ES256Signer_Sign s rnd msg = Panic))
  /\ (forall t input,
        IsSigned t = false ->
        serializeHeaderAndBody
          {| Header_Algorithm := ES256; Type_ := Type_ (Token_Header t) |}
          (Token_Body t) = Ok input ->
        (forall e, ES256Signer_Sign s rnd input = Err e ->
                   Sign t (ES256Signer_Signer s rnd) = (t, Err e))
        /\ (ES256Signer_Sign s rnd input = Panic ->
            Sign t (ES256Signer_Signer s rnd) = (t, Panic))).
Proof.
  split; [|split].
  - intros e He. unfold ES256Signer_Sign. now rewrite He.
  - intros r sv Hsig Hr Hs. split.
    + intros [Hr' Hs']. apply ES256Signer_Sign_Ok; [exact Hsig | lia | lia].
    + intros Hbig. unfold ES256Signer_Sign. rewrite Hsig. cbn [mbind result_bind].
      destruct (Z.lt_ge_cases r (2 ^ 256)) as [Hr'|Hr'].
      * rewrite (make_pad r) by lia. cbn [mbind result_bind].
        rewrite (make_negative sv) by lia. reflexivity.
      * now rewrite (make_negative r Hr').
  - intros t input Hu Hser. unfold Sign. rewrite Hu.
    cbn [ES256Signer_Signer Signer_Algorithm Signer_Sign]. rewrite Hser.
    split; [intros e He | intros He]; now rewrite He.
Qed.

(** X18. A signature of 64 bytes is the encoding of exactly one pair of
    integers below 2^256, the first 32 bytes for [r] and the last 32
    for [s], and the ES256 verifier answers what [ecdsa.Verify] answers
    for the digest of the input and that pair. *)
Theorem X18_ES256Verifier_reads_two_integers
    (v : ES256Verifier) (msg : string) (signature : list byte) :
  length signature = 64 ->
  exists r sv,
    (0 <= r < 2 ^ 256)%Z
    /\ (0 <= sv < 2 ^ 256)%Z
    /\ signature = big_endian 32 r ++ big_endian 32 sv
    /\ r = big.SetBytes (take 32 signature)
    /\ sv = big.SetBytes (drop 32 signature)
    /\ ES256Verifier_Verify v msg (Some signature)
       = ecdsa_Verify (publicKey v) (sha256_Sum256 (list_ascii_of_string msg)) r sv
    /\ (forall r' sv',
          (0 <= r' < 2 ^ 256)%Z -> (0 <= sv' < 2 ^ 256)%Z ->
          signature = big_endian 32 r' ++ big_endian 32 sv' -> r' = r /\ sv' = sv).
Proof.
  intros Hlen.
  assert (Ht : length (take 32 signature) = 32) by (rewrite length_take; lia).
  assert (Hd : length (drop 32 signature) = 32) by (rewrite length_drop; lia).
  exists (big.SetBytes (take 32 signature)), (big.SetBytes (drop 32 signature)).
  pose proof (SetBytes_range (take 32 signature)) as Hr. rewrite Ht in Hr.
  pose proof (SetBytes_range (drop 32 signature)) as Hs. rewrite Hd in Hs.
  change (256 ^ Z.of_nat 32)%Z with (2 ^ 256)%Z in Hr, Hs.
  split; [exact Hr|]. split; [exact Hs|]. split; [|split; [|split; [|split]]].
  - pose proof (big_endian_SetBytes (take 32 signature)) as E1. rewrite Ht in E1.
    pose proof (big_endian_SetBytes (drop 32 signature)) as E2. rewrite Hd in E2.
    rewrite E1, E2. symmetry. apply take_drop.
  - reflexivity.
  - reflexivity.
  - unfold ES256Verifier_Verify. cbn [data]. rewrite Hlen. reflexivity.
  - intros r' sv' Hr' Hs' ->.
    rewrite take_app_length' by (symmetry; apply big_endian_length).
    rewrite drop_app_length' by (symmetry; apply big_endian_length).
    rewrite !SetBytes_big_endian by (change (256 ^ Z.of_nat 32)%Z with (2 ^ 256)%Z; lia).
    now split.
Qed.

End ES256_edges.

(** With primitives that fail, the signer and [Sign] return the error;
    with an [r] of 33 bytes the signer panics, and so does [Sign], on
    the fresh token. *)
Lemma X17_witness :
  Sign NewToken (@ES256Signer_Signer (fixed_crypto (Err (SignerError 3)))
                   (@NewES256Signer (fixed_crypto (Err (SignerError 3))) tt) tt)
  = (NewToken, Err (SignerError 3))
  /\ Sign NewToken (@ES256Signer_Signer (fixed_crypto (Ok (2 ^ 256, 1)%Z))
                      (@NewES256Signer (fixed_crypto (Ok (2 ^ 256, 1)%Z)) tt) tt)
     = (NewToken, Panic).
Proof.
  split.
  - destruct (@X17_ES256Signer_Sign_outcomes (fixed_crypto (Err (SignerError 3)))
                (@NewES256Signer (fixed_crypto (Err (SignerError 3))) tt) tt
                "eyJhbGciOiJFUzI1NiIsInR5cCI6IkpXVCJ9.e30") as (H1 & _ & H3).
    apply (proj1 (H3 NewToken "eyJhbGciOiJFUzI1NiIsInR5cCI6IkpXVCJ9.e30" eq_refl
                     ltac:(vm_compute; reflexivity))).
    apply H1. reflexivity.
  - destruct (@X17_ES256Signer_Sign_outcomes (fixed_crypto (Ok (2 ^ 256, 1)%Z))
                (@NewES256Signer (fixed_crypto (Ok (2 ^ 256, 1)%Z)) tt) tt
                "eyJhbGciOiJFUzI1NiIsInR5cCI6IkpXVCJ9.e30") as (_ & H2 & H3).
    apply (proj2 (H3 NewToken "eyJhbGciOiJFUzI1NiIsInR5cCI6IkpXVCJ9.e30" eq_refl
                     ltac:(vm_compute; reflexivity))).
    apply (proj2 (H2 (2 ^ 256)%Z 1%Z eq_refl ltac:(lia) ltac:(lia))). left. lia.
Defined.

(** A signature of 64 bytes, each of them 1, is read as two integers
    by the verifier of the stand-in primitives. *)
Lemma X18_witness :
  exists r sv,
    replicate 64 (byte_of 1) = big_endian 32 r ++ big_endian 32 sv
    /\ @ES256Verifier_Verify toy_crypto (@NewES256Verifier toy_crypto 11%Z) "a.b"
         (Some (replicate 64 (byte_of 1)))
       = (sv =? toy_tag 11 (toy_digest (list_ascii_of_string "a.b")) r)%Z.
Proof.
  destruct (@X18_ES256Verifier_reads_two_integers toy_crypto
              (@NewES256Verifier toy_crypto 11%Z) "a.b" (replicate 64 (byte_of 1))
              eq_refl) as (r & sv & _ & _ & H3 & _ & _ & H6 & _).
  exists r, sv. split; [exact H3 | exact H6].
Defined.

Section ES256_end_to_end.
Context `{Crypto}.

(** What [crypto/ecdsa] promises for P-256, as before. *)
Variable key_pair : PrivateKey -> PublicKey -> Prop.
Hypothesis ecdsa_sign_verify :
  forall (rnd : Rand) (priv : PrivateKey) (pub : PublicKey) (hash : list byte),
    key_pair priv pub ->
    exists r s,
      ecdsa_Sign rnd priv hash = Ok (r, s)
      /\ (0 < r < 2 ^ 256)%Z
      /\ (0 < s < 2 ^ 256)%Z
      /\ ecdsa_Verify pub hash r s = true.


End ES256_end_to_end.


(** ** White space around a scope *)














(** ** What the parser returns *)






























(** ** The characters of a wire form *)

Lemma encode_url_safe (i : N) : (i < 64)%N -> url_safe (base64.encode i) = true.
Proof.
  revert i. apply lt_64_cases. intros n Hn.
  do 64 (destruct n as [|n]; [vm_compute; reflexivity|]). lia.
Qed.

Lemma Encode_url_safe (src : list byte) :
  Forall (fun c => url_safe c = true) (base64.Encode src).
Proof.
  rewrite Encode_sextets_of. apply Forall_fmap.
  eapply Forall_impl; [apply sextets_of_bound|].
  intros i Hi. now apply encode_url_safe.
Qed.

Lemma Encode_length (src : list byte) :
  length (base64.Encode src) = (4 * length src + 2) / 3.
Proof.
  induction src as [|a|a b|a b c l IH] using list_ind3; try reflexivity.
  cbn [base64.Encode length]. cbv zeta. cbn [length]. rewrite IH.
  replace (4 * S (S (S (length l))) + 2) with ((4 * length l + 2) + 4 * 3) by lia.
  rewrite Nat.div_add by lia. lia.
Qed.

Lemma list_ascii_app (a b : string) :
  list_ascii_of_string (a +:+ b) = list_ascii_of_string a ++ list_ascii_of_string b.
Proof.
  induction a as [|c a IH]; [reflexivity|].
  rewrite append_cons. cbn [list_ascii_of_string app]. now rewrite IH.
Qed.

Lemma list_ascii_dot_join (a b : string) :
  list_ascii_of_string (dot_join a b)
  = list_ascii_of_string a ++ "."%char :: list_ascii_of_string b.
Proof. unfold dot_join. now rewrite !list_ascii_app. Qed.

Lemma length_string_of_list (l : list byte) :
  String.length (string_of_list_ascii l) = length l.
Proof. induction l as [|c l IH]; [reflexivity|]. cbn. now rewrite IH. Qed.

(** X22. The wire form [Serialize] writes is safe in a URL: it holds two
    dots and otherwise only letters, digits, hyphens and underscores,
    with no padding; the signature segment of a signature of [n] bytes
    has [(4n + 2) / 3] characters, 86 for the 64 bytes of ES256. *)
Theorem X22_wire_form_is_url_safe (t : Token) (s : string) :
  Serialize t = Ok s ->
  count_dots s = 2
  /\ Forall (fun c => url_safe c = true \/ c = "."%char) (list_ascii_of_string s)
  /\ exists h b sig,
      strings.Split s "."%char = [h; b; sig]
      /\ String.length sig = (4 * length (data (Signature t)) + 2) / 3
      /\ (length (data (Signature t)) = 64 -> String.length sig = 86).
Proof.
  intros Hs. pose proof (Split_length s) as Hlen.
  apply Serialize_Ok in Hs as (rawHeader & rawBody & _ & _ & ->).
  rewrite Split_three in Hlen |- * by apply no_dot_EncodeToString.
  split; [cbn in Hlen; lia|]. split.
  - rewrite !list_ascii_dot_join. unfold base64.EncodeToString.
    rewrite !list_ascii_of_string_of_list_ascii.
    assert (Hseg : forall src,
               Forall (fun c => url_safe c = true \/ c = "."%char) (base64.Encode src)).
    { intros src. eapply Forall_impl; [apply Encode_url_safe|]. intros c Hc. now left. }
    apply Forall_app. split; [apply Forall_app; split|]; [apply Hseg| |].
    + apply Forall_cons. split; [now right | apply Hseg].
    + apply Forall_cons. split; [now right | apply Hseg].
  - eexists _, _, _. split; [reflexivity|].
    assert (E : String.length (base64.EncodeToString (data (Signature t)))
                = (4 * length (data (Signature t)) + 2) / 3).
    { unfold base64.EncodeToString. now rewrite length_string_of_list, Encode_length. }
    split; [exact E|]. intros H64. rewrite E, H64. reflexivity.
Qed.

Lemma X22_witness :
  count_dots
    "eyJhbGciOiJFUzI1NiIsInR5cCI6IkpXVCJ9.eyJLZXkxIjoiVmFsdWUxIiwiS2V5MiI6IlZhbHVlMiJ9.AQIDBA"
  = 2
  /\ exists h b sig,
      strings.Split
        "eyJhbGciOiJFUzI1NiIsInR5cCI6IkpXVCJ9.eyJLZXkxIjoiVmFsdWUxIiwiS2V5MiI6IlZhbHVlMiJ9.AQIDBA"
        "."%char = [h; b; sig]
      /\ String.length sig = 6.
Proof.
  destruct (X22_wire_form_is_url_safe wire_example
    "eyJhbGciOiJFUzI1NiIsInR5cCI6IkpXVCJ9.eyJLZXkxIjoiVmFsdWUxIiwiS2V5MiI6IlZhbHVlMiJ9.AQIDBA"
              ltac:(vm_compute; reflexivity)) as (H1 & _ & h & b & sig & H3 & H4 & _).
  split; [exact H1|]. exists h, b, sig. split; [exact H3 | exact H4].
Defined.

(** ** Line breaks in a wire form *)






